(** * Hybrid crypto model: Hill cipher, S-DES and LSB steganography

    A shallow embedding of [hill_cipher.py], [sdes.py], [steganography.py]
    and [hybrid_model.py], with the properties of the pipeline proved on it.

    Conventions of the embedding.
    - A Python [int] is a [Z]; a NumPy [int64] is a [Z] reduced by [wrap64];
      a NumPy [uint8] is a [Z] in [0, 256).
    - A Python [str] is the list of its code points ([pystr]).
    - A function that can raise returns a [result]: [inl e] for the
      exception [e], [inr v] for the value [v].
    - Console output ([print]) is not part of the model. *)

From Stdlib Require Import String Ascii DecimalString ZArith List Bool Lia.
Import ListNotations.
Open Scope Z_scope.

(** ** Python values and exceptions *)

Definition pystr := list Z.

(** The code points of a string literal of the source. *)
Definition lit (s : string) : pystr :=
  map (fun a => Z.of_N (N_of_ascii a)) (list_ascii_of_string s).

(** [str(n)] for an integer [n]. *)
Definition str_of_int (n : Z) : string := NilZero.string_of_int (Z.to_int n).

Inductive exn_kind :=
| ValueError
| IndexError
| TypeError
| RecursionError
| FileNotFoundError
| Exception.

(** An exception: its class and [str(e)]. *)
Record exn := Raise { kind : exn_kind; str : string }.

Definition result (A : Type) : Type := (exn + A)%type.

Definition ret {A} (a : A) : result A := inr a.
Definition raise {A} (k : exn_kind) (msg : string) : result A := inl (Raise k msg).

Definition bind {A B} (m : result A) (f : A -> result B) : result B :=
  match m with
  | inl e => inl e
  | inr a => f a
  end.

Notation "x <- m ;; k" := (bind m (fun x => k))
  (at level 61, m at next level, right associativity).
Notation "' p <- m ;; k" := (bind m (fun x => let p := x in k))
  (at level 61, p pattern, m at next level, right associativity).

(** A comprehension or a loop whose body can raise: left to right, the first
    exception ends it. *)
Fixpoint mapM {A B} (f : A -> result B) (l : list A) : result (list B) :=
  match l with
  | [] => ret []
  | a :: l' => b <- f a ;; bs <- mapM f l' ;; ret (b :: bs)
  end.

(** [l[i]] for a Python sequence: a negative index counts from the end, an
    index out of range raises [IndexError]. *)
Definition index_at {A} (msg : string) (l : list A) (i : Z) : result A :=
  let j := if i <? 0 then i + Z.of_nat (length l) else i in
  if j <? 0 then raise IndexError msg
  else match nth_error l (Z.to_nat j) with
       | Some x => ret x
       | None => raise IndexError msg
       end.

Definition getitem {A} : list A -> Z -> result A :=
  index_at "list index out of range".

Definition str_getitem : pystr -> Z -> result Z :=
  index_at "string index out of range".

(** [ord(s)]. *)
Definition ord (s : pystr) : result Z :=
  match s with
  | [c] => ret c
  | _ => raise TypeError
           ("ord() expected a character, but string of length "
            ++ str_of_int (Z.of_nat (length s)) ++ " found")
  end.

(** The texts whose characters all have a code point that fits 8 bits. *)
Definition latin1 (text : pystr) : bool :=
  forallb (fun c => (0 <=? c) && (c <? 256)) text.

Lemma latin1_Forall T : latin1 T = true -> Forall (fun c => 0 <= c < 256) T.
Proof.
  unfold latin1. rewrite forallb_forall, Forall_forall.
  intros H c Hc. specialize (H c Hc). lia.
Qed.

(** The value a NumPy [int64] operation stores for the exact result [z]. *)
Definition wrap64 (z : Z) : Z := (z + 2 ^ 63) mod 2 ^ 64 - 2 ^ 63.

Lemma wrap64_small z : - 2 ^ 63 <= z < 2 ^ 63 -> wrap64 z = z.
Proof. intros H. unfold wrap64. rewrite Z.mod_small; lia. Qed.

(** [l[i:j]] for [0 <= i <= j]. *)
Definition slice {A} (l : list A) (i j : nat) : list A :=
  firstn (j - i) (skipn i l).

(** [range(0, stop, step)]. *)
Definition range_step (stop step : nat) : list nat :=
  map (fun k => (k * step)%nat) (seq 0 ((stop + step - 1) / step)).

(** The slices [l[i:i+n]] for [i in range(0, len(l), n)]. *)
Definition chunks {A} (n : nat) (l : list A) : list (list A) :=
  map (fun i => slice l i (i + n)) (range_step (length l) n).

(** [chr(n)]. *)
Definition chr (n : Z) : result Z :=
  if (0 <=? n) && (n <? 1114112) then ret n
  else raise ValueError "chr() arg not in range(0x110000)".


Section Chunks.
Context {A : Type}.

Lemma slice_width (l : list A) (i n : nat) :
  slice l i (i + n) = firstn n (skipn i l).
Proof. unfold slice. f_equal. lia. Qed.

Lemma range_step_succ (m n : nat) :
  (0 < n)%nat ->
  range_step (n + m) n = 0%nat :: map (fun i => (n + i)%nat) (range_step m n).
Proof.
  intros Hn. unfold range_step.
  replace ((n + m + n - 1) / n)%nat with (S ((m + n - 1) / n)).
  - cbn [seq map]. f_equal. rewrite <- seq_shift, !map_map.
    apply map_ext. intros k. lia.
  - replace (n + m + n - 1)%nat with (m + n - 1 + 1 * n)%nat by lia.
    rewrite Nat.div_add by lia. lia.
Qed.

Lemma range_step_small (m n : nat) :
  (0 < m <= n)%nat -> range_step m n = [0%nat].
Proof.
  intros H. unfold range_step.
  replace ((m + n - 1) / n)%nat with 1%nat; [reflexivity|].
  apply Nat.div_unique with (r := (m - 1)%nat); lia.
Qed.

Lemma chunks_nil (n : nat) : (0 < n)%nat -> chunks n (@nil A) = [].
Proof.
  intros Hn. unfold chunks, range_step. cbn [length].
  rewrite Nat.div_small by lia. reflexivity.
Qed.

Lemma chunks_app (n : nat) (b l : list A) :
  (0 < n)%nat -> length b = n -> chunks n (b ++ l) = b :: chunks n l.
Proof.
  intros Hn Hb. unfold chunks.
  rewrite length_app, Hb, range_step_succ by assumption.
  cbn [map]. f_equal.
  - rewrite (slice_width _ 0 n). cbn [skipn].
    rewrite firstn_app, Hb, Nat.sub_diag, firstn_O, app_nil_r.
    apply firstn_all2. lia.
  - rewrite map_map. apply map_ext. intros i.
    replace (n + i + n)%nat with ((n + i) + n)%nat by lia.
    rewrite !slice_width. f_equal.
    rewrite skipn_app, Hb.
    rewrite (skipn_all2 b) by lia. cbn [app]. f_equal. lia.
Qed.

Lemma chunks_short (n : nat) (l : list A) :
  (0 < length l <= n)%nat -> chunks n l = [l].
Proof.
  intros H. unfold chunks. rewrite range_step_small by assumption.
  cbn [map]. rewrite (slice_width _ 0 n). cbn [skipn].
  rewrite firstn_all2 by lia. reflexivity.
Qed.

(** Every list is some full blocks followed by a short tail. *)
Lemma block_ind (n : nat) (P : list A -> Prop) :
  (0 < n)%nat ->
  (forall l, (length l < n)%nat -> P l) ->
  (forall b l, length b = n -> P l -> P (b ++ l)) ->
  forall l, P l.
Proof.
  intros Hn Hshort Hblock l.
  remember (length l) as k eqn:Hk. revert l Hk.
  induction k as [k IH] using lt_wf_ind. intros l Hk.
  destruct (Nat.lt_ge_cases (length l) n) as [Hlt|Hge].
  - apply Hshort, Hlt.
  - rewrite <- (firstn_skipn n l). apply Hblock.
    + rewrite length_firstn. lia.
    + apply (IH (length (skipn n l))); [|reflexivity].
      rewrite length_skipn. lia.
Qed.

(** The blocks of full width, as the loops with [if len(block) == n]
    see them. *)
Definition full_chunks (n : nat) (l : list A) : list (list A) :=
  filter (fun b => (length b =? n)%nat) (chunks n l).

Lemma full_chunks_app (n : nat) (b l : list A) :
  (0 < n)%nat -> length b = n -> full_chunks n (b ++ l) = b :: full_chunks n l.
Proof.
  intros Hn Hb. unfold full_chunks. rewrite chunks_app by assumption.
  cbn [filter]. rewrite (proj2 (Nat.eqb_eq _ _) Hb). reflexivity.
Qed.

Lemma full_chunks_short (n : nat) (l : list A) :
  (length l < n)%nat -> full_chunks n l = [].
Proof.
  intros H. unfold full_chunks. destruct l as [|a l].
  - rewrite chunks_nil by lia. reflexivity.
  - rewrite chunks_short by (cbn [length] in *; lia).
    cbn [filter]. destruct (Nat.eqb_spec (length (a :: l)) n); [lia|reflexivity].
Qed.

Lemma full_chunks_concat (n : nat) (bs : list (list A)) :
  (0 < n)%nat -> Forall (fun b => length b = n) bs ->
  full_chunks n (concat bs) = bs.
Proof.
  intros Hn H. induction H as [|b bs Hb _ IH]; cbn [concat].
  - apply full_chunks_short. cbn. lia.
  - rewrite full_chunks_app, IH by assumption. reflexivity.
Qed.

Lemma chunks_concat (n : nat) (bs : list (list A)) :
  (0 < n)%nat -> Forall (fun b => length b = n) bs ->
  chunks n (concat bs) = bs.
Proof.
  intros Hn H. induction H as [|b bs Hb _ IH]; cbn [concat].
  - apply chunks_nil, Hn.
  - rewrite chunks_app, IH by assumption. reflexivity.
Qed.

(** Cutting a list to its largest prefix of whole blocks keeps the full
    blocks. *)
Lemma full_chunks_truncate (n : nat) (l : list A) :
  (0 < n)%nat ->
  full_chunks n (firstn (n * (length l / n)) l) = full_chunks n l.
Proof.
  intros Hn. revert l. apply (block_ind n); [assumption| |].
  - intros l Hl. rewrite Nat.div_small, Nat.mul_0_r by assumption. cbn [firstn].
    rewrite (full_chunks_short n l) by assumption.
    apply full_chunks_short. cbn. lia.
  - intros b l Hb IH. rewrite length_app, Hb.
    replace (n + length l)%nat with (length l + 1 * n)%nat by lia.
    rewrite Nat.div_add by lia.
    replace (n * (length l / n + 1))%nat with (length b + n * (length l / n))%nat by lia.
    rewrite firstn_app_2, !full_chunks_app, IH by assumption. reflexivity.
Qed.

End Chunks.

(** ** S-DES ([sdes.py]) *)

Module SDES.

Definition P10 : list Z := [3; 5; 2; 7; 4; 10; 1; 9; 8; 6].
Definition P8 : list Z := [6; 3; 7; 4; 8; 5; 10; 9].
Definition IP : list Z := [2; 6; 3; 1; 4; 8; 5; 7].
Definition IP_INV : list Z := [4; 1; 3; 5; 7; 2; 8; 6].
Definition EP : list Z := [4; 1; 2; 3; 2; 3; 4; 1].
Definition P4 : list Z := [2; 4; 3; 1].

Definition S0 : list (list Z) :=
  [ [1; 0; 3; 2];
    [3; 2; 1; 0];
    [0; 2; 1; 3];
    [3; 1; 3; 2] ].

Definition S1 : list (list Z) :=
  [ [0; 1; 2; 3];
    [2; 0; 1; 3];
    [3; 0; 1; 0];
    [2; 1; 0; 3] ].

Definition permute (bits : list Z) (table : list Z) : result (list Z) :=
  mapM (fun i => getitem bits (i - 1)) table.

Definition left_shift (bits : list Z) (shifts : nat) : list Z :=
  skipn shifts bits ++ firstn shifts bits.

Definition xor (bits1 bits2 : list Z) : list Z :=
  map (fun p => Z.lxor (fst p) (snd p)) (combine bits1 bits2).

(** [range(length-1, -1, -1)]. *)
Definition range_down (len : nat) : list Z :=
  map Z.of_nat (rev (seq 0 len)).

Definition char_bits (ascii_val : Z) : list Z :=
  map (fun i => Z.land (Z.shiftr ascii_val i) 1) (range_down 8).

Definition string_to_bits (text : pystr) : list Z :=
  flat_map char_bits text.

(** [ascii_val += bit * (2 ** (7-j))] over [enumerate(byte)]. *)
Definition byte_value (byte : list Z) : Z :=
  fold_left (fun ascii_val jb => ascii_val + snd jb * 2 ^ (7 - Z.of_nat (fst jb)))
            (combine (seq 0 (length byte)) byte) 0.

Definition bits_to_string (bits : list Z) : result pystr :=
  mapM (fun byte => chr (byte_value byte))
       (full_chunks 8 bits).

Definition int_to_bits (num : Z) (len : nat) : list Z :=
  map (fun i => Z.land (Z.shiftr num i) 1) (range_down len).

(** The key argument of [generate_keys]: a [str], a [list], or anything
    else. *)
Inductive key_arg :=
| KeyStr (s : pystr)
| KeyList (l : list Z)
| KeyOther.

Definition is_binary_digit (c : Z) : bool := (c =? 48) || (c =? 49).

Definition generate_keys (key : key_arg) : result (list Z * list Z) :=
  key_bits <-
    match key with
    | KeyStr s =>
        if negb (length s =? 10)%nat || negb (forallb is_binary_digit s)
        then raise ValueError "Key must be a 10-bit binary string"
        else ret (map (fun c => c - 48) s)
    | KeyList l =>
        if negb (length l =? 10)%nat
        then raise ValueError "Key must be 10 bits long"
        else ret l
    | KeyOther => raise ValueError "Key must be a string or list"
    end ;;
  p10_key <- permute key_bits P10 ;;
  let left_half := firstn 5 p10_key in
  let right_half := skipn 5 p10_key in
  let left_k1 := left_shift left_half 1 in
  let right_k1 := left_shift right_half 1 in
  let combined_k1 := left_k1 ++ right_k1 in
  k1 <- permute combined_k1 P8 ;;
  let left_k2 := left_shift left_k1 2 in
  let right_k2 := left_shift right_k1 2 in
  let combined_k2 := left_k2 ++ right_k2 in
  k2 <- permute combined_k2 P8 ;;
  ret (k1, k2).

Definition sbox_substitution (bits : list Z) : result (list Z) :=
  let left_4 := firstn 4 bits in
  let right_4 := skipn 4 bits in
  l0 <- getitem left_4 0 ;; l3 <- getitem left_4 3 ;;
  let row0 := Z.lor (Z.shiftl l0 1) l3 in
  l1 <- getitem left_4 1 ;; l2 <- getitem left_4 2 ;;
  let col0 := Z.lor (Z.shiftl l1 1) l2 in
  s0_row <- getitem S0 row0 ;;
  s0_output <- getitem s0_row col0 ;;
  let s0_bits := int_to_bits s0_output 2 in
  r0 <- getitem right_4 0 ;; r3 <- getitem right_4 3 ;;
  let row1 := Z.lor (Z.shiftl r0 1) r3 in
  r1 <- getitem right_4 1 ;; r2 <- getitem right_4 2 ;;
  let col1 := Z.lor (Z.shiftl r1 1) r2 in
  s1_row <- getitem S1 row1 ;;
  s1_output <- getitem s1_row col1 ;;
  let s1_bits := int_to_bits s1_output 2 in
  ret (s0_bits ++ s1_bits).

Definition f_function (right_half subkey : list Z) : result (list Z) :=
  expanded <- permute right_half EP ;;
  let xor_result := xor expanded subkey in
  sbox_result <- sbox_substitution xor_result ;;
  permute sbox_result P4.

Definition encrypt_block (plaintext_bits k1 k2 : list Z) : result (list Z) :=
  ip_result <- permute plaintext_bits IP ;;
  let left := firstn 4 ip_result in
  let right := skipn 4 ip_result in
  f_result <- f_function right k1 ;;
  let new_left := xor left f_result in
  let swapped := (right, new_left) in
  let left := fst swapped in
  let right := snd swapped in
  f_result <- f_function right k2 ;;
  let new_left := xor left f_result in
  let combined := new_left ++ right in
  permute combined IP_INV.

Definition decrypt_block (ciphertext_bits k1 k2 : list Z) : result (list Z) :=
  encrypt_block ciphertext_bits k2 k1.

(** [while len(plaintext_bits) % 8 != 0: plaintext_bits.append(0)]; the loop
    body runs at most seven times. *)
Fixpoint pad_loop (fuel : nat) (plaintext_bits : list Z) : list Z :=
  match fuel with
  | O => plaintext_bits
  | S fuel' =>
      if (length plaintext_bits mod 8 =? 0)%nat then plaintext_bits
      else pad_loop fuel' (plaintext_bits ++ [0])
  end.

Definition encrypt (plaintext : pystr) (key : key_arg) : result (list Z) :=
  '(k1, k2) <- generate_keys key ;;
  let plaintext_bits := pad_loop 7 (string_to_bits plaintext) in
  blocks <- mapM (fun block => encrypt_block block k1 k2) (chunks 8 plaintext_bits) ;;
  ret (concat blocks).

Definition decrypt (ciphertext_bits : list Z) (key : key_arg) : result (list Z) :=
  '(k1, k2) <- generate_keys key ;;
  blocks <- mapM (fun block => decrypt_block block k1 k2)
                 (full_chunks 8 ciphertext_bits) ;;
  ret (concat blocks).

Definition encrypt_text (plaintext : pystr) (key : key_arg) : result pystr :=
  encrypted_bits <- encrypt plaintext key ;;
  ret (flat_map (fun bit => lit (str_of_int bit)) encrypted_bits).


(** The ciphertext argument of [decrypt_text]: a [str] of digits or a list
    of bits. *)
Inductive cipher_arg :=
| CipherStr (s : pystr)
| CipherBits (l : list Z).

Section DecryptText.

(** [int(c)] for a one-character string [c] is Python's: [int_digit c] is
    the value of a Unicode decimal digit, [None] where it raises
    [ValueError].  The message of that error ends with [repr(c)], which is
    [repr_char c]. *)
Variable int_digit : Z -> option Z.
Variable repr_char : Z -> string.

Definition int_of_char (c : Z) : result Z :=
  match int_digit c with
  | Some d => ret d
  | None => raise ValueError
              ("invalid literal for int() with base 10: " ++ repr_char c)
  end.

Definition decrypt_text (ciphertext_binary : cipher_arg) (key : key_arg) : result pystr :=
  ciphertext_bits <-
    match ciphertext_binary with
    | CipherStr s => mapM int_of_char s
    | CipherBits l => ret l
    end ;;
  decrypted_bits <- decrypt ciphertext_bits key ;;
  bits_to_string decrypted_bits.

End DecryptText.

(** [int] on the ASCII digits; enough for the strings [encrypt_text]
    produces. *)
Definition ascii_digit (c : Z) : option Z :=
  if (48 <=? c) && (c <=? 57) then Some (c - 48) else None.

Definition char_string (c : Z) : string :=
  String (ascii_of_N (Z.to_N c)) EmptyString.

(** A hexadecimal digit, in lower case. *)
Definition hex_digit (n : Z) : string :=
  char_string (if n <? 10 then 48 + n else 87 + n).

(** [repr] of a one-character string, on U+0000..U+007F: the quote is
    written between double quotes, the backslash, tab, newline and return
    with their escapes, the other control characters as [\xNN], and the
    rest between quotes. *)
Definition repr_ascii (c : Z) : string :=
  if c =? 39 then (char_string 34 ++ "'" ++ char_string 34)%string
  else if c =? 92 then "'\\'"%string
  else if c =? 9 then "'\t'"%string
  else if c =? 10 then "'\n'"%string
  else if c =? 13 then "'\r'"%string
  else if (c <? 32) || (c =? 127)
       then ("'\x" ++ hex_digit (c / 16) ++ hex_digit (c mod 16) ++ "'")%string
       else ("'" ++ char_string c ++ "'")%string.

Example scenario_B :
  encrypt_text (lit "A") (KeyStr (lit "1010000010")) = inr (lit "00010101") /\
  decrypt_text ascii_digit repr_ascii (CipherStr (lit "00010101"))
               (KeyStr (lit "1010000010"))
  = inr (lit "A").
Proof. split; reflexivity. Qed.

(** *** Bits and their enumeration *)

Definition is_bit (z : Z) : bool := (z =? 0) || (z =? 1).

Definition is_bits (n : nat) (l : list Z) : bool :=
  (length l =? n)%nat && forallb is_bit l.

Fixpoint all_bits (n : nat) : list (list Z) :=
  match n with
  | O => [[]]
  | S n' => flat_map (fun l => [0 :: l; 1 :: l]) (all_bits n')
  end.

Lemma is_bit_cases z : is_bit z = true -> z = 0 \/ z = 1.
Proof. unfold is_bit. lia. Qed.

Lemma is_bits_length n l : is_bits n l = true -> length l = n.
Proof.
  unfold is_bits. intros H. apply andb_true_iff in H.
  apply Nat.eqb_eq, H.
Qed.

Lemma is_bits_cons n z l :
  is_bits (S n) (z :: l) = true <-> is_bit z = true /\ is_bits n l = true.
Proof.
  unfold is_bits. cbn [length forallb]. rewrite !andb_true_iff.
  change (S (length l) =? S n)%nat with (length l =? n)%nat. tauto.
Qed.

Lemma all_bits_complete n l : is_bits n l = true -> In l (all_bits n).
Proof.
  revert l. induction n as [|n IH]; intros [|z l] H;
    try (apply is_bits_length in H; discriminate H).
  - left. reflexivity.
  - apply is_bits_cons in H. destruct H as [Hz Hl].
    cbn [all_bits]. apply in_flat_map. exists l. split; [apply IH, Hl|].
    destruct (is_bit_cases z Hz) as [-> | ->]; cbn; auto.
Qed.

Lemma is_bits_app n m l1 l2 :
  is_bits n l1 = true -> is_bits m l2 = true -> is_bits (n + m) (l1 ++ l2) = true.
Proof.
  unfold is_bits. rewrite !andb_true_iff, !Nat.eqb_eq, forallb_app, length_app.
  intros [-> ->] [-> ->]. auto.
Qed.

Lemma lxor_cancel a b : Z.lxor (Z.lxor a b) b = a.
Proof. rewrite Z.lxor_assoc, Z.lxor_nilpotent. apply Z.lxor_0_r. Qed.

Lemma is_bit_lxor a b : is_bit a = true -> is_bit b = true -> is_bit (Z.lxor a b) = true.
Proof.
  intros Ha Hb.
  destruct (is_bit_cases a Ha) as [-> | ->], (is_bit_cases b Hb) as [-> | ->];
    reflexivity.
Qed.

(** *** The block cipher on 8-bit blocks *)

(** The round function is defined on every 4-bit half and 8-bit subkey, and
    gives 4 bits: checked on all 4096 pairs. *)
Lemma f_function_total r k :
  is_bits 4 r = true -> is_bits 8 k = true ->
  exists y, f_function r k = inr y /\ is_bits 4 y = true.
Proof.
  intros Hr Hk.
  assert (Hall : forallb (fun r => forallb (fun k =>
            match f_function r k with
            | inr y => is_bits 4 y
            | inl _ => false
            end) (all_bits 8)) (all_bits 4) = true) by (vm_compute; reflexivity).
  rewrite forallb_forall in Hall.
  specialize (Hall r (all_bits_complete _ _ Hr)).
  rewrite forallb_forall in Hall.
  specialize (Hall k (all_bits_complete _ _ Hk)).
  destruct (f_function r k) as [e|y]; [discriminate|].
  exists y. auto.
Qed.

Lemma permute_IP a b c d e f g h :
  permute [a; b; c; d; e; f; g; h] IP = inr [b; f; c; a; d; h; e; g].
Proof. reflexivity. Qed.

Lemma permute_IP_INV a b c d e f g h :
  permute [a; b; c; d; e; f; g; h] IP_INV = inr [d; a; c; e; g; b; h; f].
Proof. reflexivity. Qed.

Lemma is_bits_4_inv l :
  is_bits 4 l = true ->
  exists a b c d, l = [a; b; c; d] /\
    is_bit a = true /\ is_bit b = true /\ is_bit c = true /\ is_bit d = true.
Proof.
  intros H. pose proof (is_bits_length _ _ H) as Hl.
  destruct l as [|a [|b [|c [|d [|? ?]]]]]; try discriminate Hl.
  exists a, b, c, d. split; [reflexivity|].
  unfold is_bits in H. cbn in H. rewrite !andb_true_iff in H. tauto.
Qed.

Lemma is_bits_4_intro a b c d :
  is_bit a = true -> is_bit b = true -> is_bit c = true -> is_bit d = true ->
  is_bits 4 [a; b; c; d] = true.
Proof. intros Ha Hb Hc Hd. unfold is_bits. cbn. rewrite Ha, Hb, Hc, Hd. reflexivity. Qed.

Lemma is_bits_8_inv l :
  is_bits 8 l = true ->
  exists l1 l2, l = l1 ++ l2 /\ is_bits 4 l1 = true /\ is_bits 4 l2 = true.
Proof.
  intros H. pose proof (is_bits_length _ _ H) as Hl.
  destruct l as [|a [|b [|c [|d l2]]]]; try discriminate Hl.
  exists [a; b; c; d], l2. split; [reflexivity|].
  apply is_bits_cons in H. destruct H as [Ha H].
  apply is_bits_cons in H. destruct H as [Hb H].
  apply is_bits_cons in H. destruct H as [Hc H].
  apply is_bits_cons in H. destruct H as [Hd H].
  split; [apply is_bits_4_intro|]; assumption.
Qed.

(** One Feistel pass with the subkeys in the other order undoes the block
    transform. *)
Lemma decrypt_encrypt_block b k1 k2 :
  is_bits 8 b = true -> is_bits 8 k1 = true -> is_bits 8 k2 = true ->
  exists c, encrypt_block b k1 k2 = inr c /\ is_bits 8 c = true /\
            decrypt_block c k1 k2 = inr b.
Proof.
  intros Hb Hk1 Hk2.
  destruct (is_bits_8_inv _ Hb) as (l1 & l2 & -> & H1 & H2).
  destruct (is_bits_4_inv _ H1) as (b1 & b2 & b3 & b4 & -> & B1 & B2 & B3 & B4).
  destruct (is_bits_4_inv _ H2) as (b5 & b6 & b7 & b8 & -> & B5 & B6 & B7 & B8).
  cbn [app]. unfold decrypt_block, encrypt_block.
  rewrite permute_IP. cbn [bind firstn skipn fst snd].
  destruct (f_function_total [b4; b8; b5; b7] k1) as (y & Hy & Hyb);
    [apply is_bits_4_intro; assumption | assumption |].
  rewrite Hy. cbn [bind].
  destruct (is_bits_4_inv _ Hyb) as (y1 & y2 & y3 & y4 & -> & Y1 & Y2 & Y3 & Y4).
  cbn [xor combine map fst snd].
  destruct (f_function_total
              [Z.lxor b2 y1; Z.lxor b6 y2; Z.lxor b3 y3; Z.lxor b1 y4] k2)
    as (w & Hw & Hwb);
    [apply is_bits_4_intro; apply is_bit_lxor; assumption | assumption |].
  rewrite Hw. cbn [bind].
  destruct (is_bits_4_inv _ Hwb) as (w1 & w2 & w3 & w4 & -> & W1 & W2 & W3 & W4).
  cbn [xor combine map fst snd app].
  rewrite permute_IP_INV. eexists. split; [reflexivity|]. split.
  - unfold is_bits. cbn [length Nat.eqb forallb andb].
    rewrite !is_bit_lxor by assumption. reflexivity.
  - rewrite permute_IP. cbn [bind firstn skipn fst snd].
    rewrite Hw. cbn [bind xor combine map fst snd].
    rewrite !lxor_cancel, Hy. cbn [bind xor combine map fst snd app].
    rewrite !lxor_cancel. apply permute_IP_INV.
Qed.


(** *** The key schedule *)

(** A 10-character string of binary digits. *)
Definition valid_key (key : pystr) : bool :=
  (length key =? 10)%nat && forallb is_binary_digit key.

Lemma generate_keys_valid key :
  valid_key key = true ->
  exists k1 k2, generate_keys (KeyStr key) = inr (k1, k2) /\
                is_bits 8 k1 = true /\ is_bits 8 k2 = true.
Proof.
  intros Hkey.
  assert (Hall : forallb (fun kb =>
            match generate_keys (KeyStr (map (fun b => b + 48) kb)) with
            | inr (k1, k2) => is_bits 8 k1 && is_bits 8 k2
            | inl _ => false
            end) (all_bits 10) = true) by (vm_compute; reflexivity).
  rewrite forallb_forall in Hall.
  assert (Hbits : is_bits 10 (map (fun c => c - 48) key) = true).
  { unfold valid_key in Hkey. unfold is_bits.
    apply andb_true_iff in Hkey. destruct Hkey as [Hlen Hdig].
    rewrite length_map, Hlen. cbn [andb].
    rewrite forallb_forall in Hdig. apply forallb_forall.
    intros z Hz. apply in_map_iff in Hz. destruct Hz as (c & <- & Hc).
    specialize (Hdig c Hc). unfold is_binary_digit in Hdig. unfold is_bit. lia. }
  specialize (Hall _ (all_bits_complete _ _ Hbits)).
  rewrite map_map in Hall.
  rewrite (map_ext _ (fun c => c) (fun c => Z.sub_add 48 c)), map_id in Hall.
  destruct (generate_keys (KeyStr key)) as [e|[k1 k2]]; [discriminate|].
  apply andb_true_iff in Hall. exists k1, k2. tauto.
Qed.

(** *** Text framing *)

Lemma is_bit_land_1 z : is_bit (Z.land z 1) = true.
Proof.
  change 1 with (Z.ones 1). rewrite Z.land_ones by lia.
  unfold is_bit. pose proof (Z.mod_pos_bound z (2 ^ 1)). lia.
Qed.

Lemma char_bits_is_bits c : is_bits 8 (char_bits c) = true.
Proof.
  unfold is_bits, char_bits. cbn [range_down seq rev app map length Nat.eqb forallb].
  rewrite !is_bit_land_1. reflexivity.
Qed.

Lemma byte_value_char_bits c : 0 <= c < 256 -> byte_value (char_bits c) = c.
Proof.
  intros Hc.
  assert (Hall : forallb (fun n => byte_value (char_bits (Z.of_nat n)) =? Z.of_nat n)
                         (seq 0 256) = true) by (vm_compute; reflexivity).
  rewrite forallb_forall in Hall.
  specialize (Hall (Z.to_nat c)). rewrite Z2Nat.id in Hall by lia.
  apply Z.eqb_eq, Hall, in_seq. lia.
Qed.

Lemma string_to_bits_concat T : string_to_bits T = concat (map char_bits T).
Proof. apply flat_map_concat_map. Qed.

Lemma Forall_char_bits_length T :
  Forall (fun b : list Z => length b = 8%nat) (map char_bits T).
Proof.
  apply Forall_forall. intros b Hb. apply in_map_iff in Hb.
  destruct Hb as (c & <- & _). apply is_bits_length, char_bits_is_bits.
Qed.

(** The encoding of a text is always a whole number of bytes, so the padding
    loop of [encrypt] never adds a bit. *)
Lemma string_to_bits_length T : length (string_to_bits T) = (8 * length T)%nat.
Proof.
  induction T as [|c T IH]; [reflexivity|].
  cbn [string_to_bits flat_map]. rewrite length_app.
  fold (string_to_bits T). rewrite IH, (is_bits_length _ _ (char_bits_is_bits c)).
  cbn [length]. lia.
Qed.

Lemma pad_loop_aligned fuel l : (length l mod 8 = 0)%nat -> pad_loop fuel l = l.
Proof.
  intros H. destruct fuel; [reflexivity|]. cbn [pad_loop].
  rewrite H. reflexivity.
Qed.

Lemma pad_loop_string_to_bits T : pad_loop 7 (string_to_bits T) = string_to_bits T.
Proof.
  apply pad_loop_aligned. rewrite string_to_bits_length.
  rewrite Nat.mul_comm. apply Nat.Div0.mod_mul.
Qed.

Lemma bits_to_string_string_to_bits T :
  Forall (fun c => 0 <= c < 256) T -> bits_to_string (string_to_bits T) = inr T.
Proof.
  intros HT. unfold bits_to_string.
  rewrite string_to_bits_concat, full_chunks_concat
    by (try lia; apply Forall_char_bits_length).
  induction HT as [|c T Hc _ IH]; [reflexivity|].
  cbn [map mapM]. rewrite byte_value_char_bits by assumption.
  unfold chr at 1.
  replace ((0 <=? c) && (c <? 1114112)) with true by lia.
  cbn [bind ret]. rewrite IH. reflexivity.
Qed.

(** Encrypting a list of 8-bit blocks succeeds, and decrypting the result
    block by block gives the blocks back. *)
Lemma decrypt_encrypt_blocks k1 k2 bs :
  is_bits 8 k1 = true -> is_bits 8 k2 = true ->
  Forall (fun b => is_bits 8 b = true) bs ->
  exists cs, mapM (fun b => encrypt_block b k1 k2) bs = inr cs /\
             Forall (fun c => is_bits 8 c = true) cs /\
             mapM (fun c => decrypt_block c k1 k2) cs = inr bs.
Proof.
  intros Hk1 Hk2 Hbs. induction Hbs as [|b bs Hb _ (cs & Hcs & Hbits & Hdec)].
  - exists []. repeat split. constructor.
  - destruct (decrypt_encrypt_block b k1 k2 Hb Hk1 Hk2) as (c & Hc & Hcb & Hd).
    exists (c :: cs). cbn [mapM]. rewrite Hc, Hcs, Hd, Hdec.
    repeat split. constructor; assumption.
Qed.

Lemma Forall_is_bits_concat n bs :
  Forall (fun b => is_bits n b = true) bs -> forallb is_bit (concat bs) = true.
Proof.
  intros H. induction H as [|b bs Hb _ IH]; [reflexivity|].
  cbn [concat]. rewrite forallb_app, IH.
  unfold is_bits in Hb. apply andb_true_iff in Hb. destruct Hb as [_ ->].
  reflexivity.
Qed.

(** [int(c)] reads back the digits [encrypt_text] writes. *)
Lemma parse_digits int_digit repr_char bits :
  int_digit 48 = Some 0 -> int_digit 49 = Some 1 ->
  forallb is_bit bits = true ->
  mapM (int_of_char int_digit repr_char) (flat_map (fun bit => lit (str_of_int bit)) bits)
  = inr bits.
Proof.
  intros H0 H1 Hbits. induction bits as [|b bits IH]; [reflexivity|].
  cbn [forallb] in Hbits. apply andb_true_iff in Hbits. destruct Hbits as [Hb Hbits].
  cbn [flat_map].
  destruct (is_bit_cases b Hb) as [-> | ->].
  - change (lit (str_of_int 0)) with [48]. cbn [app mapM].
    unfold int_of_char at 1. rewrite H0. cbn [bind ret].
    rewrite (IH Hbits). reflexivity.
  - change (lit (str_of_int 1)) with [49]. cbn [app mapM].
    unfold int_of_char at 1. rewrite H1. cbn [bind ret].
    rewrite (IH Hbits). reflexivity.
Qed.


Lemma encrypt_valid key T :
  valid_key key = true ->
  exists k1 k2 cs,
    generate_keys (KeyStr key) = inr (k1, k2) /\
    encrypt T (KeyStr key) = inr (concat cs) /\
    Forall (fun c => is_bits 8 c = true) cs /\
    mapM (fun c => decrypt_block c k1 k2) cs = inr (map char_bits T).
Proof.
  intros Hkey.
  destruct (generate_keys_valid key Hkey) as (k1 & k2 & Hgen & Hk1 & Hk2).
  destruct (decrypt_encrypt_blocks k1 k2 (map char_bits T) Hk1 Hk2)
    as (cs & Henc & Hcs & Hdec).
  { apply Forall_forall. intros b Hb. apply in_map_iff in Hb.
    destruct Hb as (c & <- & _). apply char_bits_is_bits. }
  exists k1, k2, cs. repeat split; try assumption.
  unfold encrypt. rewrite Hgen. cbn [bind].
  rewrite pad_loop_string_to_bits, string_to_bits_concat, chunks_concat
    by (try lia; apply Forall_char_bits_length).
  rewrite Henc. reflexivity.
Qed.

(** C4, as the code has it: for every key of 10 binary digits and every text
    whose characters have code points below 256, [decrypt_text] of
    [encrypt_text] is the text.  ([string_to_bits] keeps the low 8 bits of
    each code point, so every text encodes to a multiple of 8 bits.) *)
Theorem decrypt_text_encrypt_text int_digit repr_char key T :
  int_digit 48 = Some 0 -> int_digit 49 = Some 1 ->
  valid_key key = true ->
  latin1 T = true ->
  exists e, encrypt_text T (KeyStr key) = inr e /\
            decrypt_text int_digit repr_char (CipherStr e) (KeyStr key) = inr T.
Proof.
  intros H0 H1 Hkey HT.
  destruct (encrypt_valid key T Hkey) as (k1 & k2 & cs & Hgen & Henc & Hcs & Hdec).
  unfold encrypt_text. rewrite Henc. cbn [bind ret].
  eexists. split; [reflexivity|].
  unfold decrypt_text.
  rewrite (parse_digits int_digit repr_char _ H0 H1 (Forall_is_bits_concat 8 cs Hcs)).
  cbn [bind]. unfold decrypt. rewrite Hgen. cbn [bind].
  rewrite full_chunks_concat.
  - rewrite Hdec. cbn [bind ret]. rewrite <- string_to_bits_concat.
    apply bits_to_string_string_to_bits, latin1_Forall, HT.
  - lia.
  - eapply Forall_impl; [|exact Hcs]. intros c. apply is_bits_length.
Qed.

Lemma decrypt_text_encrypt_text_witness :
  exists e, encrypt_text (lit "Hello") (KeyStr (lit "1010000010")) = inr e /\
            decrypt_text ascii_digit repr_ascii (CipherStr e) (KeyStr (lit "1010000010"))
            = inr (lit "Hello").
Proof.
  apply (decrypt_text_encrypt_text ascii_digit repr_ascii (lit "1010000010")
           (lit "Hello"));
    reflexivity.
Defined.

(** C4 as stated fails on a character that does not fit 8 bits: U+0100 is
    encoded as eight zero bits and comes back as U+0000. *)
Lemma decrypt_text_encrypt_text_wide_char :
  valid_key (lit "1010000010") = true /\
  (length (string_to_bits [256%Z]) mod 8 = 0)%nat /\
  exists e, encrypt_text [256] (KeyStr (lit "1010000010")) = inr e /\
            decrypt_text ascii_digit repr_ascii (CipherStr e) (KeyStr (lit "1010000010"))
            = inr [0] /\
            decrypt_text ascii_digit repr_ascii (CipherStr e) (KeyStr (lit "1010000010"))
            <> inr [256].
Proof.
  split; [reflexivity|]. split; [reflexivity|].
  eexists. split; [reflexivity|]. split; [reflexivity|].
  vm_compute. discriminate.
Qed.

Lemma decrypt_truncates (b : list Z) (key : key_arg) :
  decrypt b key = decrypt (firstn (8 * (length b / 8)) b) key.
Proof. unfold decrypt. rewrite full_chunks_truncate by lia. reflexivity. Qed.

Lemma mapM_firstn {A B} (f : A -> result B) n l bs :
  mapM f l = inr bs -> mapM f (firstn n l) = inr (firstn n bs).
Proof.
  revert n bs. induction l as [|a l IH]; intros n bs H.
  - cbn in H. injection H as <-. destruct n; reflexivity.
  - cbn [mapM] in H. destruct (f a) as [e|b] eqn:Hfa; [discriminate|].
    cbn [bind] in H. destruct (mapM f l) as [e|bs'] eqn:Hl; [discriminate|].
    cbn [bind ret] in H. injection H as <-.
    destruct n; [reflexivity|]. cbn [firstn mapM]. rewrite Hfa. cbn [bind].
    rewrite (IH n bs' eq_refl). reflexivity.
Qed.

Lemma mapM_length {A B} (f : A -> result B) l bs :
  mapM f l = inr bs -> length bs = length l.
Proof.
  revert bs. induction l as [|a l IH]; intros bs H.
  - cbn in H. injection H as <-. reflexivity.
  - cbn [mapM] in H. destruct (f a) as [e|b]; [discriminate|].
    cbn [bind] in H. destruct (mapM f l) as [e|bs']; [discriminate|].
    cbn [bind ret] in H. injection H as <-. cbn [length]. rewrite (IH bs' eq_refl).
    reflexivity.
Qed.

(** The same for a ciphertext given as a string of digits. *)
Lemma decrypt_text_str_truncates int_digit repr_char (s : pystr) (key : key_arg) bits :
  mapM (int_of_char int_digit repr_char) s = inr bits ->
  decrypt_text int_digit repr_char (CipherStr s) key
  = decrypt_text int_digit repr_char (CipherStr (firstn (8 * (length s / 8)) s)) key.
Proof.
  intros Hs. unfold decrypt_text.
  rewrite (mapM_firstn _ (8 * (length s / 8)) s bits Hs), Hs. cbn [bind].
  rewrite <- (mapM_length _ _ _ Hs).
  rewrite (decrypt_truncates bits key). reflexivity.
Qed.

(** C10: [decrypt] and [decrypt_text] process the complete 8-bit blocks only;
    a trailing group of fewer than 8 bits is dropped, so the result is that
    of the input cut to its largest prefix of whole blocks.  This holds for
    a list of bits and for a string of digits, with any key (an invalid one
    raises the same error on both sides). *)
Theorem decrypt_text_truncates int_digit repr_char (key : key_arg) :
  (forall b : list Z,
      decrypt b key = decrypt (firstn (8 * (length b / 8)) b) key /\
      decrypt_text int_digit repr_char (CipherBits b) key
      = decrypt_text int_digit repr_char
          (CipherBits (firstn (8 * (length b / 8)) b)) key) /\
  (forall (s : pystr) (bits : list Z),
      mapM (int_of_char int_digit repr_char) s = inr bits ->
      decrypt_text int_digit repr_char (CipherStr s) key
      = decrypt_text int_digit repr_char (CipherStr (firstn (8 * (length s / 8)) s)) key).
Proof.
  split.
  - intros b. pose proof (decrypt_truncates b key) as H.
    split; [exact H|]. unfold decrypt_text. cbn [bind ret]. rewrite H. reflexivity.
  - intros s bits. apply decrypt_text_str_truncates.
Qed.

(** Nine digits: the ninth is dropped. *)
Lemma decrypt_text_truncates_witness :
  decrypt_text ascii_digit repr_ascii (CipherStr (lit "000101011"))
               (KeyStr (lit "1010000010"))
  = decrypt_text ascii_digit repr_ascii (CipherStr (lit "00010101"))
                 (KeyStr (lit "1010000010")).
Proof.
  exact (proj2 (decrypt_text_truncates ascii_digit repr_ascii (KeyStr (lit "1010000010")))
               (lit "000101011") [0; 0; 0; 1; 0; 1; 0; 1; 1] eq_refl).
Defined.

(** *** The helpers of the class *)

Definition bits_to_int (bits : list Z) : Z :=
  fold_left (fun result bit => Z.lor (Z.shiftl result 1) bit) bits 0.

Lemma lor_shiftl_bit result bit :
  is_bit bit = true -> Z.lor (Z.shiftl result 1) bit = 2 * result + bit.
Proof.
  intros Hb. rewrite Z.shiftl_mul_pow2 by lia. change (2 ^ 1) with 2.
  destruct (is_bit_cases bit Hb) as [-> | ->].
  - rewrite Z.lor_0_r. lia.
  - assert (Hland : Z.land (result * 2) 1 = 0).
    { change 1 with (Z.ones 1). rewrite Z.land_ones by lia.
      change (2 ^ 1) with 2. apply Z.mod_mul. lia. }
    rewrite <- (Z.lxor_lor _ _ Hland), <- (Z.add_nocarry_lxor _ _ Hland). lia.
Qed.

Lemma range_down_succ len : range_down (S len) = Z.of_nat len :: range_down len.
Proof.
  unfold range_down. rewrite seq_S, rev_app_distr. reflexivity.
Qed.

Lemma land_1_mod z : Z.land z 1 = z mod 2.
Proof. change 1 with (Z.ones 1). apply Z.land_ones. lia. Qed.

Lemma fold_bits_to_int num : forall len acc,
  fold_left (fun result bit => Z.lor (Z.shiftl result 1) bit)
            (int_to_bits num len) acc
  = acc * 2 ^ Z.of_nat len + num mod 2 ^ Z.of_nat len.
Proof.
  induction len as [|len IH]; intros acc.
  - cbn. rewrite Z.mod_1_r. lia.
  - unfold int_to_bits. rewrite range_down_succ. cbn [map fold_left].
    fold (int_to_bits num len).
    rewrite lor_shiftl_bit by apply is_bit_land_1.
    rewrite IH, land_1_mod, Z.shiftr_div_pow2 by lia.
    rewrite Nat2Z.inj_succ, Z.pow_succ_r by lia.
    rewrite (Z.mul_comm 2 (2 ^ Z.of_nat len)).
    rewrite (Z.rem_mul_r num (2 ^ Z.of_nat len) 2) by lia.
    lia.
Qed.

(** X1: [bits_to_int] reads back what [int_to_bits] writes: the number reduced
    to [length] bits (for a negative number, its two's complement). *)
Theorem bits_to_int_int_to_bits (num : Z) (len : nat) :
  length (int_to_bits num len) = len /\
  forallb is_bit (int_to_bits num len) = true /\
  bits_to_int (int_to_bits num len) = num mod 2 ^ Z.of_nat len.
Proof.
  split; [|split].
  - unfold int_to_bits, range_down.
    rewrite !length_map, length_rev, length_seq. reflexivity.
  - unfold int_to_bits. apply forallb_forall. intros b Hb.
    apply in_map_iff in Hb. destruct Hb as (i & <- & _). apply is_bit_land_1.
  - unfold bits_to_int. rewrite fold_bits_to_int. lia.
Qed.

(** X2: Circular shifts add up: the halves of [K2], shifted by 2 after the
    shift by 1 of [K1], are the halves of the permuted key shifted by 3.  A
    shift by the whole length changes nothing. *)
Theorem left_shift_add (bits : list Z) (a b : nat) :
  (a + b <= length bits)%nat ->
  left_shift (left_shift bits a) b = left_shift bits (a + b) /\
  length (left_shift bits a) = length bits /\
  left_shift bits (length bits) = bits.
Proof.
  intros Hab. unfold left_shift. split; [|split].
  - rewrite skipn_app, firstn_app, length_skipn.
    replace (b - (length bits - a))%nat with 0%nat by lia.
    rewrite skipn_O, firstn_O, app_nil_r, skipn_skipn.
    rewrite (Nat.add_comm b a), <- app_assoc. f_equal.
    rewrite <- (firstn_skipn a bits) at 3.
    rewrite firstn_app, length_firstn, Nat.min_l by lia.
    replace (a + b - a)%nat with b by lia.
    rewrite (firstn_all2 (n := (a + b)%nat) (firstn a bits))
      by (rewrite length_firstn; lia).
    reflexivity.
  - rewrite length_app, length_skipn, length_firstn. lia.
  - rewrite skipn_all, firstn_all. reflexivity.
Qed.

Lemma left_shift_add_witness :
  left_shift (left_shift [1; 0; 0; 0; 0] 1) 2 = left_shift [1; 0; 0; 0; 0] (1 + 2) /\
  length (left_shift [1; 0; 0; 0; 0] 1) = length [1; 0; 0; 0; 0] /\
  left_shift [1; 0; 0; 0; 0] (length [1; 0; 0; 0; 0]) = [1; 0; 0; 0; 0].
Proof.
  apply (left_shift_add [1; 0; 0; 0; 0] 1 2). cbn. lia.
Defined.

(** X3: [IP_INV] is the inverse of [IP], and [IP] of [IP_INV], on every block
    of 8 elements. *)
Theorem initial_permutation_inverse (block : list Z) :
  length block = 8%nat ->
  (exists p, permute block IP = inr p /\ length p = 8%nat /\
             permute p IP_INV = inr block) /\
  (exists q, permute block IP_INV = inr q /\ length q = 8%nat /\
             permute q IP = inr block).
Proof.
  intros Hlen.
  destruct block as [|a [|b [|c [|d [|e [|f [|g [|h [|? ?]]]]]]]]];
    try discriminate Hlen.
  split.
  - exists [b; f; c; a; d; h; e; g]. repeat split.
  - exists [d; a; c; e; g; b; h; f]. repeat split.
Qed.

Lemma initial_permutation_inverse_witness :
  (exists p, permute [1; 2; 3; 4; 5; 6; 7; 8] IP = inr p /\ length p = 8%nat /\
             permute p IP_INV = inr [1; 2; 3; 4; 5; 6; 7; 8]) /\
  (exists q, permute [1; 2; 3; 4; 5; 6; 7; 8] IP_INV = inr q /\ length q = 8%nat /\
             permute q IP = inr [1; 2; 3; 4; 5; 6; 7; 8]).
Proof.
  exact (initial_permutation_inverse [1; 2; 3; 4; 5; 6; 7; 8] eq_refl).
Defined.

(** *** The key schedule in closed form, and the keys it rejects *)

(** X4: The subkeys are selections of the key: [K1] takes its bits 1, 7, 9, 4,
    8, 3, 10, 6 and [K2] its bits 8, 3, 6, 5, 10, 2, 9, 1.  A list key is
    checked for its length only: any 10 elements are accepted. *)
Theorem generate_keys_selection (key : list Z) :
  length key = 10%nat ->
  generate_keys (KeyList key)
  = inr (map (fun i => nth i key 0) [0; 6; 8; 3; 7; 2; 9; 5]%nat,
         map (fun i => nth i key 0) [7; 2; 5; 4; 9; 1; 8; 0]%nat).
Proof.
  intros Hlen.
  destruct key as [|a1 [|a2 [|a3 [|a4 [|a5 [|a6 [|a7 [|a8 [|a9 [|a10 [|? ?]]]]]]]]]]];
    try discriminate Hlen.
  unfold generate_keys. cbn [length Nat.eqb negb bind ret].
  reflexivity.
Qed.

Lemma generate_keys_selection_witness :
  generate_keys (KeyList [1; 0; 1; 0; 0; 0; 0; 0; 1; 0])
  = inr (map (fun i => nth i [1; 0; 1; 0; 0; 0; 0; 0; 1; 0] 0)
             [0; 6; 8; 3; 7; 2; 9; 5]%nat,
         map (fun i => nth i [1; 0; 1; 0; 0; 0; 0; 0; 1; 0] 0)
             [7; 2; 5; 4; 9; 1; 8; 0]%nat).
Proof.
  exact (generate_keys_selection [1; 0; 1; 0; 0; 0; 0; 0; 1; 0] eq_refl).
Defined.

(** X5: A string key is rejected exactly when it is not 10 binary digits, a
    list key exactly when it has not 10 elements, anything else always; and
    every function that takes a key raises that error before any work on
    the text. *)
Theorem generate_keys_rejects (text : pystr) (bits : list Z) :
  (forall s, valid_key s = false <->
     generate_keys (KeyStr s)
     = inl (Raise ValueError "Key must be a 10-bit binary string")) /\
  (forall l, length l <> 10%nat <->
     generate_keys (KeyList l) = inl (Raise ValueError "Key must be 10 bits long")) /\
  generate_keys KeyOther = inl (Raise ValueError "Key must be a string or list") /\
  (forall key e, generate_keys key = inl e ->
     encrypt text key = inl e /\ encrypt_text text key = inl e /\
     decrypt bits key = inl e).
Proof.
  split; [|split; [|split]].
  - intros s. split.
    + intros Hs. unfold generate_keys. unfold valid_key in Hs.
      rewrite <- negb_andb, Hs. reflexivity.
    + intros Herr. destruct (valid_key s) eqn:Hs; [|reflexivity].
      destruct (generate_keys_valid s Hs) as (k1 & k2 & Hk & _).
      rewrite Hk in Herr. discriminate Herr.
  - intros l. split.
    + intros Hl. unfold generate_keys.
      destruct (Nat.eqb_spec (length l) 10); [contradiction|]. reflexivity.
    + intros Herr Hl.
      destruct l as [|a1 [|a2 [|a3 [|a4 [|a5 [|a6 [|a7 [|a8 [|a9 [|a10 [|? ?]]]]]]]]]]];
        try discriminate Hl.
      discriminate Herr.
  - reflexivity.
  - intros key e He. unfold encrypt_text, encrypt, decrypt. rewrite He.
    repeat split.
Qed.

(** *** The cipher on blocks and on texts *)

(** X6: With a valid key the block transform is a bijection of the 8-bit
    blocks: decrypting undoes encrypting and encrypting undoes
    decrypting. *)
Theorem block_cipher_bijection (key : pystr) (block : list Z) :
  valid_key key = true -> is_bits 8 block = true ->
  exists k1 k2,
    generate_keys (KeyStr key) = inr (k1, k2) /\
    (exists c, encrypt_block block k1 k2 = inr c /\ is_bits 8 c = true /\
               decrypt_block c k1 k2 = inr block) /\
    (exists p, decrypt_block block k1 k2 = inr p /\ is_bits 8 p = true /\
               encrypt_block p k1 k2 = inr block).
Proof.
  intros Hkey Hb.
  destruct (generate_keys_valid key Hkey) as (k1 & k2 & Hgen & Hk1 & Hk2).
  exists k1, k2. split; [exact Hgen|]. split.
  - apply decrypt_encrypt_block; assumption.
  - destruct (decrypt_encrypt_block block k2 k1 Hb Hk2 Hk1) as (p & Hp & Hpb & Hback).
    exists p. unfold decrypt_block in *. auto.
Qed.

Lemma block_cipher_bijection_witness :
  exists k1 k2,
    generate_keys (KeyStr (lit "1010000010")) = inr (k1, k2) /\
    (exists c, encrypt_block [0; 1; 0; 0; 0; 0; 0; 1] k1 k2 = inr c /\
               is_bits 8 c = true /\
               decrypt_block c k1 k2 = inr [0; 1; 0; 0; 0; 0; 0; 1]) /\
    (exists p, decrypt_block [0; 1; 0; 0; 0; 0; 0; 1] k1 k2 = inr p /\
               is_bits 8 p = true /\
               encrypt_block p k1 k2 = inr [0; 1; 0; 0; 0; 0; 0; 1]).
Proof.
  exact (block_cipher_bijection (lit "1010000010") [0; 1; 0; 0; 0; 0; 0; 1]
           eq_refl eq_refl).
Defined.

Lemma mapM_app {A B} (f : A -> result B) l1 l2 bs1 bs2 :
  mapM f l1 = inr bs1 -> mapM f l2 = inr bs2 ->
  mapM f (l1 ++ l2) = inr (bs1 ++ bs2).
Proof.
  revert bs1. induction l1 as [|a l1 IH]; intros bs1 H1 H2.
  - cbn in H1. injection H1 as <-. exact H2.
  - cbn [mapM app] in H1 |- *. destruct (f a) as [e|b]; [discriminate|].
    cbn [bind] in H1 |- *.
    destruct (mapM f l1) as [e|bs'] eqn:Hl; [discriminate|].
    cbn [bind ret] in H1. injection H1 as <-.
    rewrite (IH bs' eq_refl H2). reflexivity.
Qed.

Lemma concat_blocks_length (cs : list (list Z)) :
  Forall (fun c => is_bits 8 c = true) cs ->
  length (concat cs) = (8 * length cs)%nat.
Proof.
  intros H. induction H as [|c cs Hc _ IH]; [reflexivity|].
  cbn [concat length]. rewrite length_app, IH, (is_bits_length _ _ Hc). lia.
Qed.

Lemma digits_of_bits bits :
  forallb is_bit bits = true ->
  flat_map (fun bit => lit (str_of_int bit)) bits = map (fun bit => bit + 48) bits.
Proof.
  induction bits as [|b bits IH]; [reflexivity|].
  cbn [forallb flat_map map]. intros H. apply andb_true_iff in H.
  destruct H as [Hb H]. rewrite (IH H).
  destruct (is_bit_cases b Hb) as [-> | ->]; reflexivity.
Qed.

(** X7: The ciphertext of a text of [n] characters is a string of [8 * n]
    binary digits, whatever the characters are. *)
Theorem encrypt_text_size (key : pystr) (text : pystr) :
  valid_key key = true ->
  exists e, encrypt_text text (KeyStr key) = inr e /\
            length e = (8 * length text)%nat /\
            forallb is_binary_digit e = true.
Proof.
  intros Hkey.
  destruct (encrypt_valid key text Hkey) as (k1 & k2 & cs & _ & Henc & Hcs & Hdec).
  unfold encrypt_text. rewrite Henc. cbn [bind ret]. eexists.
  split; [reflexivity|].
  pose proof (Forall_is_bits_concat 8 cs Hcs) as Hbits.
  rewrite (digits_of_bits _ Hbits). split.
  - rewrite length_map, (concat_blocks_length cs Hcs).
    apply mapM_length in Hdec. rewrite length_map in Hdec. lia.
  - apply forallb_forall. intros c Hc. apply in_map_iff in Hc.
    destruct Hc as (b & <- & Hb). rewrite forallb_forall in Hbits.
    specialize (Hbits b Hb). unfold is_binary_digit. unfold is_bit in Hbits. lia.
Qed.

Lemma encrypt_text_size_witness :
  exists e, encrypt_text (lit "Hello") (KeyStr (lit "1010000010")) = inr e /\
            length e = (8 * length (lit "Hello"))%nat /\
            forallb is_binary_digit e = true.
Proof.
  exact (encrypt_text_size (lit "1010000010") (lit "Hello") eq_refl).
Defined.

(** X8: Every character is enciphered on its own: the ciphertext of two texts
    put together is their ciphertexts put together (no chaining between
    blocks). *)
Theorem encrypt_text_app (key : pystr) (text1 text2 : pystr) :
  valid_key key = true ->
  exists e1 e2,
    encrypt_text text1 (KeyStr key) = inr e1 /\
    encrypt_text text2 (KeyStr key) = inr e2 /\
    encrypt_text (text1 ++ text2) (KeyStr key) = inr (e1 ++ e2).
Proof.
  intros Hkey.
  destruct (generate_keys_valid key Hkey) as (k1 & k2 & Hgen & Hk1 & Hk2).
  assert (Hblocks : forall T, exists cs,
             mapM (fun b => encrypt_block b k1 k2) (map char_bits T) = inr cs /\
             encrypt_text T (KeyStr key)
             = inr (flat_map (fun bit => lit (str_of_int bit)) (concat cs))).
  { intros T.
    destruct (decrypt_encrypt_blocks k1 k2 (map char_bits T) Hk1 Hk2)
      as (cs & Henc & _ & _).
    { apply Forall_forall. intros b Hb. apply in_map_iff in Hb.
      destruct Hb as (c & <- & _). apply char_bits_is_bits. }
    exists cs. split; [exact Henc|].
    unfold encrypt_text, encrypt. rewrite Hgen. cbn [bind].
    rewrite pad_loop_string_to_bits, string_to_bits_concat, chunks_concat
      by (try lia; apply Forall_char_bits_length).
    rewrite Henc. reflexivity. }
  destruct (Hblocks text1) as (cs1 & H1 & E1).
  destruct (Hblocks text2) as (cs2 & H2 & E2).
  destruct (Hblocks (text1 ++ text2)) as (cs & H12 & E12).
  rewrite map_app, (mapM_app _ _ _ _ _ H1 H2) in H12. injection H12 as <-.
  do 2 eexists. split; [exact E1|]. split; [exact E2|].
  rewrite E12, concat_app, flat_map_app. reflexivity.
Qed.

Lemma encrypt_text_app_witness :
  exists e1 e2,
    encrypt_text (lit "He") (KeyStr (lit "1010000010")) = inr e1 /\
    encrypt_text (lit "llo") (KeyStr (lit "1010000010")) = inr e2 /\
    encrypt_text (lit "He" ++ lit "llo") (KeyStr (lit "1010000010"))
    = inr (e1 ++ e2).
Proof.
  exact (encrypt_text_app (lit "1010000010") (lit "He") (lit "llo") eq_refl).
Defined.

Lemma char_bits_mod c : char_bits (c mod 256) = char_bits c.
Proof.
  unfold char_bits. apply map_ext_in. intros i Hi.
  assert (Hrange : 0 <= i < 8).
  { unfold range_down in Hi. apply in_map_iff in Hi.
    destruct Hi as (n & <- & Hn). apply in_rev, in_seq in Hn. lia. }
  rewrite !land_1_mod, <- !Z.bit0_mod, !Z.shiftr_spec by lia.
  change 256 with (2 ^ 8). rewrite Z.mod_pow2_bits_low by lia. reflexivity.
Qed.

Lemma bits_to_string_mod T :
  bits_to_string (string_to_bits T) = inr (map (fun c => c mod 256) T).
Proof.
  unfold bits_to_string.
  rewrite string_to_bits_concat, full_chunks_concat
    by (try lia; apply Forall_char_bits_length).
  induction T as [|c T IH]; [reflexivity|].
  cbn [map mapM]. rewrite <- (char_bits_mod c).
  pose proof (Z.mod_pos_bound c 256 ltac:(lia)) as Hc.
  rewrite byte_value_char_bits by exact Hc.
  unfold chr at 1.
  replace ((0 <=? c mod 256) && (c mod 256 <? 1114112)) with true by lia.
  cbn [bind ret]. rewrite IH. reflexivity.
Qed.

(** X9: What comes back from [decrypt_text] after [encrypt_text], for every
    text: each character reduced modulo 256. *)
Theorem decrypt_text_encrypt_text_mod int_digit repr_char (key text : pystr) :
  int_digit 48 = Some 0 -> int_digit 49 = Some 1 ->
  valid_key key = true ->
  exists e, encrypt_text text (KeyStr key) = inr e /\
            decrypt_text int_digit repr_char (CipherStr e) (KeyStr key)
            = inr (map (fun c => c mod 256) text).
Proof.
  intros H0 H1 Hkey.
  destruct (encrypt_valid key text Hkey)
    as (k1 & k2 & cs & Hgen & Henc & Hcs & Hdec).
  unfold encrypt_text. rewrite Henc. cbn [bind ret].
  eexists. split; [reflexivity|].
  unfold decrypt_text.
  rewrite (parse_digits int_digit repr_char _ H0 H1 (Forall_is_bits_concat 8 cs Hcs)).
  cbn [bind]. unfold decrypt. rewrite Hgen. cbn [bind].
  rewrite full_chunks_concat;
    [|lia|eapply Forall_impl; [|exact Hcs]; intros c; apply is_bits_length].
  rewrite Hdec. cbn [bind ret]. rewrite <- string_to_bits_concat.
  apply bits_to_string_mod.
Qed.

Lemma decrypt_text_encrypt_text_mod_witness :
  exists e, encrypt_text [72; 257; 8364] (KeyStr (lit "1010000010")) = inr e /\
            decrypt_text ascii_digit repr_ascii (CipherStr e) (KeyStr (lit "1010000010"))
            = inr (map (fun c => c mod 256) [72; 257; 8364]).
Proof.
  exact (decrypt_text_encrypt_text_mod ascii_digit repr_ascii (lit "1010000010")
           [72; 257; 8364] eq_refl eq_refl eq_refl).
Defined.

(** *** From ciphertext to text and back *)

Lemma aligned_blocks {A} (l : list A) :
  (length l mod 8 = 0)%nat ->
  exists blocks, l = concat blocks /\ Forall (fun b => length b = 8%nat) blocks.
Proof.
  revert l.
  apply (block_ind 8 (fun l : list A =>
           (length l mod 8 = 0)%nat ->
           exists blocks, l = concat blocks
                          /\ Forall (fun b => length b = 8%nat) blocks));
    [lia| |].
  - intros l Hl Hmod. rewrite Nat.mod_small in Hmod by exact Hl.
    apply length_zero_iff_nil in Hmod. subst l. exists []. split; [reflexivity|].
    constructor.
  - intros b l Hb IH Hmod. rewrite length_app, Hb in Hmod.
    replace (8 + length l)%nat with (length l + 1 * 8)%nat in Hmod by lia.
    rewrite Nat.Div0.mod_add in Hmod.
    destruct (IH Hmod) as (blocks & -> & Hblocks).
    exists (b :: blocks). split; [reflexivity|]. constructor; assumption.
Qed.

Lemma byte_value_block b :
  is_bits 8 b = true -> 0 <= byte_value b < 256 /\ char_bits (byte_value b) = b.
Proof.
  intros Hb.
  assert (Hall : forallb (fun b =>
            (0 <=? byte_value b) && (byte_value b <? 256)
            && is_bits 8 (char_bits (byte_value b))
            && forallb (fun p => fst p =? snd p)
                       (combine (char_bits (byte_value b)) b))
            (all_bits 8) = true) by (vm_compute; reflexivity).
  rewrite forallb_forall in Hall.
  specialize (Hall b (all_bits_complete _ _ Hb)).
  apply andb_true_iff in Hall. destruct Hall as [Hall Heq].
  apply andb_true_iff in Hall. destruct Hall as [Hrange Hbits].
  split; [lia|].
  apply is_bits_length in Hbits. apply is_bits_length in Hb.
  revert Hbits Hb Heq. generalize (char_bits (byte_value b)). clear.
  intros l. revert b. generalize 8%nat.
  induction l as [|x l IH]; intros n [|y b] Hl Hb Heq; cbn [length] in *;
    try lia; [reflexivity|].
  cbn [combine forallb fst snd] in Heq. apply andb_true_iff in Heq.
  destruct Heq as [Hxy Heq]. apply Z.eqb_eq in Hxy. subst y. f_equal.
  apply (IH (pred n)); [lia|lia|exact Heq].
Qed.

Lemma parse_binary_digits int_digit repr_char c :
  int_digit 48 = Some 0 -> int_digit 49 = Some 1 ->
  forallb is_binary_digit c = true ->
  mapM (int_of_char int_digit repr_char) c = inr (map (fun d => d - 48) c) /\
  forallb is_bit (map (fun d => d - 48) c) = true /\
  map (fun bit => bit + 48) (map (fun d => d - 48) c) = c.
Proof.
  intros H0 H1. induction c as [|d c IH]; intros Hc; [repeat split|].
  cbn [forallb] in Hc. apply andb_true_iff in Hc. destruct Hc as [Hd Hc].
  destruct (IH Hc) as (Hparse & Hbits & Hback).
  cbn [mapM map forallb]. rewrite Hparse, Hbits, Hback.
  unfold is_binary_digit in Hd.
  assert (Hd' : d = 48 \/ d = 49) by lia.
  destruct Hd' as [-> | ->]; unfold int_of_char; rewrite ?H0, ?H1;
    repeat split.
Qed.

Lemma blocks_are_bits (blocks : list (list Z)) :
  Forall (fun b => length b = 8%nat) blocks ->
  forallb is_bit (concat blocks) = true ->
  Forall (fun b => is_bits 8 b = true) blocks.
Proof.
  intros Hlen. induction Hlen as [|b blocks Hb _ IH]; intros Hbits; constructor.
  - cbn [concat] in Hbits. rewrite forallb_app in Hbits.
    apply andb_true_iff in Hbits. unfold is_bits.
    rewrite Hb, Nat.eqb_refl. cbn [andb]. apply Hbits.
  - apply IH. cbn [concat] in Hbits. rewrite forallb_app in Hbits.
    apply andb_true_iff in Hbits. apply Hbits.
Qed.

Lemma bits_to_string_blocks (ps : list (list Z)) :
  Forall (fun p => is_bits 8 p = true) ps ->
  bits_to_string (concat ps) = inr (map byte_value ps) /\
  latin1 (map byte_value ps) = true /\
  string_to_bits (map byte_value ps) = concat ps.
Proof.
  intros Hps. unfold bits_to_string.
  rewrite full_chunks_concat;
    [|lia|eapply Forall_impl; [|exact Hps]; intros c; apply is_bits_length].
  induction Hps as [|p ps Hp _ (IH1 & IH2 & IH3)]; [repeat split|].
  destruct (byte_value_block p Hp) as [Hrange Hback].
  cbn [map mapM]. unfold chr at 1.
  replace ((0 <=? byte_value p) && (byte_value p <? 1114112)) with true by lia.
  cbn [bind ret]. rewrite IH1. split; [reflexivity|]. split.
  - unfold latin1 in *. cbn [forallb]. rewrite IH2.
    replace ((0 <=? byte_value p) && (byte_value p <? 256)) with true by lia.
    reflexivity.
  - cbn [string_to_bits flat_map concat]. fold (string_to_bits (map byte_value ps)).
    rewrite IH3, Hback. reflexivity.
Qed.

(** X10: A string of binary digits whose length is a multiple of 8 is the
    ciphertext of the text it decrypts to: [decrypt_text] gives one
    character below 256 for every 8 digits, and [encrypt_text] of that text
    is the string again. *)
Theorem encrypt_text_decrypt_text int_digit repr_char (key c : pystr) :
  int_digit 48 = Some 0 -> int_digit 49 = Some 1 ->
  valid_key key = true ->
  forallb is_binary_digit c = true ->
  (length c mod 8 = 0)%nat ->
  exists t, decrypt_text int_digit repr_char (CipherStr c) (KeyStr key) = inr t /\
            latin1 t = true /\
            (8 * length t = length c)%nat /\
            encrypt_text t (KeyStr key) = inr c.
Proof.
  intros H0 H1 Hkey Hc Hlen.
  destruct (generate_keys_valid key Hkey) as (k1 & k2 & Hgen & Hk1 & Hk2).
  destruct (parse_binary_digits int_digit repr_char c H0 H1 Hc)
    as (Hparse & Hbits & Hback).
  set (bits := map (fun d => d - 48) c) in *.
  assert (Hblen : (length bits mod 8 = 0)%nat)
    by (unfold bits; rewrite length_map; exact Hlen).
  destruct (aligned_blocks bits Hblen) as (blocks & Hbl & Hblocks).
  assert (Hbb : Forall (fun b => is_bits 8 b = true) blocks)
    by (apply blocks_are_bits; [exact Hblocks | rewrite <- Hbl; exact Hbits]).
  destruct (decrypt_encrypt_blocks k2 k1 blocks Hk2 Hk1 Hbb)
    as (ps & Hdec & Hps & Henc).
  destruct (bits_to_string_blocks ps Hps) as (Hstr & Hlatin & Hbitsback).
  exists (map byte_value ps). split; [|split; [exact Hlatin|split]].
  - unfold decrypt_text. rewrite Hparse. cbn [bind].
    unfold decrypt. rewrite Hgen. cbn [bind].
    rewrite Hbl, full_chunks_concat by (try lia; exact Hblocks).
    change (mapM (fun block => decrypt_block block k1 k2) blocks)
      with (mapM (fun b => encrypt_block b k2 k1) blocks).
    rewrite Hdec. cbn [bind ret]. exact Hstr.
  - rewrite length_map.
    apply mapM_length in Hdec.
    pose proof (concat_blocks_length blocks Hbb) as Hcl.
    rewrite <- Hbl in Hcl. unfold bits in Hcl. rewrite length_map in Hcl. lia.
  - unfold encrypt_text, encrypt. rewrite Hgen. cbn [bind].
    rewrite pad_loop_string_to_bits, Hbitsback.
    rewrite chunks_concat;
      [|lia|eapply Forall_impl; [|exact Hps]; intros p; apply is_bits_length].
    change (mapM (fun block => encrypt_block block k1 k2) ps)
      with (mapM (fun c => decrypt_block c k2 k1) ps).
    rewrite Henc. cbn [bind ret]. rewrite <- Hbl, (digits_of_bits _ Hbits).
    rewrite Hback. reflexivity.
Qed.

Lemma encrypt_text_decrypt_text_witness :
  exists t, decrypt_text ascii_digit repr_ascii (CipherStr (lit "0001010111100000"))
                         (KeyStr (lit "1010000010")) = inr t /\
            latin1 t = true /\
            (8 * length t = length (lit "0001010111100000"))%nat /\
            encrypt_text t (KeyStr (lit "1010000010"))
            = inr (lit "0001010111100000").
Proof.
  exact (encrypt_text_decrypt_text ascii_digit repr_ascii (lit "1010000010")
           (lit "0001010111100000") eq_refl eq_refl eq_refl eq_refl eq_refl).
Defined.

(** Both directions on one ciphertext, as the pipeline uses them. *)
Lemma encrypt_text_round int_digit repr_char (key T : pystr) :
  int_digit 48 = Some 0 -> int_digit 49 = Some 1 ->
  valid_key key = true ->
  exists e, encrypt_text T (KeyStr key) = inr e /\
            length e = (8 * length T)%nat /\
            forallb is_binary_digit e = true /\
            decrypt_text int_digit repr_char (CipherStr e) (KeyStr key)
            = inr (map (fun c => c mod 256) T).
Proof.
  intros H0 H1 Hkey.
  destruct (encrypt_valid key T Hkey)
    as (k1 & k2 & cs & Hgen & Henc & Hcs & Hdec).
  unfold encrypt_text. rewrite Henc. cbn [bind ret].
  eexists. split; [reflexivity|].
  pose proof (Forall_is_bits_concat 8 cs Hcs) as Hbits.
  split; [|split].
  - rewrite (digits_of_bits _ Hbits).
    rewrite length_map, (concat_blocks_length cs Hcs).
    apply mapM_length in Hdec. rewrite length_map in Hdec. lia.
  - rewrite (digits_of_bits _ Hbits).
    apply forallb_forall. intros c Hc. apply in_map_iff in Hc.
    destruct Hc as (b & <- & Hb). rewrite forallb_forall in Hbits.
    specialize (Hbits b Hb). unfold is_binary_digit. unfold is_bit in Hbits. lia.
  - unfold decrypt_text.
    rewrite (parse_digits int_digit repr_char _ H0 H1 Hbits).
    cbn [bind]. unfold decrypt. rewrite Hgen. cbn [bind].
    rewrite full_chunks_concat;
      [|lia|eapply Forall_impl; [|exact Hcs]; intros c; apply is_bits_length].
    rewrite Hdec. cbn [bind ret]. rewrite <- string_to_bits_concat.
    apply bits_to_string_mod.
Qed.

(** The empty text has the empty ciphertext, with any key the schedule
    accepts. *)
Lemma encrypt_text_nil key ks :
  generate_keys key = inr ks -> encrypt_text [] key = inr [].
Proof.
  intros Hk. unfold encrypt_text, encrypt. rewrite Hk. destruct ks as [k1 k2].
  reflexivity.
Qed.

End SDES.

(** ** Hill cipher ([hill_cipher.py]) *)

Module HillCipher.

Definition alphabet_size : Z := 26.

(** A 2x2 [int64] array (entries within the range of [int64]). *)
Record matrix := Mat { m00 : Z; m01 : Z; m10 : Z; m11 : Z }.

(** The exact determinant [a*d - b*c]. *)
Definition det (m : matrix) : Z := m00 m * m11 m - m01 m * m10 m.

(** [extended_gcd(a, b)]; the recursion is on [b % a], whose absolute value
    decreases, so [fuel] above [|a|] is enough. *)
Fixpoint extended_gcd (fuel : nat) (a b : Z) : option (Z * Z * Z) :=
  match fuel with
  | O => None
  | S fuel' =>
      if a =? 0 then Some (b, 0, 1)
      else match extended_gcd fuel' (b mod a) a with
           | None => None
           | Some (gcd_val, x1, y1) =>
               let x := y1 - (b / a) * x1 in
               let y := x1 in
               Some (gcd_val, x, y)
           end
  end.

Definition mod_inverse (a m : Z) : result Z :=
  if negb (Z.gcd a m =? 1)
  then raise ValueError ("Modular inverse of " ++ str_of_int a ++ " mod "
                         ++ str_of_int m ++ " does not exist")
  else match extended_gcd (S (Z.to_nat (Z.abs (a mod m)))) (a mod m) m with
       | Some (_, x, _) => ret ((x mod m + m) mod m)
       | None => raise RecursionError "maximum recursion depth exceeded"
       end.

(** [np.dot(key_matrix, vector)] on [int64]. *)
Definition dot (k : matrix) (v : Z * Z) : Z * Z :=
  (wrap64 (wrap64 (m00 k * fst v) + wrap64 (m01 k * snd v)),
   wrap64 (wrap64 (m10 k * fst v) + wrap64 (m11 k * snd v))).

Definition num_to_char (num : Z) : result Z :=
  chr (num mod alphabet_size + 65).

Section Runtime.

(** What the model takes from the Python run time and from NumPy:
    [isalpha c] is [c.isalpha()] and [upper c] is [c.upper()] for a
    one-character string [c] (Unicode-aware; [upper] can give more than one
    character); [det_round m] is [int(np.round(np.linalg.det(m)))], the
    determinant as NumPy computes it in floating point, rounded. *)
Variable isalpha : Z -> bool.
Variable upper : Z -> pystr.
Variable det_round : matrix -> Z.

Definition char_to_num (char : Z) : result Z :=
  n <- ord (upper char) ;; ret (n - 65).

(** [''.join([char.upper() for char in text if char.isalpha()])]. *)
Definition cleaned_text (text : pystr) : pystr :=
  flat_map (fun char => if isalpha char then upper char else []) text.

Definition prepare_text (text : pystr) : pystr :=
  let cleaned := cleaned_text text in
  if (length cleaned mod 2 =? 1)%nat then cleaned ++ lit "X" else cleaned.

Definition matrix_mod_inverse (m : matrix) (modulus : Z) : result matrix :=
  let det := det_round m mod modulus in
  if negb (Z.gcd det modulus =? 1)
  then raise ValueError "Matrix is not invertible in the given modulus"
  else
    det_inv <- mod_inverse det modulus ;;
    let adj := Mat (m11 m) (wrap64 (- m01 m)) (wrap64 (- m10 m)) (m00 m) in
    ret (Mat (wrap64 (det_inv * m00 adj) mod modulus)
             (wrap64 (det_inv * m01 adj) mod modulus)
             (wrap64 (det_inv * m10 adj) mod modulus)
             (wrap64 (det_inv * m11 adj) mod modulus)).

(** The [try] of [validate_key_matrix] turns any exception into [False];
    the determinant of a 2x2 integer array raises none. *)
Definition validate_key_matrix (key_matrix : matrix) : bool :=
  let det := det_round key_matrix mod alphabet_size in
  if negb (Z.gcd det alphabet_size =? 1) then false else true.

(** The body of the block loop, the same in [encrypt] and [decrypt] but for
    the matrix applied. *)
Definition transform_block (m : matrix) (block : pystr) : result pystr :=
  let block := if (length block =? 1)%nat then block ++ lit "X" else block in
  c0 <- str_getitem block 0 ;; n0 <- char_to_num c0 ;;
  c1 <- str_getitem block 1 ;; n1 <- char_to_num c1 ;;
  let v := dot m (n0, n1) in
  let v := (fst v mod alphabet_size, snd v mod alphabet_size) in
  r0 <- num_to_char (fst v) ;;
  r1 <- num_to_char (snd v) ;;
  ret [r0; r1].

Definition encrypt (plaintext : pystr) (key_matrix : matrix) : result pystr :=
  if negb (validate_key_matrix key_matrix)
  then raise ValueError "Key matrix is not valid (determinant not coprime with 26)"
  else
    let cleaned_text := prepare_text plaintext in
    if (length cleaned_text =? 0)%nat then ret []
    else
      blocks <- mapM (transform_block key_matrix) (chunks 2 cleaned_text) ;;
      ret (concat blocks).

Definition decrypt (ciphertext : pystr) (key_matrix : matrix) : result pystr :=
  if negb (validate_key_matrix key_matrix)
  then raise ValueError "Key matrix is not valid (determinant not coprime with 26)"
  else
    inv_key_matrix <- matrix_mod_inverse key_matrix alphabet_size ;;
    let cleaned_text := prepare_text ciphertext in
    if (length cleaned_text =? 0)%nat then ret []
    else
      blocks <- mapM (transform_block inv_key_matrix) (chunks 2 cleaned_text) ;;
      ret (concat blocks).

End Runtime.

(** [isalpha] and [upper] on U+0000..U+00FF, as Python has them there. *)
Definition isalpha_latin1 (c : Z) : bool :=
  ((65 <=? c) && (c <=? 90)) || ((97 <=? c) && (c <=? 122))
  || (c =? 170) || (c =? 181) || (c =? 186)
  || ((192 <=? c) && (c <=? 214)) || ((216 <=? c) && (c <=? 246))
  || ((248 <=? c) && (c <=? 255)).

Definition upper_latin1 (c : Z) : pystr :=
  if ((97 <=? c) && (c <=? 122)) || ((224 <=? c) && (c <=? 246))
     || ((248 <=? c) && (c <=? 254))
  then [c - 32]
  else if c =? 181 then [924]
  else if c =? 223 then [83; 83]
  else if c =? 255 then [376]
  else [c].

Definition key_3257 : matrix := Mat 3 2 5 7.

Example scenario_A :
  encrypt isalpha_latin1 upper_latin1 det (lit "HELLO WORLD") key_3257
  = inr (lit "DLDCIQYHNY") /\
  decrypt isalpha_latin1 upper_latin1 det (lit "DLDCIQYHNY") key_3257
  = inr (lit "HELLOWORLD").
Proof. split; reflexivity. Qed.


(** *** The modular inverse *)

Lemma extended_gcd_total fuel a b :
  (Z.to_nat (Z.abs a) < fuel)%nat -> exists r, extended_gcd fuel a b = Some r.
Proof.
  revert a b. induction fuel as [|fuel IH]; intros a b Hfuel; [lia|].
  cbn [extended_gcd]. destruct (Z.eqb_spec a 0) as [_|Ha]; [eauto|].
  destruct (IH (b mod a) a) as ([[g x1] y1] & ->); [|eauto].
  assert (Z.abs (b mod a) < Z.abs a); [|lia].
  destruct (Z.lt_ge_cases 0 a) as [Hpos|Hneg].
  - pose proof (Z.mod_pos_bound b a Hpos). lia.
  - pose proof (Z.mod_neg_bound b a ltac:(lia)). lia.
Qed.

(** [mod_inverse] never runs out of fuel: it raises only the [ValueError]
    of its own check. *)
Lemma mod_inverse_total a m :
  Z.gcd a m = 1 -> exists x, mod_inverse a m = inr x.
Proof.
  intros Hg. unfold mod_inverse. rewrite Hg. cbn [Z.eqb Pos.eqb negb].
  destruct (extended_gcd_total (S (Z.to_nat (Z.abs (a mod m)))) (a mod m) m)
    as ([[g x] y] & ->); [lia|eauto].
Qed.

Lemma mod_inverse_26 d :
  0 <= d < 26 -> Z.gcd d 26 = 1 ->
  exists di, mod_inverse d 26 = inr di /\ 0 <= di < 26 /\ (d * di) mod 26 = 1.
Proof.
  intros Hd Hg.
  assert (Hall : forallb (fun n =>
            let d := Z.of_nat n in
            implb (Z.gcd d 26 =? 1)
                  match mod_inverse d 26 with
                  | inr di => (0 <=? di) && (di <? 26) && ((d * di) mod 26 =? 1)
                  | inl _ => false
                  end) (seq 0 26) = true) by (vm_compute; reflexivity).
  rewrite forallb_forall in Hall.
  specialize (Hall (Z.to_nat d)). cbn zeta in Hall.
  rewrite Z2Nat.id, Hg in Hall by lia.
  specialize (Hall ltac:(apply in_seq; lia)). cbn [Z.eqb Pos.eqb implb] in Hall.
  destruct (mod_inverse d 26) as [e|di]; [discriminate|].
  exists di. split; [reflexivity|]. lia.
Qed.

(** *** Round trip *)

Definition in_alphabet (n : Z) : bool := (0 <=? n) && (n <? 26).

(** The key data model: entries in [0, 26). *)
Definition key_in_range (k : matrix) : bool :=
  in_alphabet (m00 k) && in_alphabet (m01 k) && in_alphabet (m10 k)
  && in_alphabet (m11 k).

Definition is_upper (c : Z) : bool := (65 <=? c) && (c <=? 90).
Definition is_lower (c : Z) : bool := (97 <=? c) && (c <=? 122).

(** What the block loop computes on a text of capital letters of even
    length. *)
Fixpoint apply_pairs (k : matrix) (l : pystr) : pystr :=
  match l with
  | c0 :: c1 :: l' =>
      ((m00 k * (c0 - 65) + m01 k * (c1 - 65)) mod 26 + 65)
        :: ((m10 k * (c0 - 65) + m11 k * (c1 - 65)) mod 26 + 65)
        :: apply_pairs k l'
  | _ => []
  end.

Lemma even_length_ind {A} (P : list A -> Prop) :
  P [] -> (forall a b l, P l -> P (a :: b :: l)) ->
  forall l, Nat.even (length l) = true -> P l.
Proof.
  intros Hnil Hcons l.
  enough (H : (Nat.even (length l) = true -> P l) /\
              (forall a, Nat.even (length (a :: l)) = true -> P (a :: l)))
    by apply H.
  induction l as [|b l [IH0 IH1]]; (split; [intros H|intros a H]).
  - exact Hnil.
  - discriminate H.
  - apply IH1, H.
  - apply Hcons, IH0, H.
Qed.

Lemma dot_small k x y :
  key_in_range k = true -> in_alphabet x = true -> in_alphabet y = true ->
  dot k (x, y) = (m00 k * x + m01 k * y, m10 k * x + m11 k * y).
Proof.
  unfold key_in_range, in_alphabet, dot. cbn [fst snd]. intros Hk Hx Hy.
  rewrite (wrap64_small (m00 k * x)) by nia.
  rewrite (wrap64_small (m01 k * y)) by nia.
  rewrite (wrap64_small (m10 k * x)) by nia.
  rewrite (wrap64_small (m11 k * y)) by nia.
  rewrite !wrap64_small by nia. reflexivity.
Qed.

Lemma num_to_char_residue n : num_to_char (n mod 26) = inr (n mod 26 + 65).
Proof.
  unfold num_to_char, alphabet_size, chr. rewrite Z.mod_mod by lia.
  pose proof (Z.mod_pos_bound n 26 ltac:(lia)).
  replace ((0 <=? n mod 26 + 65) && (n mod 26 + 65 <? 1114112)) with true by lia.
  reflexivity.
Qed.

(** The algebra of the Hill cipher: the adjugate scaled by the inverse of
    the determinant undoes the key, modulo 26. *)
Lemma hill_inverse a b c d di x y :
  ((a * d - b * c) mod 26 * di) mod 26 = 1 ->
  0 <= x < 26 -> 0 <= y < 26 ->
  ((di * d) mod 26 * ((a * x + b * y) mod 26)
   + (di * - b) mod 26 * ((c * x + d * y) mod 26)) mod 26 = x /\
  ((di * - c) mod 26 * ((a * x + b * y) mod 26)
   + (di * a) mod 26 * ((c * x + d * y) mod 26)) mod 26 = y.
Proof.
  intros Hinv Hx Hy.
  rewrite Z.mul_mod_idemp_l in Hinv by lia.
  assert (Hstep : forall u v p q,
             (u mod 26 * (p mod 26) + v mod 26 * (q mod 26)) mod 26
             = (u * p + v * q) mod 26).
  { intros u v p q.
    rewrite Z.add_mod, <- !Z.mul_mod, <- Z.add_mod by lia. reflexivity. }
  rewrite !Hstep. split.
  - replace (di * d * (a * x + b * y) + di * - b * (c * x + d * y))
      with ((a * d - b * c) * di * x) by ring.
    rewrite <- Z.mul_mod_idemp_l, Hinv by lia.
    rewrite Z.mul_1_l. apply Z.mod_small, Hx.
  - replace (di * - c * (a * x + b * y) + di * a * (c * x + d * y))
      with ((a * d - b * c) * di * y) by ring.
    rewrite <- Z.mul_mod_idemp_l, Hinv by lia.
    rewrite Z.mul_1_l. apply Z.mod_small, Hy.
Qed.


Lemma mod2_even n : (n mod 2 =? 1)%nat = negb (Nat.even n).
Proof.
  pose proof (Nat.div_mod_eq n 2) as Hn.
  pose proof (Nat.mod_upper_bound n 2 ltac:(lia)) as Hlt.
  destruct (n mod 2)%nat as [|[|r]] eqn:Hr; [| |lia].
  - rewrite Hn, Nat.add_0_r, <- (Nat.add_0_l (2 * _)), Nat.even_add_mul_2.
    reflexivity.
  - rewrite Hn, Nat.even_odd. reflexivity.
Qed.

Lemma apply_pairs_upper k l : forallb is_upper (apply_pairs k l) = true.
Proof.
  revert l. fix IH 1. intros [|c0 [|c1 l]]; try reflexivity.
  cbn [apply_pairs forallb]. rewrite IH.
  pose proof (Z.mod_pos_bound (m00 k * (c0 - 65) + m01 k * (c1 - 65)) 26 ltac:(lia)).
  pose proof (Z.mod_pos_bound (m10 k * (c0 - 65) + m11 k * (c1 - 65)) 26 ltac:(lia)).
  unfold is_upper. lia.
Qed.

Lemma apply_pairs_length k l :
  Nat.even (length l) = true -> length (apply_pairs k l) = length l.
Proof.
  revert l. apply even_length_ind; [reflexivity|].
  intros a b l IH. cbn [apply_pairs length]. rewrite IH. reflexivity.
Qed.

Section Roundtrip.

Variable isalpha : Z -> bool.
Variable upper : Z -> pystr.
Variable det_round : matrix -> Z.

(** What the proofs use of Python's [isalpha] and [upper]: their values on
    the ASCII letters. *)
Hypothesis capital_letters :
  forall c, is_upper c = true -> isalpha c = true /\ upper c = [c].
Hypothesis small_letters :
  forall c, is_lower c = true -> upper c = [c - 32].

(** Every alphabetic character of the text is one of A-Z, a-z. *)
Definition ascii_letters (text : pystr) : bool :=
  forallb (fun c => implb (isalpha c) (is_upper c || is_lower c)) text.

Lemma cleaned_text_upper T :
  ascii_letters T = true -> forallb is_upper (cleaned_text isalpha upper T) = true.
Proof.
  unfold ascii_letters, cleaned_text. induction T as [|c T IH]; [reflexivity|].
  cbn [forallb flat_map]. intros H. apply andb_true_iff in H.
  destruct H as [Hc HT]. rewrite forallb_app, (IH HT), andb_true_r.
  destruct (isalpha c); [|reflexivity]. cbn [implb] in Hc.
  apply orb_true_iff in Hc. destruct Hc as [Hc|Hc].
  - rewrite (proj2 (capital_letters c Hc)). cbn. rewrite Hc. reflexivity.
  - rewrite (small_letters c Hc). cbn. unfold is_upper, is_lower in *. lia.
Qed.

Lemma cleaned_text_fixed l :
  forallb is_upper l = true -> cleaned_text isalpha upper l = l.
Proof.
  unfold cleaned_text. induction l as [|c l IH]; [reflexivity|].
  cbn [forallb flat_map]. intros H. apply andb_true_iff in H.
  destruct H as [Hc Hl]. destruct (capital_letters c Hc) as [-> ->].
  rewrite (IH Hl). reflexivity.
Qed.

Lemma prepare_text_fixed l :
  forallb is_upper l = true -> Nat.even (length l) = true ->
  prepare_text isalpha upper l = l.
Proof.
  intros Hl Heven. unfold prepare_text. rewrite (cleaned_text_fixed l Hl).
  rewrite mod2_even, Heven. reflexivity.
Qed.

Lemma prepare_text_upper T :
  ascii_letters T = true ->
  forallb is_upper (prepare_text isalpha upper T) = true /\
  Nat.even (length (prepare_text isalpha upper T)) = true.
Proof.
  intros HT. unfold prepare_text. rewrite mod2_even.
  pose proof (cleaned_text_upper T HT) as Hup.
  destruct (Nat.even (length (cleaned_text isalpha upper T))) eqn:Heven;
    cbn [negb].
  - auto.
  - rewrite forallb_app, Hup, length_app, Nat.even_add, Heven. auto.
Qed.

Lemma char_to_num_upper c :
  is_upper c = true -> char_to_num upper c = inr (c - 65).
Proof.
  intros Hc. unfold char_to_num. rewrite (proj2 (capital_letters c Hc)).
  reflexivity.
Qed.

Lemma transform_block_upper k c0 c1 :
  key_in_range k = true -> is_upper c0 = true -> is_upper c1 = true ->
  transform_block upper k [c0; c1]
  = inr [(m00 k * (c0 - 65) + m01 k * (c1 - 65)) mod 26 + 65;
         (m10 k * (c0 - 65) + m11 k * (c1 - 65)) mod 26 + 65].
Proof.
  intros Hk H0 H1. unfold transform_block. cbn [length Nat.eqb].
  change (str_getitem [c0; c1] 0) with (@inr exn Z c0).
  change (str_getitem [c0; c1] 1) with (@inr exn Z c1).
  cbn [bind]. rewrite !char_to_num_upper by assumption. cbn [bind].
  rewrite dot_small by (try assumption; unfold in_alphabet, is_upper in *; lia).
  cbn [fst snd]. unfold alphabet_size. rewrite !num_to_char_residue.
  reflexivity.
Qed.

(** The block loop on capital letters of even length. *)
Lemma transform_blocks k l :
  key_in_range k = true ->
  forallb is_upper l = true -> Nat.even (length l) = true ->
  (blocks <- mapM (transform_block upper k) (chunks 2 l) ;; ret (concat blocks))
  = inr (apply_pairs k l).
Proof.
  intros Hk Hup Heven. revert l Heven Hup. apply (even_length_ind (fun l => _ -> _)).
  - intros _. reflexivity.
  - intros a b l IH Hup. cbn [forallb] in Hup.
    apply andb_true_iff in Hup. destruct Hup as [Ha Hup].
    apply andb_true_iff in Hup. destruct Hup as [Hb Hup].
    specialize (IH Hup).
    change (a :: b :: l) with ([a; b] ++ l).
    rewrite chunks_app by (try reflexivity; lia). cbn [mapM app].
    rewrite transform_block_upper by assumption. cbn [bind].
    destruct (mapM (transform_block upper k) (chunks 2 l)) as [e|blocks];
      [discriminate IH|].
    cbn [bind ret] in IH |- *. injection IH as IH.
    cbn [concat app apply_pairs]. rewrite IH. reflexivity.
Qed.

Lemma encrypt_upper k T :
  key_in_range k = true -> Z.gcd (det_round k mod 26) 26 = 1 ->
  ascii_letters T = true ->
  encrypt isalpha upper det_round T k
  = inr (apply_pairs k (prepare_text isalpha upper T)).
Proof.
  intros Hk Hg HT. unfold encrypt, validate_key_matrix, alphabet_size.
  rewrite Hg. cbn [Z.eqb Pos.eqb negb].
  destruct (prepare_text_upper T HT) as [Hup Heven].
  destruct (Nat.eqb_spec (length (prepare_text isalpha upper T)) 0) as [Hz|_].
  - apply length_zero_iff_nil in Hz. rewrite Hz. reflexivity.
  - apply transform_blocks; assumption.
Qed.

(** The inverse key, as [matrix_mod_inverse] computes it. *)
Lemma matrix_mod_inverse_valid k :
  key_in_range k = true -> det_round k = det k -> Z.gcd (det k mod 26) 26 = 1 ->
  exists di,
    (det k mod 26 * di) mod 26 = 1 /\
    matrix_mod_inverse det_round k 26
    = inr (Mat ((di * m11 k) mod 26) ((di * - m01 k) mod 26)
               ((di * - m10 k) mod 26) ((di * m00 k) mod 26)).
Proof.
  intros Hk Hdet Hg. unfold matrix_mod_inverse. rewrite Hdet, Hg.
  cbn [Z.eqb Pos.eqb negb].
  destruct (mod_inverse_26 (det k mod 26)) as (di & -> & Hdi & Hinv);
    [apply Z.mod_pos_bound; lia | assumption |].
  exists di. split; [assumption|]. cbn [bind m00 m01 m10 m11].
  unfold key_in_range, in_alphabet in Hk.
  rewrite (wrap64_small (- m01 k)), (wrap64_small (- m10 k)) by lia.
  rewrite !wrap64_small by nia. reflexivity.
Qed.

Lemma apply_pairs_inverse k di l :
  (det k mod 26 * di) mod 26 = 1 ->
  forallb is_upper l = true -> Nat.even (length l) = true ->
  apply_pairs (Mat ((di * m11 k) mod 26) ((di * - m01 k) mod 26)
                   ((di * - m10 k) mod 26) ((di * m00 k) mod 26))
              (apply_pairs k l) = l.
Proof.
  intros Hinv Hup Heven. revert l Heven Hup.
  apply (even_length_ind (fun l => _ -> _)); [reflexivity|].
  intros a b l IH Hup. cbn [forallb] in Hup.
  apply andb_true_iff in Hup. destruct Hup as [Ha Hup].
  apply andb_true_iff in Hup. destruct Hup as [Hb Hup].
  cbn [apply_pairs m00 m01 m10 m11]. rewrite (IH Hup).
  rewrite !Z.add_simpl_r.
  destruct (hill_inverse (m00 k) (m01 k) (m10 k) (m11 k) di (a - 65) (b - 65))
    as [-> ->]; unfold is_upper in *; try lia; [exact Hinv|].
  f_equal; [lia|]. f_equal. lia.
Qed.


Lemma decrypt_upper k C :
  key_in_range k = true -> det_round k = det k -> Z.gcd (det k mod 26) 26 = 1 ->
  forallb is_upper C = true -> Nat.even (length C) = true ->
  exists di,
    (det k mod 26 * di) mod 26 = 1 /\
    decrypt isalpha upper det_round C k
    = inr (apply_pairs (Mat ((di * m11 k) mod 26) ((di * - m01 k) mod 26)
                            ((di * - m10 k) mod 26) ((di * m00 k) mod 26)) C).
Proof.
  intros Hk Hdet Hg Hup Heven.
  destruct (matrix_mod_inverse_valid k Hk Hdet Hg) as (di & Hinv & Hmat).
  exists di. split; [assumption|].
  unfold decrypt, validate_key_matrix. unfold alphabet_size at 1 2.
  rewrite Hdet, Hg. cbn [Z.eqb Pos.eqb negb]. unfold alphabet_size.
  rewrite Hmat. cbn [bind]. rewrite (prepare_text_fixed C Hup Heven).
  destruct (Nat.eqb_spec (length C) 0) as [Hz|_].
  - apply length_zero_iff_nil in Hz. rewrite Hz. reflexivity.
  - apply transform_blocks; try assumption.
    unfold key_in_range, in_alphabet. cbn [m00 m01 m10 m11].
    pose proof (Z.mod_pos_bound (di * m11 k) 26 ltac:(lia)).
    pose proof (Z.mod_pos_bound (di * - m01 k) 26 ltac:(lia)).
    pose proof (Z.mod_pos_bound (di * - m10 k) 26 ltac:(lia)).
    pose proof (Z.mod_pos_bound (di * m00 k) 26 ltac:(lia)).
    lia.
Qed.

(** C3, as the code has it: for a key with entries in [0, 26) whose
    determinant is coprime with 26 (and on which the rounded floating-point
    determinant is the exact one), and a text whose alphabetic characters
    are all ASCII letters, [decrypt] of [encrypt] is the cleaned text when
    its length is even, and the cleaned text followed by the pad letter X
    when it is odd. *)
Theorem decrypt_encrypt key T :
  key_in_range key = true ->
  det_round key = det key ->
  Z.gcd (det key mod 26) 26 = 1 ->
  ascii_letters T = true ->
  exists C,
    encrypt isalpha upper det_round T key = inr C /\
    ((length (cleaned_text isalpha upper T) mod 2 = 0)%nat ->
     decrypt isalpha upper det_round C key = inr (cleaned_text isalpha upper T)) /\
    ((length (cleaned_text isalpha upper T) mod 2 = 1)%nat ->
     decrypt isalpha upper det_round C key
     = inr (cleaned_text isalpha upper T ++ lit "X")).
Proof.
  intros Hk Hdet Hg HT.
  destruct (prepare_text_upper T HT) as [Hup Heven].
  exists (apply_pairs key (prepare_text isalpha upper T)).
  split; [apply encrypt_upper; try assumption; rewrite Hdet; assumption|].
  destruct (decrypt_upper key (apply_pairs key (prepare_text isalpha upper T))
              Hk Hdet Hg (apply_pairs_upper _ _))
    as (di & Hinv & Hdec).
  { rewrite apply_pairs_length; assumption. }
  rewrite Hdec, (apply_pairs_inverse key di _ Hinv Hup Heven).
  unfold prepare_text. split; intros Hlen; rewrite Hlen; reflexivity.
Qed.

End Roundtrip.


Lemma isalpha_latin1_capital c :
  is_upper c = true -> isalpha_latin1 c = true /\ upper_latin1 c = [c].
Proof.
  unfold is_upper, isalpha_latin1, upper_latin1. intros H. split; [lia|].
  replace (((97 <=? c) && (c <=? 122)) || ((224 <=? c) && (c <=? 246))
           || ((248 <=? c) && (c <=? 254))) with false by lia.
  replace (c =? 181) with false by lia.
  replace (c =? 223) with false by lia.
  replace (c =? 255) with false by lia.
  reflexivity.
Qed.

Lemma upper_latin1_small c : is_lower c = true -> upper_latin1 c = [c - 32].
Proof.
  unfold is_lower, upper_latin1. intros H.
  replace (((97 <=? c) && (c <=? 122)) || ((224 <=? c) && (c <=? 246))
           || ((248 <=? c) && (c <=? 254))) with true by lia.
  reflexivity.
Qed.

Lemma decrypt_encrypt_witness :
  exists C,
    encrypt isalpha_latin1 upper_latin1 det (lit "Hello, World") key_3257 = inr C /\
    ((length (cleaned_text isalpha_latin1 upper_latin1 (lit "Hello, World")) mod 2
      = 0)%nat ->
     decrypt isalpha_latin1 upper_latin1 det C key_3257
     = inr (cleaned_text isalpha_latin1 upper_latin1 (lit "Hello, World"))) /\
    ((length (cleaned_text isalpha_latin1 upper_latin1 (lit "Hello, World")) mod 2
      = 1)%nat ->
     decrypt isalpha_latin1 upper_latin1 det C key_3257
     = inr (cleaned_text isalpha_latin1 upper_latin1 (lit "Hello, World")
            ++ lit "X")).
Proof.
  apply (decrypt_encrypt isalpha_latin1 upper_latin1 det
           isalpha_latin1_capital upper_latin1_small key_3257 (lit "Hello, World"));
    reflexivity.
Defined.

(** C3 as stated fails on a letter outside A-Z: [isalpha] accepts U+00E9
    (e with acute accent), [upper] gives U+00C9, and the cipher reduces its
    number modulo 26, so that the text comes back as [GG]. *)
Lemma decrypt_encrypt_non_ascii_letter :
  key_in_range key_3257 = true /\
  Z.gcd (det key_3257 mod 26) 26 = 1 /\
  cleaned_text isalpha_latin1 upper_latin1 [233; 233] = [201; 201] /\
  exists C,
    encrypt isalpha_latin1 upper_latin1 det [233; 233] key_3257 = inr C /\
    decrypt isalpha_latin1 upper_latin1 det C key_3257 = inr (lit "GG") /\
    decrypt isalpha_latin1 upper_latin1 det C key_3257
    <> inr (cleaned_text isalpha_latin1 upper_latin1 [233; 233]).
Proof.
  split; [reflexivity|]. split; [reflexivity|]. split; [reflexivity|].
  eexists. split; [reflexivity|]. split; [reflexivity|].
  vm_compute. discriminate.
Qed.

(** The pad letter of an odd text is kept by [decrypt]: the caller strips
    it. *)
Example odd_text_keeps_pad :
  (c <- encrypt isalpha_latin1 upper_latin1 det (lit "abc") key_3257 ;;
   decrypt isalpha_latin1 upper_latin1 det c key_3257) = inr (lit "ABCX").
Proof. reflexivity. Qed.

(** [validate_key_matrix] tests the rounded floating-point determinant. *)
Lemma validate_key_matrix_spec det_round k :
  validate_key_matrix det_round k = true <-> Z.gcd (det_round k mod 26) 26 = 1.
Proof.
  unfold validate_key_matrix, alphabet_size.
  destruct (Z.eqb_spec (Z.gcd (det_round k mod 26) 26) 1); cbn [negb];
    split; intros H; congruence.
Qed.

(** *** The determinant the test computes *)

(** A key whose entries have eight digits: its exact determinant,
    114007339688962, is even. *)
Definition wide_key : matrix := Mat 13441888 1557546 7379715 9336604.

(** A rounded determinant that is one above the exact one, as a
    floating-point computation can give it on a matrix of that size. *)
Definition det_one_above (m : matrix) : Z := det m + 1.

(** C8 on the code: [validate_key_matrix] tests the determinant that NumPy
    computes in floating point, rounded, and not the exact [a*d - b*c]: for
    every matrix it returns [True] exactly when that rounded value is
    coprime with 26.  On [wide_key] the exact determinant is even, so that
    the equivalence with the exact determinant demands [False]; the code
    returns [True] as soon as the rounded value is one off, and whenever it
    returns [True] the rounded value is not the exact determinant and the
    equivalence fails. *)
Theorem validate_key_matrix_rounded_determinant det_round :
  (forall k, validate_key_matrix det_round k = true
             <-> Z.gcd (det_round k mod 26) 26 = 1) /\
  det wide_key = 114007339688962 /\
  Z.gcd (det wide_key mod 26) 26 <> 1 /\
  (Z.abs (det_round wide_key - det wide_key) = 1 ->
   validate_key_matrix det_round wide_key = true) /\
  (validate_key_matrix det_round wide_key = true ->
   det_round wide_key <> det wide_key /\
   ~ (validate_key_matrix det_round wide_key = true
      <-> Z.gcd (det wide_key mod 26) 26 = 1)).
Proof.
  assert (Hdet : det wide_key = 114007339688962) by reflexivity.
  assert (Heven : Z.gcd (det wide_key mod 26) 26 <> 1)
    by (rewrite Hdet; vm_compute; discriminate).
  split; [intros k; apply validate_key_matrix_spec|].
  split; [exact Hdet|]. split; [exact Heven|]. split.
  - intros Hoff. apply validate_key_matrix_spec.
    assert (Hcases : det_round wide_key = 114007339688961
                     \/ det_round wide_key = 114007339688963) by lia.
    destruct Hcases as [-> | ->]; reflexivity.
  - intros Hacc. split.
    + intros Hsame. apply validate_key_matrix_spec in Hacc.
      rewrite Hsame in Hacc. exact (Heven Hacc).
    + intros [Hclaim _]. exact (Heven (Hclaim Hacc)).
Qed.

Lemma validate_key_matrix_rounded_determinant_witness :
  validate_key_matrix det_one_above wide_key = true /\
  Z.gcd (det wide_key mod 26) 26 <> 1.
Proof.
  split.
  - apply (proj1 (proj2 (proj2 (proj2
             (validate_key_matrix_rounded_determinant det_one_above))))).
    reflexivity.
  - apply (validate_key_matrix_rounded_determinant det_one_above).
Defined.

(** *** The extended Euclidean algorithm and the modular inverse *)

Lemma extended_gcd_sound fuel : forall a b g x y,
  0 <= a -> 0 <= b ->
  extended_gcd fuel a b = Some (g, x, y) ->
  g = Z.gcd a b /\ a * x + b * y = g.
Proof.
  induction fuel as [|fuel IH]; intros a b g x y Ha Hb H; [discriminate H|].
  cbn [extended_gcd] in H. destruct (Z.eqb_spec a 0) as [->|Hnz].
  - injection H as <- <- <-. rewrite Z.gcd_0_l_nonneg by exact Hb. lia.
  - destruct (extended_gcd fuel (b mod a) a) as [[[g' x1] y1]|] eqn:Hrec;
      [|discriminate H].
    injection H as <- <- <-.
    pose proof (Z.mod_pos_bound b a ltac:(lia)) as Hmod.
    destruct (IH (b mod a) a g' x1 y1 ltac:(lia) Ha Hrec) as [Hg Hbez].
    split.
    + rewrite Hg. apply Z.gcd_mod. exact Hnz.
    + rewrite <- Hbez. rewrite (Z.mod_eq b a) by exact Hnz. ring.
Qed.

(** X11: [extended_gcd] returns the greatest common divisor of two non-negative
    numbers with coefficients of Bezout's identity, whenever its recursion
    is given room for more than [a] calls. *)
Theorem extended_gcd_bezout (fuel : nat) (a b : Z) :
  0 <= a -> 0 <= b -> (Z.to_nat a < fuel)%nat ->
  exists x y, extended_gcd fuel a b = Some (Z.gcd a b, x, y) /\
              a * x + b * y = Z.gcd a b.
Proof.
  intros Ha Hb Hfuel.
  destruct (extended_gcd_total fuel a b) as ([[g x] y] & Hrun);
    [rewrite Z.abs_eq by exact Ha; exact Hfuel|].
  destruct (extended_gcd_sound fuel a b g x y Ha Hb Hrun) as [Hg Hbez].
  exists x, y. rewrite Hrun, <- Hg. split; [reflexivity|exact Hbez].
Qed.

Lemma extended_gcd_bezout_witness :
  exists x y, extended_gcd 12 11 26 = Some (Z.gcd 11 26, x, y) /\
              11 * x + 26 * y = Z.gcd 11 26.
Proof.
  apply (extended_gcd_bezout 12 11 26); [lia | lia | cbn; lia].
Defined.

(** X12: For every modulus above 1 (and below 2^64, which keeps the recursion
    of the Euclidean algorithm far from Python's limit), [mod_inverse]
    returns the inverse of a number coprime with it, in the range of the
    modulus, and raises its [ValueError] for every other number. *)
Theorem mod_inverse_correct (a m : Z) :
  1 < m < 2 ^ 64 ->
  (Z.gcd a m = 1 ->
   exists x, mod_inverse a m = inr x /\ 0 <= x < m /\ (a * x) mod m = 1) /\
  (Z.gcd a m <> 1 ->
   mod_inverse a m
   = inl (Raise ValueError ("Modular inverse of " ++ str_of_int a ++ " mod "
                            ++ str_of_int m ++ " does not exist"))).
Proof.
  intros [Hm _]. split.
  - intros Hg. unfold mod_inverse. rewrite Hg. cbn [Z.eqb Pos.eqb negb].
    pose proof (Z.mod_pos_bound a m ltac:(lia)) as Hmod.
    destruct (extended_gcd_total (S (Z.to_nat (Z.abs (a mod m)))) (a mod m) m)
      as ([[g x] y] & Hrun); [lia|].
    rewrite Hrun.
    destruct (extended_gcd_sound _ (a mod m) m g x y ltac:(lia) ltac:(lia) Hrun)
      as [Hgcd Hbez].
    rewrite Z.gcd_mod, Z.gcd_comm, Hg in Hgcd by lia. subst g.
    eexists. split; [reflexivity|].
    assert (Hr : (x mod m + m) mod m = x mod m).
    { rewrite Z.add_mod, Z.mod_same, Z.add_0_r, !Z.mod_mod by lia. reflexivity. }
    rewrite Hr.
    split; [apply Z.mod_pos_bound; lia|].
    rewrite Z.mul_mod_idemp_r, <- Z.mul_mod_idemp_l by lia.
    replace (a mod m * x) with (1 + (- y) * m) by lia.
    rewrite Z_mod_plus_full. apply Z.mod_small. lia.
  - intros Hg. unfold mod_inverse.
    destruct (Z.eqb_spec (Z.gcd a m) 1); [contradiction|]. reflexivity.
Qed.

Lemma mod_inverse_correct_witness :
  (Z.gcd 11 26 = 1 ->
   exists x, mod_inverse 11 26 = inr x /\ 0 <= x < 26 /\ (11 * x) mod 26 = 1) /\
  (Z.gcd 11 26 <> 1 ->
   mod_inverse 11 26
   = inl (Raise ValueError ("Modular inverse of " ++ str_of_int 11 ++ " mod "
                            ++ str_of_int 26 ++ " does not exist"))).
Proof.
  apply (mod_inverse_correct 11 26). lia.
Defined.

(** *** Which keys are accepted *)

(** X13: A key is accepted exactly when the determinant the test computes is odd
    and not a multiple of 13. *)
Theorem validate_key_matrix_odd_not_13 det_round (key_matrix : matrix) :
  validate_key_matrix det_round key_matrix = true <->
  Z.odd (det_round key_matrix) = true /\ det_round key_matrix mod 13 <> 0.
Proof.
  rewrite validate_key_matrix_spec.
  set (d := det_round key_matrix).
  assert (Hall : forallb (fun n =>
            Bool.eqb (Z.gcd (Z.of_nat n) 26 =? 1)
                     (Z.odd (Z.of_nat n) && negb (Z.of_nat n mod 13 =? 0)))
            (seq 0 26) = true) by (vm_compute; reflexivity).
  rewrite forallb_forall in Hall.
  pose proof (Z.mod_pos_bound d 26 ltac:(lia)) as Hr.
  specialize (Hall (Z.to_nat (d mod 26)) ltac:(apply in_seq; lia)).
  rewrite Z2Nat.id in Hall by lia. apply eqb_prop in Hall.
  assert (Hodd : Z.odd (d mod 26) = Z.odd d).
  { rewrite (Z.div_mod d 26) at 2 by lia.
    rewrite Z.add_comm.
    replace (26 * (d / 26)) with (2 * (13 * (d / 26))) by lia.
    apply eq_sym, Z.odd_add_mul_2. }
  assert (H13 : (d mod 26) mod 13 = d mod 13).
  { apply Z.mod_mod_divide. exists 2. reflexivity. }
  rewrite Hodd, H13 in Hall.
  split.
  - intros Hg. rewrite (proj2 (Z.eqb_eq _ _) Hg) in Hall.
    symmetry in Hall. apply andb_true_iff in Hall. destruct Hall as [Ho Hn].
    split; [exact Ho|]. apply negb_true_iff, Z.eqb_neq in Hn. exact Hn.
  - intros [Ho Hn]. apply Z.eqb_eq. rewrite Hall, Ho.
    apply Z.eqb_neq in Hn. rewrite Hn. reflexivity.
Qed.

(** *** The inverse key, the shape of a ciphertext, and the way back *)

Lemma mod26_lin_l s t x y :
  (s mod 26 * x + t mod 26 * y) mod 26 = (s * x + t * y) mod 26.
Proof.
  rewrite Z.add_mod, !Z.mul_mod_idemp_l, <- Z.add_mod by lia. reflexivity.
Qed.

Lemma mod26_lin_r p q u v :
  (p * (u mod 26) + q * (v mod 26)) mod 26 = (p * u + q * v) mod 26.
Proof.
  rewrite Z.add_mod, !Z.mul_mod_idemp_r, <- Z.add_mod by lia. reflexivity.
Qed.

Lemma mod26_cancel det di x :
  (det mod 26 * di) mod 26 = 1 -> (det * di * x) mod 26 = x mod 26.
Proof.
  intros H. rewrite Z.mul_mod_idemp_l in H by lia.
  rewrite <- Z.mul_mod_idemp_l, H, Z.mul_1_l by lia. reflexivity.
Qed.

(** The key applied after its inverse is the identity on residues. *)
Lemma hill_inverse_after a b c d di x y :
  ((a * d - b * c) mod 26 * di) mod 26 = 1 ->
  0 <= x < 26 -> 0 <= y < 26 ->
  (a * (((di * d) mod 26 * x + (di * - b) mod 26 * y) mod 26)
   + b * (((di * - c) mod 26 * x + (di * a) mod 26 * y) mod 26)) mod 26 = x /\
  (c * (((di * d) mod 26 * x + (di * - b) mod 26 * y) mod 26)
   + d * (((di * - c) mod 26 * x + (di * a) mod 26 * y) mod 26)) mod 26 = y.
Proof.
  intros Hinv Hx Hy. rewrite !mod26_lin_l, !mod26_lin_r. split.
  - replace (a * (di * d * x + di * - b * y) + b * (di * - c * x + di * a * y))
      with ((a * d - b * c) * di * x) by ring.
    rewrite (mod26_cancel _ _ _ Hinv). apply Z.mod_small, Hx.
  - replace (c * (di * d * x + di * - b * y) + d * (di * - c * x + di * a * y))
      with ((a * d - b * c) * di * y) by ring.
    rewrite (mod26_cancel _ _ _ Hinv). apply Z.mod_small, Hy.
Qed.

Lemma apply_pairs_after k di l :
  (det k mod 26 * di) mod 26 = 1 ->
  forallb is_upper l = true -> Nat.even (length l) = true ->
  apply_pairs k
    (apply_pairs (Mat ((di * m11 k) mod 26) ((di * - m01 k) mod 26)
                      ((di * - m10 k) mod 26) ((di * m00 k) mod 26)) l) = l.
Proof.
  intros Hinv Hup Heven. revert l Heven Hup.
  apply (even_length_ind (fun l => _ -> _)); [reflexivity|].
  intros a b l IH Hup. cbn [forallb] in Hup.
  apply andb_true_iff in Hup. destruct Hup as [Ha Hup].
  apply andb_true_iff in Hup. destruct Hup as [Hb Hup].
  cbn [apply_pairs m00 m01 m10 m11]. rewrite (IH Hup).
  rewrite !Z.add_simpl_r.
  destruct (hill_inverse_after (m00 k) (m01 k) (m10 k) (m11 k) di (a - 65) (b - 65))
    as [-> ->]; unfold is_upper in *; try lia; [exact Hinv|].
  f_equal; [lia|]. f_equal. lia.
Qed.

Section Further.

Variable isalpha : Z -> bool.
Variable upper : Z -> pystr.
Variable det_round : matrix -> Z.

Hypothesis capital_letters :
  forall c, is_upper c = true -> isalpha c = true /\ upper c = [c].
Hypothesis small_letters :
  forall c, is_lower c = true -> upper c = [c - 32].

(** X14: For a key of the data model that the test accepts, [matrix_mod_inverse]
    returns a matrix with entries in [0, 26) whose product with the key, on
    either side, is the identity modulo 26; for a key whose determinant is
    not coprime with the modulus it raises its [ValueError]. *)
Theorem matrix_mod_inverse_correct (k : matrix) :
  key_in_range k = true -> det_round k = det k ->
  (Z.gcd (det k mod 26) 26 = 1 ->
   exists inv,
     matrix_mod_inverse det_round k 26 = inr inv /\
     key_in_range inv = true /\
     (m00 inv * m00 k + m01 inv * m10 k) mod 26 = 1 /\
     (m00 inv * m01 k + m01 inv * m11 k) mod 26 = 0 /\
     (m10 inv * m00 k + m11 inv * m10 k) mod 26 = 0 /\
     (m10 inv * m01 k + m11 inv * m11 k) mod 26 = 1 /\
     (m00 k * m00 inv + m01 k * m10 inv) mod 26 = 1 /\
     (m00 k * m01 inv + m01 k * m11 inv) mod 26 = 0 /\
     (m10 k * m00 inv + m11 k * m10 inv) mod 26 = 0 /\
     (m10 k * m01 inv + m11 k * m11 inv) mod 26 = 1) /\
  (Z.gcd (det k mod 26) 26 <> 1 ->
   matrix_mod_inverse det_round k 26
   = inl (Raise ValueError "Matrix is not invertible in the given modulus")).
Proof.
  intros Hk Hdet. split.
  - intros Hg.
    destruct (matrix_mod_inverse_valid det_round k Hk Hdet Hg) as (di & Hinv & ->).
    eexists. split; [reflexivity|]. cbn [m00 m01 m10 m11].
    assert (Hone : forall z, (det k * di * z) mod 26 = z mod 26)
      by (intros z; apply mod26_cancel, Hinv).
    unfold det in Hone.
    split.
    { unfold key_in_range, in_alphabet. cbn [m00 m01 m10 m11].
      pose proof (Z.mod_pos_bound (di * m11 k) 26 ltac:(lia)).
      pose proof (Z.mod_pos_bound (di * - m01 k) 26 ltac:(lia)).
      pose proof (Z.mod_pos_bound (di * - m10 k) 26 ltac:(lia)).
      pose proof (Z.mod_pos_bound (di * m00 k) 26 ltac:(lia)).
      lia. }
    rewrite !mod26_lin_l, !mod26_lin_r.
    repeat split.
    + replace (di * m11 k * m00 k + di * - m01 k * m10 k)
        with ((m00 k * m11 k - m01 k * m10 k) * di * 1) by ring.
      apply Hone.
    + replace (di * m11 k * m01 k + di * - m01 k * m11 k) with (0 * 1) by ring.
      reflexivity.
    + replace (di * - m10 k * m00 k + di * m00 k * m10 k) with (0 * 1) by ring.
      reflexivity.
    + replace (di * - m10 k * m01 k + di * m00 k * m11 k)
        with ((m00 k * m11 k - m01 k * m10 k) * di * 1) by ring.
      apply Hone.
    + replace (m00 k * (di * m11 k) + m01 k * (di * - m10 k))
        with ((m00 k * m11 k - m01 k * m10 k) * di * 1) by ring.
      apply Hone.
    + replace (m00 k * (di * - m01 k) + m01 k * (di * m00 k)) with (0 * 1) by ring.
      reflexivity.
    + replace (m10 k * (di * m11 k) + m11 k * (di * - m10 k)) with (0 * 1) by ring.
      reflexivity.
    + replace (m10 k * (di * - m01 k) + m11 k * (di * m00 k))
        with ((m00 k * m11 k - m01 k * m10 k) * di * 1) by ring.
      apply Hone.
  - intros Hg. unfold matrix_mod_inverse. rewrite Hdet.
    destruct (Z.eqb_spec (Z.gcd (det k mod 26) 26) 1); [contradiction|].
    reflexivity.
Qed.

(** X15: The ciphertext of a text whose letters are ASCII is made of capital
    letters A-Z, as many as the cleaned text padded to an even length; a
    text without letters gives the empty ciphertext. *)
Theorem encrypt_shape (k : matrix) (T : pystr) :
  key_in_range k = true ->
  validate_key_matrix det_round k = true ->
  ascii_letters isalpha T = true ->
  exists C,
    encrypt isalpha upper det_round T k = inr C /\
    forallb is_upper C = true /\
    length C = length (prepare_text isalpha upper T) /\
    Nat.even (length C) = true /\
    (cleaned_text isalpha upper T = [] -> C = []).
Proof.
  intros Hk Hv HT. apply validate_key_matrix_spec in Hv.
  destruct (prepare_text_upper isalpha upper capital_letters small_letters T HT)
    as [Hup Heven].
  exists (apply_pairs k (prepare_text isalpha upper T)).
  split; [apply encrypt_upper; assumption|].
  split; [apply apply_pairs_upper|].
  rewrite apply_pairs_length by exact Heven.
  split; [reflexivity|]. split; [exact Heven|].
  intros Hnil. unfold prepare_text. rewrite Hnil. reflexivity.
Qed.

(** X16: Encryption sees the letters only, in capitals: a text and its cleaned
    form have the same ciphertext (or raise the same error). *)
Theorem encrypt_cleaned_text (k : matrix) (T : pystr) :
  ascii_letters isalpha T = true ->
  encrypt isalpha upper det_round (cleaned_text isalpha upper T) k
  = encrypt isalpha upper det_round T k.
Proof.
  intros HT.
  pose proof (cleaned_text_upper isalpha upper capital_letters small_letters T HT)
    as Hup.
  unfold encrypt, prepare_text.
  rewrite (cleaned_text_fixed isalpha upper capital_letters _ Hup).
  reflexivity.
Qed.

(** X17: Encrypting undoes decrypting: a text of capital letters of even length
    is the ciphertext of what it decrypts to. *)
Theorem encrypt_decrypt (k : matrix) (C : pystr) :
  key_in_range k = true -> det_round k = det k ->
  Z.gcd (det k mod 26) 26 = 1 ->
  forallb is_upper C = true -> Nat.even (length C) = true ->
  exists T,
    decrypt isalpha upper det_round C k = inr T /\
    forallb is_upper T = true /\ length T = length C /\
    encrypt isalpha upper det_round T k = inr C.
Proof.
  intros Hk Hdet Hg Hup Heven.
  destruct (decrypt_upper isalpha upper det_round capital_letters k C
              Hk Hdet Hg Hup Heven) as (di & Hinv & Hdec).
  eexists. split; [exact Hdec|].
  split; [apply apply_pairs_upper|].
  split; [apply apply_pairs_length, Heven|].
  set (T := apply_pairs _ C).
  assert (HTup : forallb is_upper T = true) by apply apply_pairs_upper.
  assert (HTeven : Nat.even (length T) = true)
    by (unfold T; rewrite apply_pairs_length; exact Heven).
  assert (HTascii : ascii_letters isalpha T = true).
  { unfold ascii_letters. apply forallb_forall. intros c Hc.
    rewrite forallb_forall in HTup. rewrite (HTup c Hc).
    destruct (isalpha c); reflexivity. }
  rewrite (encrypt_upper isalpha upper det_round capital_letters small_letters
             k T Hk ltac:(rewrite Hdet; exact Hg) HTascii).
  rewrite (prepare_text_fixed isalpha upper capital_letters T HTup HTeven).
  unfold T. rewrite (apply_pairs_after k di C Hinv Hup Heven). reflexivity.
Qed.

End Further.

Lemma matrix_mod_inverse_correct_witness :
  (Z.gcd (det key_3257 mod 26) 26 = 1 ->
   exists inv,
     matrix_mod_inverse det key_3257 26 = inr inv /\
     key_in_range inv = true /\
     (m00 inv * m00 key_3257 + m01 inv * m10 key_3257) mod 26 = 1 /\
     (m00 inv * m01 key_3257 + m01 inv * m11 key_3257) mod 26 = 0 /\
     (m10 inv * m00 key_3257 + m11 inv * m10 key_3257) mod 26 = 0 /\
     (m10 inv * m01 key_3257 + m11 inv * m11 key_3257) mod 26 = 1 /\
     (m00 key_3257 * m00 inv + m01 key_3257 * m10 inv) mod 26 = 1 /\
     (m00 key_3257 * m01 inv + m01 key_3257 * m11 inv) mod 26 = 0 /\
     (m10 key_3257 * m00 inv + m11 key_3257 * m10 inv) mod 26 = 0 /\
     (m10 key_3257 * m01 inv + m11 key_3257 * m11 inv) mod 26 = 1) /\
  (Z.gcd (det key_3257 mod 26) 26 <> 1 ->
   matrix_mod_inverse det key_3257 26
   = inl (Raise ValueError "Matrix is not invertible in the given modulus")).
Proof.
  exact (matrix_mod_inverse_correct det key_3257 eq_refl eq_refl).
Defined.

Lemma encrypt_shape_witness :
  exists C,
    encrypt isalpha_latin1 upper_latin1 det (lit "Hello, World") key_3257 = inr C /\
    forallb is_upper C = true /\
    length C = length (prepare_text isalpha_latin1 upper_latin1 (lit "Hello, World")) /\
    Nat.even (length C) = true /\
    (cleaned_text isalpha_latin1 upper_latin1 (lit "Hello, World") = [] -> C = []).
Proof.
  exact (encrypt_shape isalpha_latin1 upper_latin1 det
           isalpha_latin1_capital upper_latin1_small key_3257 (lit "Hello, World")
           eq_refl eq_refl eq_refl).
Defined.

Lemma encrypt_cleaned_text_witness :
  encrypt isalpha_latin1 upper_latin1 det
    (cleaned_text isalpha_latin1 upper_latin1 (lit "Hello, World")) key_3257
  = encrypt isalpha_latin1 upper_latin1 det (lit "Hello, World") key_3257.
Proof.
  exact (encrypt_cleaned_text isalpha_latin1 upper_latin1 det
           isalpha_latin1_capital upper_latin1_small key_3257 (lit "Hello, World")
           eq_refl).
Defined.

Lemma encrypt_decrypt_witness :
  exists T,
    decrypt isalpha_latin1 upper_latin1 det (lit "QZXJ") key_3257 = inr T /\
    forallb is_upper T = true /\ length T = length (lit "QZXJ") /\
    encrypt isalpha_latin1 upper_latin1 det T key_3257 = inr (lit "QZXJ").
Proof.
  exact (encrypt_decrypt isalpha_latin1 upper_latin1 det
           isalpha_latin1_capital upper_latin1_small key_3257 (lit "QZXJ")
           eq_refl eq_refl eq_refl eq_refl eq_refl).
Defined.

End HillCipher.

(** ** LSB steganography ([steganography.py]) *)

Module Steganography.

(** A NumPy [uint8] array of an RGB image: its shape (rows, columns,
    channels) and its bytes in row-major, channel-minor order, which is the
    order of [flatten()]. *)
Record ndarray := Array { shape : nat * nat * nat; flat : list Z }.

(** [pixels.size]. *)
Definition size (a : ndarray) : nat :=
  let '(rows, cols, chans) := shape a in (rows * cols * chans)%nat.

(** The channel byte of row [y], column [x], channel [c]. *)
Definition channel (a : ndarray) (y x c : nat) : option Z :=
  let '(rows, cols, chans) := shape a in
  nth_error (flat a) ((y * cols + x) * chans + c).

(** [flat_pixels.reshape(shape)]. *)
Definition reshape (flat_pixels : list Z) (shp : nat * nat * nat) : result ndarray :=
  let '(rows, cols, chans) := shp in
  if (length flat_pixels =? rows * cols * chans)%nat
  then ret (Array shp flat_pixels)
  else raise ValueError "cannot reshape array".

(** The array has as many bytes as its shape says, each a [uint8]. *)
Definition well_formed (a : ndarray) : bool :=
  (length (flat a) =? size a)%nat
  && forallb (fun v => (0 <=? v) && (v <? 256)) (flat a).

(** The image files: a path holds an image stored in RGB mode, as the
    array it decodes to, or nothing.  These are the files the code writes
    itself ([hide_message] and [create_sample_image] save RGB images);
    files of another mode (greyscale, palette, RGBA) are outside the
    model. *)
Definition files := string -> option ndarray.

Definition save (fs : files) (path : string) (a : ndarray) : files :=
  fun p => if String.eqb p path then Some a else fs p.

(** [np.array(Image.open(path).convert('RGB'))]. *)
Definition open_rgb (fs : files) (path : string) : result ndarray :=
  match fs path with
  | Some a => ret a
  | None => raise FileNotFoundError
              ("[Errno 2] No such file or directory: '" ++ path ++ "'")
  end.

(** [except Exception as e: raise Exception(prefix + str(e))]. *)
Definition rewrap {A} (prefix : string) (r : result A) : result A :=
  match r with
  | inl e => raise Exception (prefix ++ str e)
  | inr v => inr v
  end.

Definition delimiter : pystr := lit "###END###".

(** The strings of binary digits the class builds ([binary_message] and the
    like) hold only the characters 0 and 1; the embedding keeps each digit
    as a [bool]. *)
Definition binary := list bool.

(** [format(n, '08b')]: the binary digits of [n], most significant first,
    padded with zeros to at least 8. *)
Definition format_08b (n : Z) : binary :=
  let width := Nat.max 8 (Z.to_nat (Z.log2 n) + 1) in
  map (fun i => Z.testbit n (Z.of_nat i)) (rev (seq 0 width)).

Definition string_to_binary (text : pystr) : binary :=
  flat_map format_08b text.

(** [int(byte, 2)]. *)
Definition int_base2 (byte : binary) : Z :=
  fold_left (fun acc b => 2 * acc + Z.b2z b) byte 0.

(** [chr] of eight binary digits is below 256 and cannot raise. *)
Definition binary_to_string (b : binary) : pystr :=
  map int_base2 (full_chunks 8 b).

Definition modify_lsb (pixel_value : Z) (bit : bool) : Z :=
  Z.lor (Z.land pixel_value 254) (Z.b2z bit).

Definition get_lsb (pixel_value : Z) : Z := Z.land pixel_value 1.

(** [l[i] = v]. *)
Fixpoint setitem (l : list Z) (i : nat) (v : Z) : list Z :=
  match l, i with
  | [], _ => []
  | _ :: l', O => v :: l'
  | x :: l', S i' => x :: setitem l' i' v
  end.

(** [for i, bit in enumerate(binary_message):
       flat_pixels[i] = modify_lsb(flat_pixels[i], bit)], from index [i]. *)
Fixpoint hide_bits (i : nat) (binary_message : binary) (flat_pixels : list Z)
  : result (list Z) :=
  match binary_message with
  | [] => ret flat_pixels
  | bit :: rest =>
      match nth_error flat_pixels i with
      | None => raise IndexError
                  ("index " ++ str_of_int (Z.of_nat i)
                   ++ " is out of bounds for axis 0 with size "
                   ++ str_of_int (Z.of_nat (length flat_pixels)))
      | Some pixel_value =>
          hide_bits (S i) rest (setitem flat_pixels i (modify_lsb pixel_value bit))
      end
  end.

(** [s.endswith(suffix)] on strings of binary digits. *)
Definition endswith (s suffix : binary) : bool :=
  (length suffix <=? length s)%nat
  && forallb (fun p => Bool.eqb (fst p) (snd p))
             (combine (skipn (length s - length suffix) s) suffix).

(** The extraction loop: one least-significant bit is appended per byte and
    the end of the buffer is compared with the delimiter each time; a match
    cuts the delimiter off and leaves the loop. *)
Fixpoint extract_loop (delimiter_binary : binary) (flat_pixels : list Z)
                      (binary_message : binary) : binary :=
  match flat_pixels with
  | [] => binary_message
  | pixel_value :: rest =>
      let binary_message := binary_message ++ [get_lsb pixel_value =? 1] in
      if endswith binary_message delimiter_binary
      then firstn (length binary_message - length delimiter_binary) binary_message
      else extract_loop delimiter_binary rest binary_message
  end.

(** The part of [hide_message] between loading and saving the image. *)
Definition embed (pixels : ndarray) (message : pystr) : result (ndarray * nat) :=
  let message_with_delimiter := message ++ delimiter in
  let binary_message := string_to_binary message_with_delimiter in
  let max_capacity := size pixels in
  if (max_capacity <? length binary_message)%nat
  then raise ValueError
         ("Message too large for image. Max capacity: "
          ++ str_of_int (Z.of_nat max_capacity) ++ " bits, Message size: "
          ++ str_of_int (Z.of_nat (length binary_message)) ++ " bits")
  else
    flat_pixels <- hide_bits 0 binary_message (flat pixels) ;;
    modified_pixels <- reshape flat_pixels (shape pixels) ;;
    ret (modified_pixels, length binary_message).

Definition extract_message (fs : files) (image_path : string) : result pystr :=
  rewrap "Error extracting message: "
    (pixels <- open_rgb fs image_path ;;
     let delimiter_binary := string_to_binary delimiter in
     let binary_message := extract_loop delimiter_binary (flat pixels) [] in
     match binary_message with
     | [] => ret []
     | _ => ret (binary_to_string binary_message)
     end).

(** [np.array(Image.open(path))], without conversion.  For a file in RGB
    mode that is the array of the converted image; for a file of another
    mode it has another number of channels, and [get_image_capacity] then
    counts other bits than [hide_message] embeds into. *)
Definition open_raw (fs : files) (path : string) : result ndarray :=
  open_rgb fs path.

Definition get_image_capacity (fs : files) (image_path : string) : result (Z * Z) :=
  rewrap "Error calculating capacity: "
    (pixels <- open_raw fs image_path ;;
     let total_bits := Z.of_nat (size pixels) in
     let delimiter_bits := Z.of_nat (length (string_to_binary delimiter)) in
     let available_bits := total_bits - delimiter_bits in
     let max_characters := available_bits / 8 in
     ret (max_characters, total_bits)).

(** The gradient of [create_sample_image].  [int(255 * x / width)] divides
    in floating point and truncates; for these sizes that is the integer
    quotient. *)
Definition sample_pixels (width height : nat) : ndarray :=
  Array (height, width, 3%nat)
    (flat_map (fun y =>
       flat_map (fun x =>
         [255 * Z.of_nat x / Z.of_nat width;
          255 * Z.of_nat y / Z.of_nat height;
          255 * Z.of_nat (x + y) / Z.of_nat (width + height)])
         (seq 0 width))
       (seq 0 height)).

Definition create_sample_image (fs : files) (width height : nat)
                               (output_path : string) : files * result string :=
  (save fs output_path (sample_pixels width height), ret output_path).


(** *** Embedding: what [hide_bits] leaves in the array *)

(** The bytes after the loop, by structure: the first [len(bits)] bytes get
    their low bit replaced, the others stay. *)
Fixpoint overwrite (bits : binary) (flat_pixels : list Z) : list Z :=
  match bits, flat_pixels with
  | bit :: bits', v :: flat' => modify_lsb v bit :: overwrite bits' flat'
  | _, _ => flat_pixels
  end.

Lemma nth_error_split_at {A} (l : list A) i v :
  nth_error l i = Some v -> l = firstn i l ++ v :: skipn (S i) l.
Proof.
  revert i. induction l as [|x l IH]; intros [|i] H; try discriminate H.
  - cbn in H. injection H as ->. reflexivity.
  - cbn [firstn skipn app]. f_equal. apply IH, H.
Qed.

Lemma setitem_split l i v w :
  nth_error l i = Some v -> setitem l i w = firstn i l ++ w :: skipn (S i) l.
Proof.
  revert i. induction l as [|x l IH]; intros [|i] H; try discriminate H.
  - reflexivity.
  - cbn [setitem firstn skipn app]. f_equal. apply IH, H.
Qed.

Lemma hide_bits_overwrite bits : forall i flat_pixels,
  (i + length bits <= length flat_pixels)%nat ->
  hide_bits i bits flat_pixels
  = inr (firstn i flat_pixels ++ overwrite bits (skipn i flat_pixels)).
Proof.
  induction bits as [|bit bits IH]; intros i flat_pixels Hlen.
  - cbn [hide_bits overwrite]. rewrite firstn_skipn. reflexivity.
  - cbn [hide_bits]. cbn [length] in Hlen.
    destruct (nth_error flat_pixels i) as [v|] eqn:Hv;
      [|apply nth_error_None in Hv; lia].
    pose proof (nth_error_split_at _ _ _ Hv) as Hsplit.
    assert (Hi : length (firstn i flat_pixels) = i)
      by (rewrite length_firstn; lia).
    rewrite (setitem_split _ _ _ (modify_lsb v bit) Hv).
    set (front := firstn i flat_pixels) in *.
    set (back := skipn (S i) flat_pixels) in *.
    rewrite IH by (rewrite length_app; cbn [length];
                   rewrite Hsplit, length_app in Hlen; cbn [length] in Hlen; lia).
    f_equal.
    replace (S i) with (length (front ++ [modify_lsb v bit]))
      by (rewrite length_app, Hi; cbn [length]; lia).
    change (front ++ modify_lsb v bit :: back)
      with (front ++ [modify_lsb v bit] ++ back).
    rewrite app_assoc, firstn_app, Nat.sub_diag, firstn_O, app_nil_r.
    rewrite firstn_all, skipn_app, Nat.sub_diag, skipn_all.
    cbn [skipn app]. rewrite <- app_assoc. cbn [app]. f_equal.
    assert (Hskip : skipn i flat_pixels = v :: back).
    { rewrite Hsplit at 1. rewrite <- Hi at 1.
      rewrite skipn_app, Nat.sub_diag, skipn_all. reflexivity. }
    rewrite Hskip. reflexivity.
Qed.

Lemma overwrite_length bits flat_pixels :
  length (overwrite bits flat_pixels) = length flat_pixels.
Proof.
  revert flat_pixels. induction bits as [|b bits IH]; intros [|v l];
    cbn [overwrite length]; auto.
Qed.

Lemma overwrite_nth_low bits flat_pixels i bit v :
  nth_error bits i = Some bit -> nth_error flat_pixels i = Some v ->
  nth_error (overwrite bits flat_pixels) i = Some (modify_lsb v bit).
Proof.
  revert flat_pixels i. induction bits as [|b bits IH]; intros [|x l] [|i] Hb Hv;
    try discriminate Hb; try discriminate Hv; cbn in Hb, Hv |- *.
  - congruence.
  - apply IH; assumption.
Qed.

Lemma overwrite_nth_high bits flat_pixels i :
  (length bits <= i)%nat ->
  nth_error (overwrite bits flat_pixels) i = nth_error flat_pixels i.
Proof.
  revert flat_pixels i. induction bits as [|b bits IH]; intros [|x l] [|i] H;
    cbn [length] in H; try lia; try reflexivity.
  cbn [overwrite nth_error]. apply IH. lia.
Qed.

(** Bit level: [modify_lsb] sets the low bit and, on a [uint8], keeps the
    other seven. *)
Lemma get_lsb_modify_lsb v bit : (get_lsb (modify_lsb v bit) =? 1) = bit.
Proof.
  unfold get_lsb, modify_lsb.
  rewrite Z.land_lor_distr_l, <- Z.land_assoc.
  change (Z.land 254 1) with 0. rewrite Z.land_0_r, Z.lor_0_l.
  destruct bit; reflexivity.
Qed.

Lemma modify_lsb_high_bits v bit :
  0 <= v < 256 -> Z.shiftr (modify_lsb v bit) 1 = Z.shiftr v 1.
Proof.
  intros Hv.
  assert (Hall : forallb (fun n =>
            (Z.shiftr (modify_lsb (Z.of_nat n) true) 1 =? Z.shiftr (Z.of_nat n) 1)
            && (Z.shiftr (modify_lsb (Z.of_nat n) false) 1 =? Z.shiftr (Z.of_nat n) 1))
            (seq 0 256) = true) by (vm_compute; reflexivity).
  rewrite forallb_forall in Hall. specialize (Hall (Z.to_nat v)).
  rewrite Z2Nat.id in Hall by lia.
  specialize (Hall ltac:(apply in_seq; lia)).
  apply andb_true_iff in Hall. destruct bit; lia.
Qed.

Lemma modify_lsb_range v bit : 0 <= v < 256 -> 0 <= modify_lsb v bit < 256.
Proof.
  intros Hv.
  assert (Hall : forallb (fun n =>
            forallb (fun b => (0 <=? modify_lsb (Z.of_nat n) b)
                              && (modify_lsb (Z.of_nat n) b <? 256)) [true; false])
            (seq 0 256) = true) by (vm_compute; reflexivity).
  rewrite forallb_forall in Hall. specialize (Hall (Z.to_nat v)).
  rewrite Z2Nat.id in Hall by lia.
  specialize (Hall ltac:(apply in_seq; lia)).
  rewrite forallb_forall in Hall. specialize (Hall bit).
  specialize (Hall ltac:(destruct bit; cbn; auto)). lia.
Qed.


(** *** Extraction: where the loop stops *)

(** The digit the loop appends for a byte. *)
Definition lsb (pixel_value : Z) : bool := get_lsb pixel_value =? 1.

Definition lsbs (flat_pixels : list Z) : binary := map lsb flat_pixels.

Lemma extract_loop_no_match D : forall flat_pixels acc,
  (forall k, (1 <= k <= length flat_pixels)%nat ->
             endswith (acc ++ lsbs (firstn k flat_pixels)) D = false) ->
  extract_loop D flat_pixels acc = acc ++ lsbs flat_pixels.
Proof.
  induction flat_pixels as [|p rest IH]; intros acc H.
  - cbn. rewrite app_nil_r. reflexivity.
  - cbn [extract_loop]. fold (lsb p).
    pose proof (H 1%nat ltac:(cbn [length]; lia)) as H1.
    cbn [firstn lsbs map] in H1. rewrite H1, IH.
    + rewrite <- app_assoc. reflexivity.
    + intros k Hk. rewrite <- app_assoc.
      apply (H (S k)). cbn [length]. lia.
Qed.

Lemma extract_loop_first_match D : forall flat_pixels acc k,
  (1 <= k <= length flat_pixels)%nat ->
  (forall j, (1 <= j < k)%nat ->
             endswith (acc ++ lsbs (firstn j flat_pixels)) D = false) ->
  endswith (acc ++ lsbs (firstn k flat_pixels)) D = true ->
  extract_loop D flat_pixels acc
  = firstn (length acc + k - length D) (acc ++ lsbs (firstn k flat_pixels)).
Proof.
  induction flat_pixels as [|p rest IH]; intros acc k Hk Hbefore Hat.
  - cbn [length] in Hk. lia.
  - cbn [extract_loop]. fold (lsb p).
    destruct k as [|[|k]]; [lia| |].
    + cbn [firstn lsbs map] in Hat |- *. rewrite Hat.
      rewrite length_app. reflexivity.
    + pose proof (Hbefore 1%nat ltac:(lia)) as H1.
      cbn [firstn lsbs map] in H1. rewrite H1.
      rewrite (IH (acc ++ [lsb p]) (S k)).
      * rewrite length_app, <- app_assoc. cbn [length app firstn lsbs map].
        f_equal. lia.
      * cbn [length] in Hk. lia.
      * intros j Hj. rewrite <- app_assoc. apply (Hbefore (S j)). lia.
      * rewrite <- app_assoc. exact Hat.
Qed.

Lemma binary_to_string_nil : binary_to_string [] = [].
Proof. reflexivity. Qed.

(** [extract_message] decodes whatever the loop leaves. *)
Lemma extract_message_loop fs image_path pixels :
  fs image_path = Some pixels ->
  extract_message fs image_path
  = inr (binary_to_string
           (extract_loop (string_to_binary delimiter) (flat pixels) [])).
Proof.
  intros Hopen. unfold extract_message, open_rgb. rewrite Hopen. cbn [bind ret].
  destruct (extract_loop _ _ _); reflexivity.
Qed.

(** *** The encoding of characters *)

Lemma format_08b_byte c :
  0 <= c < 256 -> length (format_08b c) = 8%nat /\ int_base2 (format_08b c) = c.
Proof.
  intros Hc.
  assert (Hall : forallb (fun n =>
            (length (format_08b (Z.of_nat n)) =? 8)%nat
            && (int_base2 (format_08b (Z.of_nat n)) =? Z.of_nat n))
            (seq 0 256) = true) by (vm_compute; reflexivity).
  rewrite forallb_forall in Hall. specialize (Hall (Z.to_nat c)).
  rewrite Z2Nat.id in Hall by lia.
  specialize (Hall ltac:(apply in_seq; lia)).
  apply andb_true_iff in Hall. destruct Hall as [Hl Hv].
  split; [apply Nat.eqb_eq, Hl | apply Z.eqb_eq, Hv].
Qed.

Lemma string_to_binary_app a b :
  string_to_binary (a ++ b) = string_to_binary a ++ string_to_binary b.
Proof. apply flat_map_app. Qed.

Lemma string_to_binary_length T :
  latin1 T = true -> length (string_to_binary T) = (8 * length T)%nat.
Proof.
  intros HT. apply latin1_Forall in HT.
  induction HT as [|c T Hc _ IH]; [reflexivity|].
  cbn [string_to_binary flat_map]. fold (string_to_binary T).
  rewrite length_app, IH, (proj1 (format_08b_byte c Hc)). cbn [length]. lia.
Qed.

Lemma binary_to_string_string_to_binary T :
  latin1 T = true -> binary_to_string (string_to_binary T) = T.
Proof.
  intros HT. apply latin1_Forall in HT. unfold binary_to_string, string_to_binary.
  rewrite flat_map_concat_map, full_chunks_concat.
  - rewrite map_map. induction HT as [|c T Hc _ IH]; [reflexivity|].
    cbn [map]. rewrite IH, (proj2 (format_08b_byte c Hc)). reflexivity.
  - lia.
  - apply Forall_forall. intros b Hb. apply in_map_iff in Hb.
    destruct Hb as (c & <- & Hc). apply format_08b_byte.
    rewrite Forall_forall in HT. apply HT, Hc.
Qed.

Lemma endswith_app x D : endswith (x ++ D) D = true.
Proof.
  unfold endswith. rewrite length_app.
  replace (length x + length D - length D)%nat with (length x) by lia.
  rewrite skipn_app, Nat.sub_diag, skipn_all. cbn [app skipn].
  apply andb_true_iff. split; [apply Nat.leb_le; lia|].
  induction D as [|b D IH]; [reflexivity|].
  cbn [combine forallb fst snd]. rewrite IH, eqb_reflx. reflexivity.
Qed.

Lemma lsbs_overwrite bits : forall flat_pixels,
  (length bits <= length flat_pixels)%nat ->
  lsbs (overwrite bits flat_pixels) = bits ++ lsbs (skipn (length bits) flat_pixels).
Proof.
  induction bits as [|b bits IH]; intros [|v l] H; cbn [length] in H;
    try lia; try reflexivity.
  cbn [overwrite lsbs map length skipn app]. unfold lsb at 1.
  rewrite get_lsb_modify_lsb. f_equal. apply IH. lia.
Qed.


(** *** Capacity and frame of [hide_message] *)

(** The exception of the capacity check, as it leaves [hide_message]. *)
Definition capacity_error (max_capacity message_size : nat) : exn :=
  Raise Exception
    ("Error hiding message: Message too large for image. Max capacity: "
     ++ str_of_int (Z.of_nat max_capacity) ++ " bits, Message size: "
     ++ str_of_int (Z.of_nat message_size) ++ " bits").

Lemma well_formed_length a : well_formed a = true -> length (flat a) = size a.
Proof.
  unfold well_formed. intros H. apply andb_true_iff in H.
  apply Nat.eqb_eq, H.
Qed.

Lemma well_formed_byte a i v :
  well_formed a = true -> nth_error (flat a) i = Some v -> 0 <= v < 256.
Proof.
  unfold well_formed. intros H Hv. apply andb_true_iff in H. destruct H as [_ H].
  rewrite forallb_forall in H. specialize (H v (nth_error_In _ _ Hv)). lia.
Qed.

Lemma embed_too_large pixels message :
  (size pixels < length (string_to_binary (message ++ delimiter)))%nat ->
  exists e, embed pixels message = inl e /\
            Raise Exception ("Error hiding message: " ++ str e)
            = capacity_error (size pixels)
                (length (string_to_binary (message ++ delimiter))).
Proof.
  intros H. unfold embed. rewrite (proj2 (Nat.ltb_lt _ _) H).
  eexists. split; reflexivity.
Qed.

Lemma embed_fits pixels message :
  length (flat pixels) = size pixels ->
  (length (string_to_binary (message ++ delimiter)) <= size pixels)%nat ->
  embed pixels message
  = inr (Array (shape pixels)
               (overwrite (string_to_binary (message ++ delimiter)) (flat pixels)),
         length (string_to_binary (message ++ delimiter))).
Proof.
  intros Hwf H. unfold embed. rewrite (proj2 (Nat.ltb_ge _ _) H).
  rewrite hide_bits_overwrite by (rewrite Hwf; lia).
  cbn [bind firstn skipn app]. unfold reshape.
  rewrite overwrite_length, Hwf. unfold size.
  destruct (shape pixels) as [[rows cols] chans].
  rewrite Nat.eqb_refl. reflexivity.
Qed.

Lemma save_same fs path a : save fs path a path = Some a.
Proof. unfold save. rewrite String.eqb_refl. reflexivity. Qed.

(** *** [hide_message] and the files *)

Section Files.

(** From the libraries: [thumbnail a] is the array of the image PIL's
    [img.thumbnail((2000, 2000), LANCZOS)] leaves, and [splitext_root p] is
    [os.path.splitext(p)[0]]. *)
Variable thumbnail : ndarray -> ndarray.
Variable splitext_root : string -> string.

(** The pixels [hide_message] works on: the image, downsampled first when a
    side is above 2000. *)
Definition cover_pixels (img : ndarray) : ndarray :=
  let '(rows, cols, _) := shape img in
  if (2000 <? cols)%nat || (2000 <? rows)%nat then thumbnail img else img.

(** [output_path], or the default
    [os.path.splitext(image_path)[0] + "_stego.png"]. *)
Definition stego_path (image_path : string) (output_path : option string) : string :=
  match output_path with
  | Some p => p
  | None => (splitext_root image_path ++ "_stego.png")%string
  end.

Definition hide_message (fs : files) (image_path : string) (message : pystr)
                        (output_path : option string)
  : files * result (string * nat) :=
  match open_rgb fs image_path with
  | inl e => (fs, rewrap "Error hiding message: " (inl e))
  | inr img =>
      match embed (cover_pixels img) message with
      | inl e => (fs, rewrap "Error hiding message: " (inl e))
      | inr (modified_pixels, hidden_bits) =>
          let output_path := stego_path image_path output_path in
          (save fs output_path modified_pixels, ret (output_path, hidden_bits))
      end
  end.


Lemma hide_message_fits fs image_path img message output_path :
  fs image_path = Some img ->
  well_formed (cover_pixels img) = true ->
  (length (string_to_binary (message ++ delimiter)) <= size (cover_pixels img))%nat ->
  hide_message fs image_path message output_path
  = (save fs (stego_path image_path output_path)
          (Array (shape (cover_pixels img))
                 (overwrite (string_to_binary (message ++ delimiter))
                            (flat (cover_pixels img)))),
     inr (stego_path image_path output_path,
          length (string_to_binary (message ++ delimiter)))).
Proof.
  intros Hopen Hwf Hfit. unfold hide_message, open_rgb.
  rewrite Hopen. cbn [ret].
  rewrite embed_fits by (try apply well_formed_length; assumption).
  reflexivity.
Qed.

Lemma hide_message_too_large fs image_path img message output_path :
  fs image_path = Some img ->
  (size (cover_pixels img) < length (string_to_binary (message ++ delimiter)))%nat ->
  hide_message fs image_path message output_path
  = (fs, inl (capacity_error (size (cover_pixels img))
                (length (string_to_binary (message ++ delimiter))))).
Proof.
  intros Hopen Hbig. unfold hide_message, open_rgb.
  rewrite Hopen. cbn [ret].
  destruct (embed_too_large (cover_pixels img) message Hbig) as (e & -> & <-).
  reflexivity.
Qed.

(** C5: [hide_message] raises the capacity error exactly when the bits of
    the message and the delimiter are more than the channel bytes of the
    image it embeds into; the files are then as they were.  With as many
    bits as bytes, or fewer, it saves the stego image and returns. *)
Theorem hide_message_capacity fs image_path img message output_path :
  fs image_path = Some img ->
  well_formed (cover_pixels img) = true ->
  let n := length (string_to_binary (message ++ delimiter)) in
  let cap := size (cover_pixels img) in
  (snd (hide_message fs image_path message output_path)
   = inl (capacity_error cap n) <-> (cap < n)%nat) /\
  ((cap < n)%nat -> fst (hide_message fs image_path message output_path) = fs) /\
  ((n <= cap)%nat ->
   exists stego,
     hide_message fs image_path message output_path
     = (save fs (stego_path image_path output_path) stego,
        inr (stego_path image_path output_path, n))).
Proof.
  intros Hopen Hwf n cap. repeat split.
  - intros Herr. destruct (Nat.lt_ge_cases cap n) as [Hlt|Hge]; [exact Hlt|].
    rewrite (hide_message_fits _ _ _ _ _ Hopen Hwf Hge) in Herr. discriminate Herr.
  - intros Hlt. rewrite (hide_message_too_large _ _ _ _ _ Hopen Hlt). reflexivity.
  - intros Hlt. rewrite (hide_message_too_large _ _ _ _ _ Hopen Hlt). reflexivity.
  - intros Hge. eexists. apply (hide_message_fits _ _ _ _ _ Hopen Hwf Hge).
Qed.

(** C6: when [hide_message] succeeds with [n] bits, the saved array has the
    shape of the cover pixels; each of its first [n] bytes, in flattening
    order, is the cover byte with the seven high bits kept and the low bit
    set to the message bit; every byte from index [n] on is the cover
    byte. *)
Theorem hide_message_frame fs image_path img message output_path fs' out n :
  fs image_path = Some img ->
  well_formed (cover_pixels img) = true ->
  hide_message fs image_path message output_path = (fs', inr (out, n)) ->
  exists stego,
    fs' out = Some stego /\
    n = length (string_to_binary (message ++ delimiter)) /\
    shape stego = shape (cover_pixels img) /\
    length (flat stego) = length (flat (cover_pixels img)) /\
    (forall i v bit,
        nth_error (flat (cover_pixels img)) i = Some v ->
        nth_error (string_to_binary (message ++ delimiter)) i = Some bit ->
        exists v', nth_error (flat stego) i = Some v' /\
                   Z.shiftr v' 1 = Z.shiftr v 1 /\ lsb v' = bit) /\
    (forall i, (n <= i)%nat ->
        nth_error (flat stego) i = nth_error (flat (cover_pixels img)) i).
Proof.
  intros Hopen Hwf Hhide.
  destruct (Nat.lt_ge_cases (size (cover_pixels img))
              (length (string_to_binary (message ++ delimiter)))) as [Hlt|Hge].
  { rewrite (hide_message_too_large _ _ _ _ _ Hopen Hlt) in Hhide.
    discriminate Hhide. }
  rewrite (hide_message_fits _ _ _ _ _ Hopen Hwf Hge) in Hhide.
  injection Hhide as <- <- <-.
  eexists. split; [apply save_same|]. cbn [shape flat].
  split; [reflexivity|]. split; [reflexivity|].
  split; [apply overwrite_length|]. split.
  - intros i v bit Hv Hbit. exists (modify_lsb v bit).
    split; [apply overwrite_nth_low; assumption|]. split.
    + apply modify_lsb_high_bits, (well_formed_byte _ i _ Hwf Hv).
    + apply get_lsb_modify_lsb.
  - intros i Hi. apply overwrite_nth_high, Hi.
Qed.


(** The same frame by coordinates: a channel whose place in the row-major,
    channel-minor order is at or after the bit count is untouched. *)
Lemma hide_message_frame_channel fs image_path img message output_path fs' out n
      stego y x c :
  fs image_path = Some img ->
  well_formed (cover_pixels img) = true ->
  hide_message fs image_path message output_path = (fs', inr (out, n)) ->
  fs' out = Some stego ->
  (n <= (y * snd (fst (shape (cover_pixels img))) + x)
        * snd (shape (cover_pixels img)) + c)%nat ->
  channel stego y x c = channel (cover_pixels img) y x c.
Proof.
  intros Hopen Hwf Hhide Hout Hidx.
  destruct (Nat.lt_ge_cases (size (cover_pixels img))
              (length (string_to_binary (message ++ delimiter)))) as [Hlt|Hge].
  { rewrite (hide_message_too_large _ _ _ _ _ Hopen Hlt) in Hhide.
    discriminate Hhide. }
  rewrite (hide_message_fits _ _ _ _ _ Hopen Hwf Hge) in Hhide.
  injection Hhide as <- <- <-. rewrite save_same in Hout. injection Hout as <-.
  unfold channel. cbn [shape flat].
  destruct (shape (cover_pixels img)) as [[rows cols] chans].
  cbn [fst snd] in Hidx. apply overwrite_nth_high, Hidx.
Qed.

(** The only place where the bits of the message and the delimiter end with
    the delimiter pattern is their end: no shorter prefix, at any bit
    offset, does. *)
Definition delimiter_only_at_end (message : pystr) : bool :=
  let bits := string_to_binary (message ++ delimiter) in
  forallb (fun k => negb (endswith (firstn k bits) (string_to_binary delimiter)))
          (seq 1 (length bits - 1)).

(** C2, as the code has it: when the message has characters below 256 only,
    the delimiter pattern occurs in its bits and the delimiter's nowhere
    before the end, and the cover pixels are at least as many as those bits,
    [extract_message] on the image [hide_message] saved gives the message. *)
Theorem extract_hide_message fs image_path img message output_path :
  fs image_path = Some img ->
  well_formed (cover_pixels img) = true ->
  latin1 message = true ->
  delimiter_only_at_end message = true ->
  (length (string_to_binary (message ++ delimiter)) <= size (cover_pixels img))%nat ->
  exists fs' out n,
    hide_message fs image_path message output_path = (fs', inr (out, n)) /\
    extract_message fs' out = inr message.
Proof.
  intros Hopen Hwf Hlatin Honly Hfit.
  rewrite (hide_message_fits _ _ _ _ _ Hopen Hwf Hfit).
  do 3 eexists. split; [reflexivity|].
  rewrite (extract_message_loop _ _ _ (save_same _ _ _)). cbn [flat].
  set (bits := string_to_binary (message ++ delimiter)) in *.
  set (D := string_to_binary delimiter) in *.
  assert (Hlen : (length bits <= length (flat (cover_pixels img)))%nat)
    by (rewrite (well_formed_length _ Hwf); exact Hfit).
  assert (Hbits : bits = string_to_binary message ++ D)
    by apply string_to_binary_app.
  assert (Hpre : forall k, (k <= length bits)%nat ->
             lsbs (firstn k (overwrite bits (flat (cover_pixels img))))
             = firstn k bits).
  { intros k Hk. unfold lsbs. rewrite <- firstn_map.
    fold (lsbs (overwrite bits (flat (cover_pixels img)))).
    rewrite lsbs_overwrite by exact Hlen.
    rewrite firstn_app. replace (k - length bits)%nat with 0%nat by lia.
    rewrite firstn_O, app_nil_r. reflexivity. }
  assert (HD : (0 < length D)%nat) by (vm_compute; lia).
  assert (Hpos : (1 <= length bits)%nat)
    by (rewrite Hbits, length_app; lia).
  rewrite (extract_loop_first_match D _ [] (length bits)).
  - cbn [app length]. rewrite Hpre, firstn_all by lia.
    rewrite Nat.add_0_l, Hbits, length_app, Nat.add_sub, firstn_app, Nat.sub_diag.
    rewrite firstn_O, app_nil_r, firstn_all.
    rewrite (binary_to_string_string_to_binary _ Hlatin). reflexivity.
  - rewrite overwrite_length. lia.
  - intros j Hj. cbn [app]. rewrite Hpre by lia.
    unfold delimiter_only_at_end in Honly. fold bits D in Honly.
    rewrite forallb_forall in Honly.
    specialize (Honly j ltac:(apply in_seq; lia)).
    apply negb_true_iff, Honly.
  - cbn [app]. rewrite Hpre, firstn_all, Hbits by lia. apply endswith_app.
Qed.

End Files.


(** *** The payloads of the pipeline

    The orchestrator hides strings of the digits 0 and 1 only.  In the bits
    of such a string and the delimiter, the first byte of the delimiter
    pattern, 00100011, starts nowhere inside the string: the condition of
    the round trip holds for every such payload. *)

Lemma firstn_skipn_app_front {A} (a b : nat) (l1 l2 : list A) :
  (a + b <= length l1)%nat ->
  firstn a (skipn b (l1 ++ l2)) = firstn a (skipn b l1).
Proof.
  intros H. rewrite skipn_app, firstn_app, length_skipn.
  replace (b - length l1)%nat with 0%nat by lia.
  replace (a - (length l1 - b))%nat with 0%nat by lia.
  rewrite firstn_O, app_nil_r. reflexivity.
Qed.

Lemma binary_digit_cases c : SDES.is_binary_digit c = true -> c = 48 \/ c = 49.
Proof. unfold SDES.is_binary_digit. lia. Qed.

Lemma no_delimiter_start_in_two_bytes c x s0 :
  c = 48 \/ c = 49 -> x = 48 \/ x = 49 \/ x = 35 -> (s0 < 8)%nat ->
  firstn 8 (skipn s0 (format_08b c ++ format_08b x)) <> format_08b 35.
Proof.
  intros Hc Hx Hs.
  assert (Hall : forallb (fun c => forallb (fun x => forallb (fun s0 =>
            negb (forallb (fun p => Bool.eqb (fst p) (snd p))
                    (combine (firstn 8 (skipn s0 (format_08b c ++ format_08b x)))
                             (format_08b 35))))
            (seq 0 8)) [48; 49; 35]) [48; 49] = true) by (vm_compute; reflexivity).
  assert (Hcin : In c [48; 49]) by (destruct Hc as [-> | ->]; cbn; auto).
  assert (Hxin : In x [48; 49; 35])
    by (destruct Hx as [-> | [-> | ->]]; cbn; auto).
  rewrite forallb_forall in Hall.
  specialize (Hall c Hcin). rewrite forallb_forall in Hall.
  specialize (Hall x Hxin). rewrite forallb_forall in Hall.
  specialize (Hall s0 ltac:(apply in_seq; lia)).
  apply negb_true_iff in Hall. intros Heq. rewrite Heq in Hall.
  vm_compute in Hall. discriminate Hall.
Qed.

Lemma no_delimiter_start m :
  forallb SDES.is_binary_digit m = true ->
  forall s0, (s0 < 8 * length m)%nat ->
  firstn 8 (skipn s0 (string_to_binary (m ++ delimiter))) <> format_08b 35.
Proof.
  induction m as [|c m IH]; intros Hm s0 Hs; [cbn [length] in Hs; lia|].
  cbn [forallb] in Hm. apply andb_true_iff in Hm. destruct Hm as [Hc Hm].
  apply binary_digit_cases in Hc.
  assert (Hlen : length (format_08b c) = 8%nat)
    by (destruct Hc as [-> | ->]; reflexivity).
  change ((c :: m) ++ delimiter) with (c :: (m ++ delimiter)).
  cbn [string_to_binary flat_map]. fold (string_to_binary (m ++ delimiter)).
  destruct (Nat.lt_ge_cases s0 8) as [Hlt|Hge].
  - assert (Hnext : exists x rest, (x = 48 \/ x = 49 \/ x = 35) /\
               string_to_binary (m ++ delimiter) = format_08b x ++ rest).
    { destruct m as [|c' m'].
      - exists 35, (string_to_binary (skipn 1 delimiter)). split; [tauto|reflexivity].
      - cbn [forallb] in Hm. apply andb_true_iff in Hm. destruct Hm as [Hc' _].
        apply binary_digit_cases in Hc'.
        exists c', (string_to_binary (m' ++ delimiter)). split; [tauto|reflexivity]. }
    destruct Hnext as (x & rest & Hx & ->).
    assert (Hlenx : length (format_08b x) = 8%nat)
      by (destruct Hx as [-> | [-> | ->]]; reflexivity).
    rewrite app_assoc, firstn_skipn_app_front
      by (rewrite length_app, Hlen, Hlenx; lia).
    apply no_delimiter_start_in_two_bytes; assumption.
  - rewrite skipn_app, Hlen, skipn_all2 by lia. cbn [app].
    apply IH; [assumption|]. cbn [length] in Hs. lia.
Qed.

Lemma endswith_true s d : endswith s d = true -> skipn (length s - length d) s = d.
Proof.
  unfold endswith. intros H. apply andb_true_iff in H. destruct H as [Hle Heq].
  apply Nat.leb_le in Hle.
  assert (Hlen : length (skipn (length s - length d) s) = length d)
    by (rewrite length_skipn; lia).
  revert Hlen Heq. generalize (skipn (length s - length d) s). clear.
  intros l. revert d. induction l as [|a l IH]; intros [|b d] Hlen Heq;
    try discriminate Hlen; [reflexivity|].
  cbn [combine forallb fst snd] in Heq. apply andb_true_iff in Heq.
  destruct Heq as [Hab Heq]. apply eqb_prop in Hab. subst b.
  f_equal. apply IH; [|assumption]. cbn [length] in Hlen. lia.
Qed.

Lemma binary_digits_latin1 m : forallb SDES.is_binary_digit m = true -> latin1 m = true.
Proof.
  unfold latin1. rewrite !forallb_forall. intros H c Hc.
  specialize (H c Hc). apply binary_digit_cases in H. lia.
Qed.

Lemma binary_payload_delimiter_only_at_end m :
  forallb SDES.is_binary_digit m = true -> delimiter_only_at_end m = true.
Proof.
  intros Hm. unfold delimiter_only_at_end. apply forallb_forall. intros j Hj.
  apply in_seq in Hj. apply negb_true_iff.
  destruct (endswith _ _) eqn:Hends; [exfalso|reflexivity].
  assert (HN : length (string_to_binary (m ++ delimiter)) = (8 * length m + 72)%nat).
  { rewrite string_to_binary_length.
    - rewrite length_app. change (length delimiter) with 9%nat. lia.
    - unfold latin1. rewrite forallb_app. fold (latin1 m).
      rewrite (binary_digits_latin1 m Hm). reflexivity. }
  set (bits := string_to_binary (m ++ delimiter)) in *.
  assert (Hj' : length (firstn j bits) = j) by (rewrite length_firstn; lia).
  pose proof Hends as Hle. unfold endswith in Hle.
  apply andb_true_iff in Hle. destruct Hle as [Hle _]. apply Nat.leb_le in Hle.
  apply endswith_true in Hends. rewrite Hj' in Hends, Hle.
  change (length (string_to_binary delimiter)) with 72%nat in Hends, Hle.
  apply (f_equal (firstn 8)) in Hends.
  rewrite skipn_firstn_comm, firstn_firstn in Hends.
  replace (Nat.min 8 (j - (j - 72)))%nat with 8%nat in Hends by lia.
  change (firstn 8 (string_to_binary delimiter)) with (format_08b 35) in Hends.
  apply (no_delimiter_start m Hm (j - 72)); [lia|exact Hends].
Qed.

(** *** Where extraction stops, and what it returns without a delimiter *)

(** The buffer of the first [k] bits is the first to end with the
    delimiter pattern [D]. *)
Definition first_match (D bits : binary) (k : nat) : bool :=
  (1 <=? k)%nat && (k <=? length bits)%nat
  && endswith (firstn k bits) D
  && forallb (fun j => negb (endswith (firstn j bits) D)) (seq 1 (k - 1)).

(** No buffer ends with the delimiter pattern. *)
Definition no_match (D bits : binary) : bool :=
  forallb (fun j => negb (endswith (firstn j bits) D)) (seq 1 (length bits)).

Lemma lsbs_firstn k flat_pixels :
  lsbs (firstn k flat_pixels) = firstn k (lsbs flat_pixels).
Proof. unfold lsbs. symmetry. apply firstn_map. Qed.

(** C7, as the code has it: the buffer is compared with the delimiter after
    every bit, whatever its length; extraction stops at the first length [k]
    at which the buffer ends with the delimiter pattern, drops those bits
    and decodes the [k - len(delimiter bits)] bits before them. *)
Theorem extract_message_first_match fs image_path pixels k :
  fs image_path = Some pixels ->
  first_match (string_to_binary delimiter) (lsbs (flat pixels)) k = true ->
  extract_message fs image_path
  = inr (binary_to_string
           (firstn (k - length (string_to_binary delimiter)) (lsbs (flat pixels)))).
Proof.
  intros Hopen Hk. unfold first_match in Hk.
  apply andb_true_iff in Hk. destruct Hk as [Hk Hbefore].
  apply andb_true_iff in Hk. destruct Hk as [Hk Hat].
  apply andb_true_iff in Hk. destruct Hk as [H1 Hle].
  apply Nat.leb_le in H1, Hle. unfold lsbs in Hle. rewrite length_map in Hle.
  rewrite (extract_message_loop _ _ _ Hopen).
  rewrite (extract_loop_first_match _ _ [] k).
  - cbn [app length]. rewrite lsbs_firstn, firstn_firstn, Nat.add_0_l.
    rewrite Nat.min_l by lia. reflexivity.
  - lia.
  - intros j Hj. cbn [app]. rewrite lsbs_firstn.
    rewrite forallb_forall in Hbefore.
    apply negb_true_iff, Hbefore, in_seq. lia.
  - cbn [app]. rewrite lsbs_firstn. exact Hat.
Qed.

(** The decoding takes the bits 8 at a time and drops a last group of fewer
    than 8. *)
Lemma binary_to_string_groups (bytes : list binary) (tail : binary) :
  Forall (fun b => length b = 8%nat) bytes -> (length tail < 8)%nat ->
  binary_to_string (concat bytes ++ tail) = map int_base2 bytes.
Proof.
  intros Hbytes Htail. unfold binary_to_string. f_equal.
  induction Hbytes as [|b bytes Hb _ IH]; cbn [concat app].
  - apply full_chunks_short, Htail.
  - rewrite <- app_assoc, full_chunks_app, IH by (try lia; assumption).
    reflexivity.
Qed.

(** Without a delimiter in the low bits the loop runs to the end and
    [extract_message] decodes all of them: one character for every 8 bytes
    of the image. *)
Lemma extract_message_no_delimiter fs image_path pixels :
  fs image_path = Some pixels ->
  no_match (string_to_binary delimiter) (lsbs (flat pixels)) = true ->
  extract_message fs image_path = inr (binary_to_string (lsbs (flat pixels))).
Proof.
  intros Hopen Hno. rewrite (extract_message_loop _ _ _ Hopen).
  rewrite extract_loop_no_match; [reflexivity|].
  intros k Hk. cbn [app]. rewrite lsbs_firstn.
  unfold no_match in Hno. rewrite forallb_forall in Hno.
  apply negb_true_iff, Hno, in_seq. unfold lsbs. rewrite length_map. lia.
Qed.

Lemma full_chunks_count {A} (n : nat) (l : list A) :
  (0 < n)%nat -> length (full_chunks n l) = (length l / n)%nat.
Proof.
  intros Hn. revert l. apply (block_ind n); [assumption| |].
  - intros l Hl. rewrite full_chunks_short, Nat.div_small by assumption.
    reflexivity.
  - intros b l Hb IH. rewrite full_chunks_app by assumption.
    cbn [length]. rewrite IH, length_app, Hb.
    replace (n + length l)%nat with (length l + 1 * n)%nat by lia.
    rewrite Nat.div_add by lia. lia.
Qed.

Lemma binary_to_string_length b : length (binary_to_string b) = (length b / 8)%nat.
Proof.
  unfold binary_to_string. rewrite length_map. apply full_chunks_count. lia.
Qed.

(** So an image of 8 bytes or more without the delimiter pattern never gives
    the empty result. *)
Lemma extract_message_no_delimiter_nonempty fs image_path pixels :
  fs image_path = Some pixels ->
  no_match (string_to_binary delimiter) (lsbs (flat pixels)) = true ->
  (8 <= length (flat pixels))%nat ->
  exists text, extract_message fs image_path = inr text /\ text <> [].
Proof.
  intros Hopen Hno Hlen. eexists.
  split; [apply (extract_message_no_delimiter _ _ _ Hopen Hno)|].
  intros Hnil. apply (f_equal (@length Z)) in Hnil.
  rewrite binary_to_string_length in Hnil. unfold lsbs in Hnil.
  rewrite length_map in Hnil. cbn [length] in Hnil.
  pose proof (Nat.Div0.div_le_mono 8 (length (flat pixels)) 8 Hlen) as Hdiv.
  rewrite Nat.div_same in Hdiv by lia. lia.
Qed.

(** *** Concrete images *)

(** An all-zero RGB image. *)
Definition zeros (rows cols : nat) : ndarray :=
  Array (rows, cols, 3%nat) (repeat 0 (rows * cols * 3)).

(** An image whose low bits are the given ones, in one row. *)
Definition image_of_bits (cols : nat) (bits : binary) : ndarray :=
  Array (1%nat, cols, 3%nat) (map Z.b2z bits).

Definition one_file (path : string) (a : ndarray) : files :=
  save (fun _ => None) path a.

(** Stand-ins for the library functions on the small images below:
    [thumbnail] is not called on them, and the root of [cover.png] is
    [cover]. *)
Definition keep (a : ndarray) : ndarray := a.
Definition cover_root (p : string) : string := "cover".

(** C1 on the code: an all-zero 4x4 RGB image has no delimiter in its low
    bits, and [extract_message] does not raise, but what it returns is not
    empty: it is the six NUL characters its 48 zero bits decode to. *)
Theorem extract_message_unmodified_image :
  no_match (string_to_binary delimiter) (lsbs (flat (zeros 4 4))) = true /\
  extract_message (one_file "cover.png" (zeros 4 4)) "cover.png"
  = inr [0; 0; 0; 0; 0; 0].
Proof. split; vm_compute; reflexivity. Qed.

(** Scenario C: "HI" and the delimiter are 88 bits, the 4x4 image has 48
    bytes. *)
Lemma hide_message_capacity_witness :
  (snd (hide_message keep cover_root (one_file "cover.png" (zeros 4 4))
          "cover.png" (lit "HI") None)
   = inl (capacity_error 48 88) <-> (48 < 88)%nat) /\
  ((48 < 88)%nat ->
   fst (hide_message keep cover_root (one_file "cover.png" (zeros 4 4))
          "cover.png" (lit "HI") None)
   = one_file "cover.png" (zeros 4 4)) /\
  ((88 <= 48)%nat ->
   exists stego,
     hide_message keep cover_root (one_file "cover.png" (zeros 4 4))
       "cover.png" (lit "HI") None
     = (save (one_file "cover.png" (zeros 4 4))
             (stego_path cover_root "cover.png" None) stego,
        inr (stego_path cover_root "cover.png" None, 88%nat))).
Proof.
  exact (hide_message_capacity keep cover_root
           (one_file "cover.png" (zeros 4 4)) "cover.png" (zeros 4 4)
           (lit "HI") None eq_refl eq_refl).
Defined.


(** "HI" in an all-zero 1x40 image of 120 bytes. *)
Definition cover_1x40 : files := one_file "cover.png" (zeros 1 40).

Lemma hide_message_frame_witness :
  exists stego,
    fst (hide_message keep cover_root cover_1x40 "cover.png" (lit "HI")
           (Some "stego.png"%string)) "stego.png"%string = Some stego /\
    88%nat = length (string_to_binary (lit "HI" ++ delimiter)) /\
    shape stego = shape (cover_pixels keep (zeros 1 40)) /\
    length (flat stego) = length (flat (cover_pixels keep (zeros 1 40))) /\
    (forall i v bit,
        nth_error (flat (cover_pixels keep (zeros 1 40))) i = Some v ->
        nth_error (string_to_binary (lit "HI" ++ delimiter)) i = Some bit ->
        exists v', nth_error (flat stego) i = Some v' /\
                   Z.shiftr v' 1 = Z.shiftr v 1 /\ lsb v' = bit) /\
    (forall i, (88 <= i)%nat ->
        nth_error (flat stego) i
        = nth_error (flat (cover_pixels keep (zeros 1 40))) i).
Proof.
  apply (hide_message_frame keep cover_root cover_1x40 "cover.png" (zeros 1 40)
           (lit "HI") (Some "stego.png"%string)); reflexivity.
Defined.

Lemma extract_hide_message_witness :
  exists fs' out n,
    hide_message keep cover_root cover_1x40 "cover.png" (lit "HI")
      (Some "stego.png"%string) = (fs', inr (out, n)) /\
    extract_message fs' out = inr (lit "HI").
Proof.
  apply (extract_hide_message keep cover_root cover_1x40 "cover.png" (zeros 1 40)
           (lit "HI") (Some "stego.png"%string));
    solve [reflexivity | vm_compute; lia].
Defined.

(** C2 as stated fails on a message that contains the delimiter: the 160
    bits of [A###END###B] and the delimiter fit the 162 bytes of a 1x54
    image, and extraction stops at the delimiter inside the message. *)
Lemma extract_hide_message_delimiter_inside :
  (length (string_to_binary (lit "A###END###B" ++ delimiter))
   <= size (zeros 1 54))%nat /\
  exists fs' out n,
    hide_message keep cover_root (one_file "cover.png" (zeros 1 54)) "cover.png"
      (lit "A###END###B") (Some "stego.png"%string) = (fs', inr (out, n)) /\
    extract_message fs' out = inr (lit "A") /\
    extract_message fs' out <> inr (lit "A###END###B").
Proof.
  split; [vm_compute; lia|].
  do 3 eexists. split; [reflexivity|]. split; [vm_compute; reflexivity|].
  vm_compute. discriminate.
Qed.

(** Nor does it hold for a character that [format(ord(c), '08b')] writes
    with more than 8 digits. *)
Example extract_hide_message_wide_char :
  exists fs' out n,
    hide_message keep cover_root cover_1x40 "cover.png" [256]
      (Some "stego.png"%string) = (fs', inr (out, n)) /\
    n = 81%nat /\ extract_message fs' out = inr [128].
Proof. do 3 eexists. repeat split; vm_compute; reflexivity. Qed.

(** A one-row image whose low bits are one 0, the delimiter pattern, seven
    0s, the delimiter pattern again and one more 0: 153 bytes. *)
Definition shifted_delimiter : ndarray :=
  image_of_bits 51
    ([false] ++ string_to_binary delimiter ++ repeat false 7
     ++ string_to_binary delimiter ++ [false]).

Lemma extract_message_first_match_witness :
  extract_message (one_file "stego.png" shifted_delimiter) "stego.png"
  = inr (binary_to_string
           (firstn (73 - length (string_to_binary delimiter))
                   (lsbs (flat shifted_delimiter)))).
Proof.
  apply (extract_message_first_match (one_file "stego.png" shifted_delimiter)
           "stego.png" shifted_delimiter 73); reflexivity.
Defined.

(** Extraction as the specification words it, for comparison: the buffer is
    compared with the delimiter only when its length is a multiple of 8. *)
Fixpoint extract_loop_bytewise (delimiter_binary : binary) (flat_pixels : list Z)
                               (binary_message : binary) : binary :=
  match flat_pixels with
  | [] => binary_message
  | pixel_value :: rest =>
      let binary_message := binary_message ++ [get_lsb pixel_value =? 1] in
      if (length binary_message mod 8 =? 0)%nat
         && endswith binary_message delimiter_binary
      then firstn (length binary_message - length delimiter_binary) binary_message
      else extract_loop_bytewise delimiter_binary rest binary_message
  end.

(** C7 as stated fails: on [shifted_delimiter] the loop of the code stops
    with a buffer of 73 bits, which is not a whole number of bytes, and
    decodes the one bit before the delimiter to the empty string; comparing
    only after whole bytes would pass that place, stop at bit 152 and leave
    80 bits. *)
Lemma extract_message_stops_inside_byte :
  first_match (string_to_binary delimiter) (lsbs (flat shifted_delimiter)) 73 = true /\
  (73 mod 8 <> 0)%nat /\
  extract_loop (string_to_binary delimiter) (flat shifted_delimiter) [] = [false] /\
  extract_message (one_file "stego.png" shifted_delimiter) "stego.png" = inr [] /\
  length (extract_loop_bytewise (string_to_binary delimiter)
                                (flat shifted_delimiter) []) = 80%nat /\
  extract_loop (string_to_binary delimiter) (flat shifted_delimiter) []
  <> extract_loop_bytewise (string_to_binary delimiter) (flat shifted_delimiter) [].
Proof.
  split; [vm_compute; reflexivity|]. split; [vm_compute; lia|].
  split; [vm_compute; reflexivity|]. split; [vm_compute; reflexivity|].
  split; [vm_compute; reflexivity|]. vm_compute. discriminate.
Qed.

(** *** Further properties of the class *)

Lemma uint8_forall (P : Z -> bool) :
  forallb (fun n => P (Z.of_nat n)) (seq 0 256) = true ->
  forall v, 0 <= v < 256 -> P v = true.
Proof.
  intros Hall v Hv. rewrite forallb_forall in Hall.
  specialize (Hall (Z.to_nat v)). rewrite Z2Nat.id in Hall by lia.
  apply Hall, in_seq. lia.
Qed.

(** X18: The encoding is eight digits for each character below 256, and the
    decoding reads them back, dropping up to seven digits left over at the
    end. *)
Theorem binary_to_string_drops_tail (text : pystr) (tail : binary) :
  latin1 text = true -> (length tail < 8)%nat ->
  length (string_to_binary text) = (8 * length text)%nat /\
  binary_to_string (string_to_binary text ++ tail) = text.
Proof.
  intros HT Htail. split; [apply string_to_binary_length, HT|].
  apply latin1_Forall in HT.
  unfold string_to_binary. rewrite flat_map_concat_map.
  rewrite binary_to_string_groups.
  - rewrite map_map. induction HT as [|c T Hc _ IH]; [reflexivity|].
    cbn [map]. rewrite IH, (proj2 (format_08b_byte c Hc)). reflexivity.
  - apply Forall_forall. intros b Hb. apply in_map_iff in Hb.
    destruct Hb as (c & <- & Hc). apply format_08b_byte.
    rewrite Forall_forall in HT. apply HT, Hc.
  - exact Htail.
Qed.

Lemma binary_to_string_drops_tail_witness :
  length (string_to_binary (lit "HI")) = (8 * length (lit "HI"))%nat /\
  binary_to_string (string_to_binary (lit "HI") ++ [true; false; true]) = lit "HI".
Proof.
  apply (binary_to_string_drops_tail (lit "HI") [true; false; true]).
  - reflexivity.
  - cbn. lia.
Defined.

(** X19: On a [uint8], [modify_lsb] sets the low bit to the message bit, moves
    the value by at most 1 without leaving the range, and changes nothing
    when the low bit is the message bit already. *)
Theorem modify_lsb_one_bit (pixel_value : Z) (bit : bool) :
  0 <= pixel_value < 256 ->
  get_lsb (modify_lsb pixel_value bit) = Z.b2z bit /\
  0 <= modify_lsb pixel_value bit < 256 /\
  Z.abs (modify_lsb pixel_value bit - pixel_value) <= 1 /\
  (get_lsb pixel_value = Z.b2z bit -> modify_lsb pixel_value bit = pixel_value).
Proof.
  intros Hv.
  pose (check := fun v =>
    forallb (fun b =>
      (get_lsb (modify_lsb v b) =? Z.b2z b)
      && (0 <=? modify_lsb v b) && (modify_lsb v b <? 256)
      && (Z.abs (modify_lsb v b - v) <=? 1)
      && implb (get_lsb v =? Z.b2z b) (modify_lsb v b =? v)) [true; false]).
  assert (Hall : check pixel_value = true)
    by (apply uint8_forall; [vm_compute; reflexivity|exact Hv]).
  unfold check in Hall. rewrite forallb_forall in Hall.
  specialize (Hall bit ltac:(destruct bit; cbn; auto)).
  rewrite !andb_true_iff in Hall.
  destruct Hall as [[[[H1 H2] H3] H4] H5].
  split; [lia|]. split; [lia|]. split; [lia|].
  intros Hsame. rewrite (proj2 (Z.eqb_eq _ _) Hsame) in H5. cbn [implb] in H5. lia.
Qed.

Lemma modify_lsb_one_bit_witness :
  get_lsb (modify_lsb 200 true) = Z.b2z true /\
  0 <= modify_lsb 200 true < 256 /\
  Z.abs (modify_lsb 200 true - 200) <= 1 /\
  (get_lsb 200 = Z.b2z true -> modify_lsb 200 true = 200).
Proof.
  apply (modify_lsb_one_bit 200 true). lia.
Defined.

Lemma extract_loop_lsbs D : forall l1 l2 acc,
  lsbs l1 = lsbs l2 -> extract_loop D l1 acc = extract_loop D l2 acc.
Proof.
  induction l1 as [|p l1 IH]; intros [|q l2] acc H; try discriminate H;
    [reflexivity|].
  cbn [lsbs map] in H. injection H as Hpq H.
  cbn [extract_loop]. fold (lsb p) (lsb q). rewrite Hpq.
  destruct (endswith _ _); [reflexivity|]. apply IH, H.
Qed.

Lemma extract_loop_length D : forall l acc,
  (length (extract_loop D l acc) <= length acc + length l)%nat.
Proof.
  induction l as [|p l IH]; intros acc; cbn [extract_loop length]; [lia|].
  destruct (endswith _ _).
  - rewrite length_firstn, length_app. cbn [length]. lia.
  - specialize (IH (acc ++ [get_lsb p =? 1])). rewrite length_app in IH.
    cbn [length] in IH. lia.
Qed.

(** X20: [extract_message] reads the least-significant bits only: two images
    with the same low bits give the same text, whatever their other bits
    are.  On an image that exists it does not raise, and it returns at most
    one character for every 8 channel bytes. *)
Theorem extract_message_reads_low_bits fs1 fs2 path1 path2 pixels1 pixels2 :
  fs1 path1 = Some pixels1 -> fs2 path2 = Some pixels2 ->
  lsbs (flat pixels1) = lsbs (flat pixels2) ->
  extract_message fs1 path1 = extract_message fs2 path2 /\
  exists text, extract_message fs1 path1 = inr text /\
               (8 * length text <= length (flat pixels1))%nat.
Proof.
  intros H1 H2 Hlsb.
  rewrite (extract_message_loop _ _ _ H1), (extract_message_loop _ _ _ H2).
  rewrite (extract_loop_lsbs _ _ _ [] Hlsb). split; [reflexivity|].
  eexists. split; [reflexivity|].
  rewrite binary_to_string_length.
  pose proof (extract_loop_length (string_to_binary delimiter) (flat pixels2) [])
    as Hlen.
  cbn [length] in Hlen.
  assert (Hsame : length (flat pixels1) = length (flat pixels2)).
  { apply (f_equal (@length bool)) in Hlsb. unfold lsbs in Hlsb.
    rewrite !length_map in Hlsb. exact Hlsb. }
  pose proof (Nat.Div0.mul_div_le
                (length (extract_loop (string_to_binary delimiter)
                                      (flat pixels2) [])) 8).
  lia.
Qed.

(** Two 1x3 images with the same low bits and different high bits. *)
Definition busy_1x3 : ndarray := Array (1, 3, 3)%nat [2; 4; 7; 9; 12; 255; 0; 1; 3].
Definition plain_1x3 : ndarray := Array (1, 3, 3)%nat [0; 0; 1; 1; 0; 1; 0; 1; 1].

Lemma extract_message_reads_low_bits_witness :
  extract_message (one_file "a.png" busy_1x3) "a.png"
  = extract_message (one_file "b.png" plain_1x3) "b.png" /\
  exists text,
    extract_message (one_file "a.png" busy_1x3) "a.png" = inr text /\
    (8 * length text <= length (flat busy_1x3))%nat.
Proof.
  exact (extract_message_reads_low_bits
           (one_file "a.png" busy_1x3) (one_file "b.png" plain_1x3)
           "a.png" "b.png" busy_1x3 plain_1x3 eq_refl eq_refl eq_refl).
Defined.

(** *** The sample image *)

Lemma flat_map_length_const {A B} (f : A -> list B) (k : nat) (l : list A) :
  (forall a, length (f a) = k) -> length (flat_map f l) = (length l * k)%nat.
Proof.
  intros Hf. induction l as [|a l IH]; [reflexivity|].
  cbn [flat_map length]. rewrite length_app, Hf, IH. lia.
Qed.

Lemma gradient_range n d : 0 <= n < d -> 0 <= 255 * n / d < 255.
Proof.
  intros H. split.
  - apply Z.div_pos; lia.
  - apply Z.div_lt_upper_bound; lia.
Qed.

Lemma sample_pixels_well_formed width height :
  well_formed (sample_pixels width height) = true.
Proof.
  unfold well_formed, sample_pixels, size. cbn [shape flat].
  apply andb_true_iff. split.
  - apply Nat.eqb_eq.
    rewrite (flat_map_length_const _ (width * 3)%nat).
    + rewrite length_seq. lia.
    + intros y. rewrite (flat_map_length_const _ 3%nat) by reflexivity.
      rewrite length_seq. reflexivity.
  - apply forallb_forall. intros v Hv.
    apply in_flat_map in Hv. destruct Hv as (y & Hy & Hv).
    apply in_flat_map in Hv. destruct Hv as (x & Hx & Hv).
    apply in_seq in Hx, Hy.
    pose proof (gradient_range (Z.of_nat x) (Z.of_nat width) ltac:(lia)).
    pose proof (gradient_range (Z.of_nat y) (Z.of_nat height) ltac:(lia)).
    pose proof (gradient_range (Z.of_nat (x + y)) (Z.of_nat (width + height))
                  ltac:(lia)).
    assert (Hbyte : forall t, 0 <= t < 255 -> (0 <=? t) && (t <? 256) = true)
      by (intros t Ht; lia).
    cbn [In] in Hv. destruct Hv as [<- | [<- | [<- | []]]];
      apply Hbyte; assumption.
Qed.

Lemma sample_pixels_capacity fs width height output_path :
  get_image_capacity (save fs output_path (sample_pixels width height)) output_path
  = inr ((Z.of_nat (height * width * 3) - 72) / 8, Z.of_nat (height * width * 3)).
Proof.
  unfold get_image_capacity, open_raw, open_rgb. rewrite save_same. reflexivity.
Qed.

(** X21: [create_sample_image] saves an array of [height] rows, [width] columns
    and 3 channels whose bytes are below 255, and leaves the other files
    alone; [get_image_capacity] on it counts [3 * width * height] bits, 72
    of them for the delimiter. *)
Theorem create_sample_image_capacity fs (width height : nat) output_path :
  (0 < width)%nat -> (0 < height)%nat ->
  let result := create_sample_image fs width height output_path in
  snd result = inr output_path /\
  (exists img, fst result output_path = Some img /\
               shape img = (height, width, 3%nat) /\
               well_formed img = true /\
               Forall (fun v => 0 <= v < 255) (flat img)) /\
  (forall p, p <> output_path -> fst result p = fs p) /\
  get_image_capacity (fst result) output_path
  = inr ((Z.of_nat (3 * width * height) - 72) / 8, Z.of_nat (3 * width * height)).
Proof.
  intros Hw Hh result. subst result. unfold create_sample_image. cbn [fst snd].
  split; [reflexivity|]. split; [|split].
  - exists (sample_pixels width height). split; [apply save_same|].
    split; [reflexivity|]. split; [apply sample_pixels_well_formed|].
    apply Forall_forall. intros v Hv. unfold sample_pixels in Hv. cbn [flat] in Hv.
    apply in_flat_map in Hv. destruct Hv as (y & Hy & Hv).
    apply in_flat_map in Hv. destruct Hv as (x & Hx & Hv).
    apply in_seq in Hx, Hy.
    pose proof (gradient_range (Z.of_nat x) (Z.of_nat width) ltac:(lia)).
    pose proof (gradient_range (Z.of_nat y) (Z.of_nat height) ltac:(lia)).
    pose proof (gradient_range (Z.of_nat (x + y)) (Z.of_nat (width + height))
                  ltac:(lia)).
    cbn [In] in Hv. destruct Hv as [<- | [<- | [<- | []]]]; assumption.
  - intros p Hp. unfold save. apply String.eqb_neq in Hp. rewrite Hp. reflexivity.
  - rewrite sample_pixels_capacity.
    replace (3 * width * height)%nat with (height * width * 3)%nat by lia.
    reflexivity.
Qed.

Lemma create_sample_image_capacity_witness :
  snd (create_sample_image (fun _ => None) 800 600 "sample_image.png")
  = inr "sample_image.png"%string /\
  (exists img,
      fst (create_sample_image (fun _ => None) 800 600 "sample_image.png")
          "sample_image.png"%string = Some img /\
      shape img = (600, 800, 3)%nat /\
      well_formed img = true /\
      Forall (fun v => 0 <= v < 255) (flat img)) /\
  (forall p, p <> "sample_image.png"%string ->
     fst (create_sample_image (fun _ => None) 800 600 "sample_image.png") p = None) /\
  get_image_capacity
    (fst (create_sample_image (fun _ => None) 800 600 "sample_image.png"))
    "sample_image.png"
  = inr ((Z.of_nat (3 * 800 * 600) - 72) / 8, Z.of_nat (3 * 800 * 600)).
Proof.
  apply (create_sample_image_capacity (fun _ => None) 800 600 "sample_image.png");
    lia.
Defined.

(** *** [hide_message], [get_image_capacity] and [compare_images] together *)

(** [np.abs(pixels1.astype(int) - pixels2.astype(int))] on arrays of one
    shape, in flattening order. *)
Definition abs_diff (flat1 flat2 : list Z) : list Z :=
  map (fun p => Z.abs (fst p - snd p)) (combine flat1 flat2).

Definition shape_eqb (s1 s2 : nat * nat * nat) : bool :=
  let '(rows1, cols1, chans1) := s1 in
  let '(rows2, cols2, chans2) := s2 in
  (rows1 =? rows2)%nat && (cols1 =? cols2)%nat && (chans1 =? chans2)%nat.

(** The dictionary [compare_images] returns, without its two floating-point
    entries ([mean_difference] and [change_percentage]). *)
Record comparison := {
  max_difference : Z;
  changed_pixels : nat;
  total_pixels : nat
}.

(** The image is within the size [hide_message] embeds into as it is. *)
Definition within_max_size (img : ndarray) : bool :=
  let '(rows, cols, _) := shape img in
  negb ((2000 <? cols)%nat || (2000 <? rows)%nat).

Section Class.

Variable thumbnail : ndarray -> ndarray.
Variable splitext_root : string -> string.

(** From NumPy: the difference of two arrays of different shapes, which
    broadcasts one against the other or raises [ValueError]. *)
Variable broadcast_abs_diff : ndarray -> ndarray -> result (list Z).

Definition compare_images (fs : files) (original_path stego_path : string)
  : result comparison :=
  rewrap "Error comparing images: "
    (pixels1 <- open_rgb fs original_path ;;
     pixels2 <- open_rgb fs stego_path ;;
     diff <- (if shape_eqb (shape pixels1) (shape pixels2)
              then ret (abs_diff (flat pixels1) (flat pixels2))
              else broadcast_abs_diff pixels1 pixels2) ;;
     max_diff <-
       match diff with
       | [] => raise ValueError
                 "zero-size array to reduction operation maximum which has no identity"
       | d :: ds => ret (fold_left Z.max ds d)
       end ;;
     let changed := length (filter (fun d => negb (d =? 0)) diff) in
     let total := length diff in
     ret {| max_difference := max_diff;
            changed_pixels := changed;
            total_pixels := total |}).

Lemma cover_pixels_within img :
  within_max_size img = true -> cover_pixels thumbnail img = img.
Proof.
  unfold within_max_size, cover_pixels. destruct (shape img) as [[rows cols] chans].
  intros H. apply negb_true_iff in H. rewrite H. reflexivity.
Qed.

Lemma delimiter_bits : length (string_to_binary delimiter) = 72%nat.
Proof. reflexivity. Qed.

Lemma payload_bits message :
  latin1 message = true ->
  length (string_to_binary (message ++ delimiter)) = (8 * length message + 72)%nat.
Proof.
  intros H. rewrite string_to_binary_app, length_app, delimiter_bits.
  rewrite (string_to_binary_length _ H). reflexivity.
Qed.

(** X22: The [max_characters] of [get_image_capacity] is the limit of
    [hide_message]: on an image no side of which is above 2000, a message
    of characters below 256 is embedded exactly when it has at most that
    many characters. *)
Theorem get_image_capacity_hide_limit fs image_path img message output_path :
  fs image_path = Some img ->
  within_max_size img = true ->
  well_formed img = true ->
  latin1 message = true ->
  exists max_characters,
    get_image_capacity fs image_path = inr (max_characters, Z.of_nat (size img)) /\
    (Z.of_nat (length message) <= max_characters <->
     exists out n,
       snd (hide_message thumbnail splitext_root fs image_path message output_path)
       = inr (out, n)).
Proof.
  intros Hopen Hsize Hwf Hlatin.
  pose proof (cover_pixels_within img Hsize) as Hcover.
  pose proof (payload_bits message Hlatin) as Hbits.
  eexists. split.
  { unfold get_image_capacity, open_raw, open_rgb. rewrite Hopen. reflexivity. }
  rewrite delimiter_bits. change (Z.of_nat 72) with 72.
  pose proof (Z.div_mod (Z.of_nat (size img) - 72) 8 ltac:(lia)) as Hdiv.
  pose proof (Z.mod_pos_bound (Z.of_nat (size img) - 72) 8 ltac:(lia)) as Hmod.
  destruct (Nat.lt_ge_cases (size (cover_pixels thumbnail img))
              (length (string_to_binary (message ++ delimiter)))) as [Hlt|Hge].
  - rewrite (hide_message_too_large _ _ _ _ _ _ _ Hopen Hlt).
    rewrite Hcover, Hbits in Hlt. cbn [snd]. split.
    + intros Hle. lia.
    + intros (out & n & H). discriminate H.
  - rewrite (hide_message_fits _ _ _ _ _ _ _ Hopen
               ltac:(rewrite Hcover; exact Hwf) Hge).
    rewrite Hcover, Hbits in Hge. cbn [snd]. split.
    + intros _. do 2 eexists. reflexivity.
    + intros _. lia.
Qed.

(** X23: [hide_message] writes the output path and no other: every other file is
    as it was, and when it raises (always an [Exception]) no file has
    changed. *)
Theorem hide_message_writes_output_only fs image_path message output_path :
  (forall p, p <> stego_path splitext_root image_path output_path ->
     fst (hide_message thumbnail splitext_root fs image_path message output_path) p
     = fs p) /\
  (forall e,
     snd (hide_message thumbnail splitext_root fs image_path message output_path)
     = inl e ->
     fst (hide_message thumbnail splitext_root fs image_path message output_path)
     = fs /\
     kind e = Exception).
Proof.
  unfold hide_message.
  destruct (open_rgb fs image_path) as [e0|img].
  { cbn [fst snd rewrap]. split; [reflexivity|].
    intros e He. injection He as <-. split; reflexivity. }
  destruct (embed (cover_pixels thumbnail img) message) as [e0|[modified n]].
  { cbn [fst snd rewrap]. split; [reflexivity|].
    intros e He. injection He as <-. split; reflexivity. }
  cbn [fst snd]. split.
  - intros p Hp. unfold save. apply String.eqb_neq in Hp. rewrite Hp. reflexivity.
  - intros e He. discriminate He.
Qed.

Lemma modify_lsb_close v bit :
  0 <= v < 256 -> Z.abs (v - modify_lsb v bit) <= 1.
Proof.
  intros Hv.
  pose (check := fun v =>
    forallb (fun b => Z.abs (v - modify_lsb v b) <=? 1) [true; false]).
  assert (Hall : check v = true)
    by (apply uint8_forall; [vm_compute; reflexivity|exact Hv]).
  unfold check in Hall. rewrite forallb_forall in Hall.
  specialize (Hall bit ltac:(destruct bit; cbn; auto)). lia.
Qed.

Definition nonzero (d : Z) : bool := negb (d =? 0).

Lemma abs_diff_same l :
  Forall (fun d => 0 <= d <= 1) (abs_diff l l) /\
  filter nonzero (abs_diff l l) = [].
Proof.
  induction l as [|v l [IH1 IH2]]; [split; [constructor|reflexivity]|].
  unfold abs_diff in *. cbn [combine map fst snd filter].
  rewrite Z.sub_diag. cbn [Z.abs nonzero Z.eqb negb]. split; [|exact IH2].
  constructor; [lia|exact IH1].
Qed.

Lemma abs_diff_length l1 l2 :
  length l1 = length l2 -> length (abs_diff l1 l2) = length l1.
Proof.
  intros H. unfold abs_diff. rewrite length_map, length_combine. lia.
Qed.

(** The differences between a cover and the bytes after the embedding loop:
    0 or 1 each, and non-zero at no more places than there are bits. *)
Lemma abs_diff_overwrite bits : forall l,
  Forall (fun v => 0 <= v < 256) l ->
  Forall (fun d => 0 <= d <= 1) (abs_diff l (overwrite bits l)) /\
  (length (filter nonzero (abs_diff l (overwrite bits l))) <= length bits)%nat.
Proof.
  induction bits as [|b bits IH]; intros l Hl.
  - replace (overwrite [] l) with l by (destruct l; reflexivity).
    destruct (abs_diff_same l) as [H1 H2]. rewrite H2. split; [exact H1|].
    cbn [length]. lia.
  - destruct l as [|v l]; [split; [constructor|cbn; lia]|].
    inversion Hl as [|? ? Hv Hl']; subst.
    destruct (IH l Hl') as [IH1 IH2].
    cbn [overwrite]. unfold abs_diff in *. cbn [combine map fst snd filter].
    pose proof (modify_lsb_close v b Hv) as Hclose.
    split.
    + constructor; [lia|exact IH1].
    + destruct (nonzero _); cbn [length]; lia.
Qed.

Lemma fold_max_bound ds : forall d,
  Forall (fun d => 0 <= d <= 1) (d :: ds) -> 0 <= fold_left Z.max ds d <= 1.
Proof.
  induction ds as [|x ds IH]; intros d H.
  - inversion H; subst. cbn. assumption.
  - inversion H as [|? ? Hd Hds]; subst. inversion Hds as [|? ? Hx Hds']; subst.
    cbn [fold_left]. apply IH. constructor; [lia|exact Hds'].
Qed.

(** X24: After [hide_message] on an image it embeds into as it is,
    [compare_images] of the cover and the stego image finds no byte changed
    by more than 1, and no more changed bytes than bits hidden. *)
Theorem compare_images_after_hide fs image_path img message output_path fs' out n :
  fs image_path = Some img ->
  within_max_size img = true ->
  well_formed img = true ->
  hide_message thumbnail splitext_root fs image_path message output_path
  = (fs', inr (out, n)) ->
  exists report,
    compare_images fs' image_path out = inr report /\
    0 <= max_difference report <= 1 /\
    (changed_pixels report <= n)%nat /\
    total_pixels report = size img.
Proof.
  intros Hopen Hsize Hwf Hhide.
  pose proof (cover_pixels_within img Hsize) as Hcover.
  destruct (Nat.lt_ge_cases (size (cover_pixels thumbnail img))
              (length (string_to_binary (message ++ delimiter)))) as [Hlt|Hge].
  { rewrite (hide_message_too_large _ _ _ _ _ _ _ Hopen Hlt) in Hhide.
    discriminate Hhide. }
  rewrite (hide_message_fits _ _ _ _ _ _ _ Hopen
             ltac:(rewrite Hcover; exact Hwf) Hge) in Hhide.
  rewrite Hcover in Hhide, Hge. injection Hhide as <- <- <-.
  set (bits := string_to_binary (message ++ delimiter)) in *.
  set (stego := Array (shape img) (overwrite bits (flat img))).
  assert (Hbytes : Forall (fun v => 0 <= v < 256) (flat img)).
  { apply Forall_forall. intros v Hv. apply In_nth_error in Hv.
    destruct Hv as (i & Hi). apply (well_formed_byte img i v Hwf Hi). }
  assert (Hlen : length (flat img) = size img) by apply well_formed_length, Hwf.
  assert (Hpos : (72 <= length bits)%nat).
  { unfold bits. rewrite string_to_binary_app, length_app, delimiter_bits. lia. }
  assert (Hshape : shape_eqb (shape img) (shape img) = true).
  { unfold shape_eqb. destruct (shape img) as [[rows cols] chans].
    rewrite !Nat.eqb_refl. reflexivity. }
  assert (Hreport : forall original diff,
             Forall (fun d => 0 <= d <= 1) diff ->
             (length (filter nonzero diff) <= length bits)%nat ->
             length diff = size img ->
             save fs (stego_path splitext_root image_path output_path) stego image_path
             = Some original ->
             shape original = shape img ->
             abs_diff (flat original) (flat stego) = diff ->
             exists report,
               compare_images
                 (save fs (stego_path splitext_root image_path output_path) stego)
                              image_path (stego_path splitext_root image_path output_path)
               = inr report /\
               0 <= max_difference report <= 1 /\
               (changed_pixels report <= length bits)%nat /\
               total_pixels report = size img).
  { intros original diff Hd Hcount Hsz Horig Hsh Hdiff.
    unfold compare_images, open_rgb. rewrite Horig, save_same. cbn [bind ret].
    rewrite Hsh. change (shape stego) with (shape img). rewrite Hshape.
    cbn [bind ret]. rewrite Hdiff.
    destruct diff as [|d ds]; [cbn [length] in Hsz; lia|].
    cbn [bind ret rewrap]. eexists. split; [reflexivity|].
    cbn [max_difference changed_pixels total_pixels].
    split; [apply fold_max_bound, Hd|]. split; [exact Hcount|exact Hsz]. }
  destruct (String.eqb_spec image_path
              (stego_path splitext_root image_path output_path)) as [Heq|Hne].
  - destruct (abs_diff_same (flat stego)) as [H1 H2].
    apply (Hreport stego (abs_diff (flat stego) (flat stego))).
    + exact H1.
    + unfold nonzero in *. rewrite H2. cbn [length]. lia.
    + rewrite abs_diff_length by reflexivity. unfold stego. cbn [flat].
      rewrite overwrite_length. exact Hlen.
    + rewrite Heq at 2. apply save_same.
    + reflexivity.
    + reflexivity.
  - destruct (abs_diff_overwrite bits (flat img) Hbytes) as [H1 H2].
    apply (Hreport img (abs_diff (flat img) (flat stego))).
    + exact H1.
    + exact H2.
    + rewrite abs_diff_length; [exact Hlen|]. unfold stego. cbn [flat].
      rewrite overwrite_length. reflexivity.
    + unfold save. apply String.eqb_neq in Hne. rewrite Hne. exact Hopen.
    + reflexivity.
    + reflexivity.
Qed.

(** [hide_message] either raises with the files as they were, or saves one
    array at the output path. *)
Lemma hide_message_cases fs image_path message output_path :
  (exists e,
      hide_message thumbnail splitext_root fs image_path message output_path
      = (fs, inl e)) \/
  (exists stego n,
      hide_message thumbnail splitext_root fs image_path message output_path
      = (save fs (stego_path splitext_root image_path output_path) stego,
         inr (stego_path splitext_root image_path output_path, n))).
Proof.
  unfold hide_message.
  destruct (open_rgb fs image_path) as [e0|img]; [left; eexists; reflexivity|].
  destruct (embed (cover_pixels thumbnail img) message) as [e0|[modified n]];
    [left; eexists; reflexivity|].
  right. do 2 eexists. reflexivity.
Qed.

(** A payload of binary digits that fits comes back from the saved image. *)
Lemma extract_saved_payload fs image_path img m output_path :
  fs image_path = Some img ->
  well_formed (cover_pixels thumbnail img) = true ->
  forallb SDES.is_binary_digit m = true ->
  (8 * length m + 72 <= size (cover_pixels thumbnail img))%nat ->
  exists stego,
    hide_message thumbnail splitext_root fs image_path m output_path
    = (save fs (stego_path splitext_root image_path output_path) stego,
       inr (stego_path splitext_root image_path output_path, (8 * length m + 72)%nat)) /\
    (forall fs0,
        extract_message (save fs0 (stego_path splitext_root image_path output_path) stego)
                        (stego_path splitext_root image_path output_path) = inr m).
Proof.
  intros Hopen Hwf Hm Hfit.
  pose proof (binary_digits_latin1 m Hm) as Hlatin.
  pose proof (binary_payload_delimiter_only_at_end m Hm) as Honly.
  pose proof (payload_bits m Hlatin) as Hbits.
  rewrite (hide_message_fits _ _ _ _ _ _ _ Hopen Hwf)
    by (rewrite Hbits; exact Hfit).
  rewrite Hbits. eexists. split; [reflexivity|]. intros fs0.
  rewrite (extract_message_loop _ _ _ (save_same _ _ _)). cbn [flat].
  set (bits := string_to_binary (m ++ delimiter)) in *.
  set (D := string_to_binary delimiter) in *.
  set (cover := cover_pixels thumbnail img) in *.
  assert (Hlen : (length bits <= length (flat cover))%nat)
    by (rewrite (well_formed_length _ Hwf); lia).
  assert (Hsplit : bits = string_to_binary m ++ D)
    by apply string_to_binary_app.
  assert (Hpre : forall k, (k <= length bits)%nat ->
             lsbs (firstn k (overwrite bits (flat cover))) = firstn k bits).
  { intros k Hk. rewrite lsbs_firstn, lsbs_overwrite by exact Hlen.
    rewrite firstn_app. replace (k - length bits)%nat with 0%nat by lia.
    rewrite firstn_O, app_nil_r. reflexivity. }
  rewrite (extract_loop_first_match D _ [] (length bits)).
  - cbn [app length]. rewrite Hpre, firstn_all by lia.
    rewrite Nat.add_0_l, Hsplit, length_app, Nat.add_sub, firstn_app, Nat.sub_diag.
    rewrite firstn_O, app_nil_r, firstn_all.
    rewrite (binary_to_string_string_to_binary _ Hlatin). reflexivity.
  - rewrite overwrite_length. lia.
  - intros j Hj. cbn [app]. rewrite Hpre by lia.
    unfold delimiter_only_at_end in Honly. fold bits D in Honly.
    rewrite forallb_forall in Honly.
    specialize (Honly j ltac:(apply in_seq; lia)).
    apply negb_true_iff, Honly.
  - cbn [app]. rewrite Hpre, firstn_all, Hsplit by lia. apply endswith_app.
Qed.

End Class.

Lemma get_image_capacity_hide_limit_witness :
  exists max_characters,
    get_image_capacity cover_1x40 "cover.png"
    = inr (max_characters, Z.of_nat (size (zeros 1 40))) /\
    (Z.of_nat (length (lit "HI")) <= max_characters <->
     exists out n,
       snd (hide_message keep cover_root cover_1x40 "cover.png" (lit "HI") None)
       = inr (out, n)).
Proof.
  exact (get_image_capacity_hide_limit keep cover_root cover_1x40 "cover.png"
           (zeros 1 40) (lit "HI") None eq_refl eq_refl eq_refl eq_refl).
Defined.

(** Arrays of different shapes do not occur below. *)
Definition no_broadcast (a b : ndarray) : result (list Z) :=
  raise ValueError "operands could not be broadcast together".

Lemma compare_images_after_hide_witness :
  exists report,
    compare_images no_broadcast
      (fst (hide_message keep cover_root cover_1x40 "cover.png" (lit "HI")
              (Some "stego.png"%string)))
      "cover.png" "stego.png" = inr report /\
    0 <= max_difference report <= 1 /\
    (changed_pixels report <= 88)%nat /\
    total_pixels report = size (zeros 1 40).
Proof.
  apply (compare_images_after_hide keep cover_root no_broadcast cover_1x40
           "cover.png" (zeros 1 40) (lit "HI") (Some "stego.png"%string));
    reflexivity.
Defined.

End Steganography.

(** ** The orchestrator ([hybrid_model.py]) *)

Module HybridCryptoModel.

(** Code that reads and writes image files and can raise: the files go in
    and come out, together with the value or the exception. *)
Definition io (A : Type) : Type :=
  Steganography.files -> Steganography.files * result A.

Definition io_ret {A} (a : A) : io A := fun fs => (fs, inr a).

Definition io_bind {A B} (m : io A) (f : A -> io B) : io B :=
  fun fs =>
    let '(fs', r) := m fs in
    match r with
    | inl e => (fs', inl e)
    | inr a => f a fs'
    end.

(** A step that leaves the files alone. *)
Definition lift {A} (r : result A) : io A := fun fs => (fs, r).

(** A step that reads the files. *)
Definition reading {A} (f : Steganography.files -> result A) : io A :=
  fun fs => (fs, f fs).

Notation "x <~ m ;; k" := (io_bind m (fun x => k))
  (at level 61, m at next level, right associativity).
Notation "' p <~ m ;; k" := (io_bind m (fun x => let p := x in k))
  (at level 61, p pattern, m at next level, right associativity).

(** The dictionary an operation returns: [{'success': True, ...}] with its
    fields, or [{'success': False, 'error': str(e)}]. *)
Inductive outcome (A : Type) : Type :=
| Success (fields : A)
| Failure (error : string).
Arguments Success {A} fields.
Arguments Failure {A} error.

(** [try: ... except Exception as e: return {'success': False,
    'error': str(e)}]. *)
Definition catching {A} (body : io A)
  : Steganography.files -> Steganography.files * outcome A :=
  fun fs =>
    let '(fs', r) := body fs in
    match r with
    | inl e => (fs', Failure (str e))
    | inr fields => (fs', Success fields)
    end.

Record encryption_fields := {
  encrypted_image_path : string;
  original_text : pystr;
  hill_encrypted : pystr;
  sdes_encrypted_binary : pystr;
  keys_hill_key : HillCipher.matrix;
  keys_sdes_key : SDES.key_arg;
  cover_image : string;
  stego_image : string;
  hidden_bits : nat;
  image_capacity : Z
}.

Record decryption_fields := {
  decrypted_text : pystr;
  extracted_binary : pystr;
  sdes_decrypted : pystr;
  final_text : pystr
}.

(** [key if key is not None else generated]. *)
Definition or_generated {A} (key : option A) (generated : A) : A :=
  match key with
  | Some k => k
  | None => generated
  end.

Section Orchestrator.

(** The run time and the libraries, as in the leaf modules, and the keys
    [generate_keys()] draws in this call. *)
Variable isalpha : Z -> bool.
Variable upper : Z -> pystr.
Variable det_round : HillCipher.matrix -> Z.
Variable int_digit : Z -> option Z.
Variable repr_char : Z -> string.
Variable thumbnail : Steganography.ndarray -> Steganography.ndarray.
Variable splitext_root : string -> string.
Variable random_hill_key : HillCipher.matrix.
Variable random_sdes_key : pystr.

(** The keys the call works with: a key that is [None] is replaced by the
    generated one. *)
Definition chosen_hill_key (hill_key : option HillCipher.matrix) : HillCipher.matrix :=
  or_generated hill_key random_hill_key.

Definition chosen_sdes_key (sdes_key : option SDES.key_arg) : SDES.key_arg :=
  or_generated sdes_key (SDES.KeyStr random_sdes_key).

(** [output_image_path], or the default next to the cover image. *)
Definition chosen_output_path (image_path : string)
                              (output_image_path : option string) : string :=
  match output_image_path with
  | Some p => p
  | None => (splitext_root image_path ++ "_hybrid_encrypted.png")%string
  end.

(** The body of the [try] of [hybrid_encrypt]. *)
Definition hybrid_encrypt_body (plaintext : pystr)
    (hill_key : option HillCipher.matrix) (sdes_key : option SDES.key_arg)
    (image_path output_image_path : option string) : io encryption_fields :=
  let hill_key := chosen_hill_key hill_key in
  let sdes_key := chosen_sdes_key sdes_key in
  hill_encrypted <~
    lift (HillCipher.encrypt isalpha upper det_round plaintext hill_key) ;;
  sdes_encrypted_binary <~ lift (SDES.encrypt_text hill_encrypted sdes_key) ;;
  image_path <~
    match image_path with
    | Some p => io_ret p
    | None => fun fs => Steganography.create_sample_image fs 1000 800
                          "temp_cover_image.png"
    end ;;
  ' (max_chars, total_bits) <~
    reading (fun fs => Steganography.get_image_capacity fs image_path) ;;
  if total_bits <? Z.of_nat (length sdes_encrypted_binary)
  then lift (raise ValueError
               ("Message too large for image. Required: "
                ++ str_of_int (Z.of_nat (length sdes_encrypted_binary))
                ++ " bits, Available: " ++ str_of_int total_bits ++ " bits"))
  else
    let output_image_path := chosen_output_path image_path output_image_path in
    ' (stego_image_path, hidden) <~
      (fun fs => Steganography.hide_message thumbnail splitext_root fs image_path
                   sdes_encrypted_binary (Some output_image_path)) ;;
    io_ret {| encrypted_image_path := stego_image_path;
              original_text := plaintext;
              hill_encrypted := hill_encrypted;
              sdes_encrypted_binary := sdes_encrypted_binary;
              keys_hill_key := hill_key;
              keys_sdes_key := sdes_key;
              cover_image := image_path;
              stego_image := stego_image_path;
              hidden_bits := hidden;
              image_capacity := total_bits |}.

Definition hybrid_encrypt (plaintext : pystr)
    (hill_key : option HillCipher.matrix) (sdes_key : option SDES.key_arg)
    (image_path output_image_path : option string)
  : Steganography.files -> Steganography.files * outcome encryption_fields :=
  catching (hybrid_encrypt_body plaintext hill_key sdes_key image_path
                                output_image_path).

(** The body of the [try] of [hybrid_decrypt]. *)
Definition hybrid_decrypt_body (encrypted_image_path : string)
    (hill_key : HillCipher.matrix) (sdes_key : SDES.key_arg) : io decryption_fields :=
  sdes_encrypted_binary <~
    reading (fun fs => Steganography.extract_message fs encrypted_image_path) ;;
  match sdes_encrypted_binary with
  | [] => lift (raise ValueError "No hidden message found in the image")
  | _ =>
      hill_encrypted <~
        lift (SDES.decrypt_text int_digit repr_char (SDES.CipherStr sdes_encrypted_binary)
                                sdes_key) ;;
      original_text <~
        lift (HillCipher.decrypt isalpha upper det_round hill_encrypted hill_key) ;;
      io_ret {| decrypted_text := original_text;
                extracted_binary := sdes_encrypted_binary;
                sdes_decrypted := hill_encrypted;
                final_text := original_text |}
  end.

Definition hybrid_decrypt (encrypted_image_path : string)
    (hill_key : HillCipher.matrix) (sdes_key : SDES.key_arg)
  : Steganography.files -> Steganography.files * outcome decryption_fields :=
  catching (hybrid_decrypt_body encrypted_image_path hill_key sdes_key).


(** *** Errors of the leaf engines at the boundary *)

Local Notation "'hill_encrypt'" := (HillCipher.encrypt isalpha upper det_round).
Local Notation "'hill_decrypt'" := (HillCipher.decrypt isalpha upper det_round).
Local Notation "'sdes_decrypt_text'" := (SDES.decrypt_text int_digit repr_char).
Local Notation "'stego_hide'" :=
  (Steganography.hide_message thumbnail splitext_root).

Section Encrypt.

Variable plaintext : pystr.
Variable hill_key : option HillCipher.matrix.
Variable sdes_key : option SDES.key_arg.

Local Notation "'hk'" := (chosen_hill_key hill_key).
Local Notation "'sk'" := (chosen_sdes_key sdes_key).
Variable output_image_path : option string.
Variable fs : Steganography.files.

Lemma encrypt_hill_error image_path e :
  hill_encrypt plaintext hk = inl e ->
  hybrid_encrypt plaintext hill_key sdes_key image_path output_image_path fs
  = (fs, Failure (str e)).
Proof.
  intros H. unfold hybrid_encrypt, catching, hybrid_encrypt_body, io_bind, lift.
  rewrite H. reflexivity.
Qed.

Lemma encrypt_sdes_error image_path h e :
  hill_encrypt plaintext hk = inr h ->
  SDES.encrypt_text h sk = inl e ->
  hybrid_encrypt plaintext hill_key sdes_key image_path output_image_path fs
  = (fs, Failure (str e)).
Proof.
  intros Hh Hs. unfold hybrid_encrypt, catching, hybrid_encrypt_body, io_bind, lift.
  rewrite Hh, Hs. reflexivity.
Qed.

Lemma encrypt_capacity_error p h b e :
  hill_encrypt plaintext hk = inr h ->
  SDES.encrypt_text h sk = inr b ->
  Steganography.get_image_capacity fs p = inl e ->
  hybrid_encrypt plaintext hill_key sdes_key (Some p) output_image_path fs
  = (fs, Failure (str e)).
Proof.
  intros Hh Hs Hc.
  unfold hybrid_encrypt, catching, hybrid_encrypt_body, io_bind, lift, reading,
    io_ret.
  rewrite Hh, Hs, Hc. reflexivity.
Qed.

Lemma encrypt_required_error p h b max_chars total_bits :
  hill_encrypt plaintext hk = inr h ->
  SDES.encrypt_text h sk = inr b ->
  Steganography.get_image_capacity fs p = inr (max_chars, total_bits) ->
  total_bits < Z.of_nat (length b) ->
  hybrid_encrypt plaintext hill_key sdes_key (Some p) output_image_path fs
  = (fs, Failure ("Message too large for image. Required: "
                  ++ str_of_int (Z.of_nat (length b))
                  ++ " bits, Available: " ++ str_of_int total_bits ++ " bits")).
Proof.
  intros Hh Hs Hc Hlt.
  unfold hybrid_encrypt, catching, hybrid_encrypt_body, io_bind, lift, reading,
    io_ret.
  rewrite Hh, Hs, Hc. rewrite (proj2 (Z.ltb_lt _ _) Hlt). reflexivity.
Qed.

Lemma encrypt_hide_error p h b max_chars total_bits fs' e :
  hill_encrypt plaintext hk = inr h ->
  SDES.encrypt_text h sk = inr b ->
  Steganography.get_image_capacity fs p = inr (max_chars, total_bits) ->
  Z.of_nat (length b) <= total_bits ->
  stego_hide fs p b (Some (chosen_output_path p output_image_path))
  = (fs', inl e) ->
  hybrid_encrypt plaintext hill_key sdes_key (Some p) output_image_path fs
  = (fs', Failure (str e)).
Proof.
  intros Hh Hs Hc Hge Hhide.
  unfold hybrid_encrypt, catching, hybrid_encrypt_body, io_bind, lift, reading,
    io_ret.
  rewrite Hh, Hs, Hc. rewrite (proj2 (Z.ltb_ge _ _) Hge). rewrite Hhide.
  reflexivity.
Qed.

End Encrypt.

Section Decrypt.

Variable encrypted_image_path : string.
Variable hk : HillCipher.matrix.
Variable sk : SDES.key_arg.
Variable fs : Steganography.files.

Lemma decrypt_extract_error e :
  Steganography.extract_message fs encrypted_image_path = inl e ->
  hybrid_decrypt encrypted_image_path hk sk fs = (fs, Failure (str e)).
Proof.
  intros H. unfold hybrid_decrypt, catching, hybrid_decrypt_body, io_bind, reading.
  rewrite H. reflexivity.
Qed.

Lemma decrypt_no_hidden_message :
  Steganography.extract_message fs encrypted_image_path = inr [] ->
  hybrid_decrypt encrypted_image_path hk sk fs
  = (fs, Failure "No hidden message found in the image").
Proof.
  intros H. unfold hybrid_decrypt, catching, hybrid_decrypt_body, io_bind, reading.
  rewrite H. reflexivity.
Qed.

Lemma decrypt_sdes_error b e :
  Steganography.extract_message fs encrypted_image_path = inr b -> b <> [] ->
  sdes_decrypt_text (SDES.CipherStr b) sk = inl e ->
  hybrid_decrypt encrypted_image_path hk sk fs = (fs, Failure (str e)).
Proof.
  intros H Hb Hs.
  unfold hybrid_decrypt, catching, hybrid_decrypt_body, io_bind, reading, lift.
  rewrite H. destruct b as [|c b]; [contradiction|]. rewrite Hs. reflexivity.
Qed.

Lemma decrypt_hill_error b h e :
  Steganography.extract_message fs encrypted_image_path = inr b -> b <> [] ->
  sdes_decrypt_text (SDES.CipherStr b) sk = inr h ->
  hill_decrypt h hk = inl e ->
  hybrid_decrypt encrypted_image_path hk sk fs = (fs, Failure (str e)).
Proof.
  intros H Hb Hs Hh.
  unfold hybrid_decrypt, catching, hybrid_decrypt_body, io_bind, reading, lift.
  rewrite H. destruct b as [|c b]; [contradiction|]. rewrite Hs, Hh. reflexivity.
Qed.

End Decrypt.

(** The four kinds of error the pipeline meets, with their messages. *)

Lemma invalid_hill_key_outcome plaintext hill_key sdes_key image_path
      output_image_path fs :
  HillCipher.validate_key_matrix det_round (chosen_hill_key hill_key) = false ->
  hybrid_encrypt plaintext hill_key sdes_key image_path output_image_path fs
  = (fs, Failure "Key matrix is not valid (determinant not coprime with 26)").
Proof.
  intros Hv.
  apply (encrypt_hill_error plaintext hill_key sdes_key output_image_path fs
           image_path
           (Raise ValueError
              "Key matrix is not valid (determinant not coprime with 26)")).
  unfold HillCipher.encrypt. rewrite Hv. reflexivity.
Qed.

Lemma invalid_sdes_key_outcome plaintext hill_key key image_path output_image_path
      fs h :
  hill_encrypt plaintext (chosen_hill_key hill_key) = inr h ->
  SDES.valid_key key = false ->
  hybrid_encrypt plaintext hill_key (Some (SDES.KeyStr key)) image_path
                 output_image_path fs
  = (fs, Failure "Key must be a 10-bit binary string").
Proof.
  intros Hh Hk.
  apply (encrypt_sdes_error plaintext hill_key (Some (SDES.KeyStr key))
           output_image_path fs image_path h
           (Raise ValueError "Key must be a 10-bit binary string") Hh).
  cbn [chosen_sdes_key or_generated].
  unfold SDES.encrypt_text, SDES.encrypt, SDES.generate_keys.
  unfold SDES.valid_key in Hk. rewrite <- negb_andb, Hk. reflexivity.
Qed.

Lemma capacity_exceeded_outcome plaintext hill_key sdes_key p output_image_path
      fs h b img :
  hill_encrypt plaintext (chosen_hill_key hill_key) = inr h ->
  SDES.encrypt_text h (chosen_sdes_key sdes_key) = inr b ->
  fs p = Some img ->
  (length b <= Steganography.size img)%nat ->
  (Steganography.size (Steganography.cover_pixels thumbnail img)
   < length (Steganography.string_to_binary (b ++ Steganography.delimiter)))%nat ->
  hybrid_encrypt plaintext hill_key sdes_key (Some p) output_image_path fs
  = (fs, Failure
           (str (Steganography.capacity_error
                   (Steganography.size (Steganography.cover_pixels thumbnail img))
                   (length (Steganography.string_to_binary
                              (b ++ Steganography.delimiter)))))).
Proof.
  intros Hh Hs Hopen Hraw Hbig.
  apply (encrypt_hide_error plaintext hill_key sdes_key output_image_path fs p h b
           ((Z.of_nat (Steganography.size img)
             - Z.of_nat (length (Steganography.string_to_binary
                                   Steganography.delimiter))) / 8)
           (Z.of_nat (Steganography.size img)) fs _ Hh Hs).
  - unfold Steganography.get_image_capacity, Steganography.open_raw,
      Steganography.open_rgb.
    rewrite Hopen. reflexivity.
  - lia.
  - apply Steganography.hide_message_too_large; assumption.
Qed.

(** C9: whatever exception a leaf engine raises inside [hybrid_encrypt] or
    [hybrid_decrypt] (the Hill cipher, S-DES, the capacity computation, the
    embedding, the extraction), the call returns the outcome
    [{success: False, error: str(e)}].  So do an invalid Hill key, an
    invalid S-DES key, a payload above the capacity of the image, and an
    extraction that finds nothing, each with its message. *)
Theorem leaf_errors_become_outcomes
    (plaintext : pystr)
    (hill_key : option HillCipher.matrix) (sdes_key : option SDES.key_arg)
    (image_path output_image_path : option string)
    (p : string) (hk : HillCipher.matrix) (sk : SDES.key_arg)
    (fs : Steganography.files) :
  let encrypt_at image_path :=
    hybrid_encrypt plaintext hill_key sdes_key image_path output_image_path fs in
  let hill_stage := hill_encrypt plaintext (chosen_hill_key hill_key) in
  let sdes_stage h := SDES.encrypt_text h (chosen_sdes_key sdes_key) in
  (* encryption: the Hill cipher, S-DES, the capacity, the embedding *)
  (forall e, hill_stage = inl e -> encrypt_at image_path = (fs, Failure (str e))) /\
  (forall h e, hill_stage = inr h -> sdes_stage h = inl e ->
     encrypt_at image_path = (fs, Failure (str e))) /\
  (forall h b e, hill_stage = inr h -> sdes_stage h = inr b ->
     Steganography.get_image_capacity fs p = inl e ->
     encrypt_at (Some p) = (fs, Failure (str e))) /\
  (forall h b max_chars total_bits,
     hill_stage = inr h -> sdes_stage h = inr b ->
     Steganography.get_image_capacity fs p = inr (max_chars, total_bits) ->
     total_bits < Z.of_nat (length b) ->
     exists error, encrypt_at (Some p) = (fs, Failure error)) /\
  (forall h b max_chars total_bits fs' e,
     hill_stage = inr h -> sdes_stage h = inr b ->
     Steganography.get_image_capacity fs p = inr (max_chars, total_bits) ->
     Z.of_nat (length b) <= total_bits ->
     stego_hide fs p b (Some (chosen_output_path p output_image_path))
     = (fs', inl e) ->
     encrypt_at (Some p) = (fs', Failure (str e))) /\
  (* decryption: the extraction, S-DES, the Hill cipher *)
  (forall e, Steganography.extract_message fs p = inl e ->
     hybrid_decrypt p hk sk fs = (fs, Failure (str e))) /\
  (Steganography.extract_message fs p = inr [] ->
     hybrid_decrypt p hk sk fs
     = (fs, Failure "No hidden message found in the image")) /\
  (forall b e, Steganography.extract_message fs p = inr b -> b <> [] ->
     sdes_decrypt_text (SDES.CipherStr b) sk = inl e ->
     hybrid_decrypt p hk sk fs = (fs, Failure (str e))) /\
  (forall b h e, Steganography.extract_message fs p = inr b -> b <> [] ->
     sdes_decrypt_text (SDES.CipherStr b) sk = inr h ->
     hill_decrypt h hk = inl e ->
     hybrid_decrypt p hk sk fs = (fs, Failure (str e))) /\
  (* the kinds of error by name *)
  (HillCipher.validate_key_matrix det_round (chosen_hill_key hill_key) = false ->
     encrypt_at image_path
     = (fs, Failure "Key matrix is not valid (determinant not coprime with 26)")) /\
  (forall h key, hill_stage = inr h -> sdes_key = Some (SDES.KeyStr key) ->
     SDES.valid_key key = false ->
     encrypt_at image_path = (fs, Failure "Key must be a 10-bit binary string")) /\
  (forall h b img, hill_stage = inr h -> sdes_stage h = inr b ->
     fs p = Some img ->
     (length b <= Steganography.size img)%nat ->
     (Steganography.size (Steganography.cover_pixels thumbnail img)
      < length (Steganography.string_to_binary (b ++ Steganography.delimiter)))%nat ->
     encrypt_at (Some p)
     = (fs, Failure
              (str (Steganography.capacity_error
                      (Steganography.size (Steganography.cover_pixels thumbnail img))
                      (length (Steganography.string_to_binary
                                 (b ++ Steganography.delimiter))))))).
Proof.
  intros encrypt_at hill_stage sdes_stage. subst encrypt_at hill_stage sdes_stage.
  split; [intros e; apply encrypt_hill_error|].
  split; [intros h e; apply encrypt_sdes_error|].
  split; [intros h b e; apply encrypt_capacity_error|].
  split; [intros h b mc tb Hh Hs Hc Hlt; eexists;
          apply (encrypt_required_error _ _ _ _ _ _ _ _ _ _ Hh Hs Hc Hlt)|].
  split; [intros h b mc tb fs' e; apply encrypt_hide_error|].
  split; [intros e; apply decrypt_extract_error|].
  split; [apply decrypt_no_hidden_message|].
  split; [intros b e; apply decrypt_sdes_error|].
  split; [intros b h e; apply decrypt_hill_error|].
  split; [apply invalid_hill_key_outcome|].
  split; [intros h key Hh -> Hk; apply (invalid_sdes_key_outcome _ _ _ _ _ _ h Hh Hk)|].
  intros h b img. apply capacity_exceeded_outcome.
Qed.

(** *** The pipeline end to end *)

Lemma encrypt_success plaintext hill_key sdes_key p output_image_path fs
      h b max_chars total_bits fs' out n :
  hill_encrypt plaintext (chosen_hill_key hill_key) = inr h ->
  SDES.encrypt_text h (chosen_sdes_key sdes_key) = inr b ->
  Steganography.get_image_capacity fs p = inr (max_chars, total_bits) ->
  Z.of_nat (length b) <= total_bits ->
  stego_hide fs p b (Some (chosen_output_path p output_image_path))
  = (fs', inr (out, n)) ->
  hybrid_encrypt plaintext hill_key sdes_key (Some p) output_image_path fs
  = (fs', Success {| encrypted_image_path := out;
                     original_text := plaintext;
                     hill_encrypted := h;
                     sdes_encrypted_binary := b;
                     keys_hill_key := chosen_hill_key hill_key;
                     keys_sdes_key := chosen_sdes_key sdes_key;
                     cover_image := p;
                     stego_image := out;
                     hidden_bits := n;
                     image_capacity := total_bits |}).
Proof.
  intros Hh Hs Hc Hge Hhide.
  unfold hybrid_encrypt, catching, hybrid_encrypt_body, io_bind, lift, reading,
    io_ret.
  rewrite Hh, Hs, Hc. rewrite (proj2 (Z.ltb_ge _ _) Hge). rewrite Hhide.
  reflexivity.
Qed.

Lemma decrypt_success path hk sk fs b h t :
  Steganography.extract_message fs path = inr b -> b <> [] ->
  sdes_decrypt_text (SDES.CipherStr b) sk = inr h ->
  hill_decrypt h hk = inr t ->
  hybrid_decrypt path hk sk fs
  = (fs, Success {| decrypted_text := t;
                    extracted_binary := b;
                    sdes_decrypted := h;
                    final_text := t |}).
Proof.
  intros H Hb Hs Hh.
  unfold hybrid_decrypt, catching, hybrid_decrypt_body, io_bind, reading, lift,
    io_ret.
  rewrite H. destruct b as [|c b]; [contradiction|]. rewrite Hs, Hh. reflexivity.
Qed.

(** Without a cover image the call creates [temp_cover_image.png] and goes
    on as if it had been given, once the two ciphers have succeeded. *)
Lemma encrypt_default_cover plaintext hill_key sdes_key output_image_path fs h b :
  hill_encrypt plaintext (chosen_hill_key hill_key) = inr h ->
  SDES.encrypt_text h (chosen_sdes_key sdes_key) = inr b ->
  hybrid_encrypt plaintext hill_key sdes_key None output_image_path fs
  = hybrid_encrypt plaintext hill_key sdes_key (Some "temp_cover_image.png"%string)
      output_image_path
      (Steganography.save fs "temp_cover_image.png"
         (Steganography.sample_pixels 1000 800)).
Proof.
  intros Hh Hs.
  unfold hybrid_encrypt, catching, hybrid_encrypt_body, io_bind, lift, reading,
    io_ret, Steganography.create_sample_image.
  rewrite Hh, Hs. reflexivity.
Qed.

(** The pipeline on a text without letters. *)
Lemma no_letters_with_cover plaintext hill_key sdes_key ks p
        output_image_path fs img :
  HillCipher.validate_key_matrix det_round (chosen_hill_key hill_key) = true ->
  SDES.generate_keys (chosen_sdes_key sdes_key) = inr ks ->
  HillCipher.cleaned_text isalpha upper plaintext = [] ->
  fs p = Some img ->
  Steganography.well_formed (Steganography.cover_pixels thumbnail img) = true ->
  (72 <= Steganography.size (Steganography.cover_pixels thumbnail img))%nat ->
  exists fs' fields,
    hybrid_encrypt plaintext hill_key sdes_key (Some p) output_image_path fs
    = (fs', Success fields) /\
    hill_encrypted fields = [] /\
    sdes_encrypted_binary fields = [] /\
    hidden_bits fields = 72%nat /\
    hybrid_decrypt (encrypted_image_path fields) (keys_hill_key fields)
                   (keys_sdes_key fields) fs'
    = (fs', Failure "No hidden message found in the image").
Proof.
  intros Hv Hks Hclean Hopen Hwf Hfit.
  assert (Hh : hill_encrypt plaintext (chosen_hill_key hill_key) = inr []).
  { unfold HillCipher.encrypt, HillCipher.prepare_text. rewrite Hv, Hclean.
    reflexivity. }
  pose proof (SDES.encrypt_text_nil _ _ Hks) as Hs.
  destruct (Steganography.extract_saved_payload thumbnail splitext_root
              fs p img [] (Some (chosen_output_path p output_image_path))
              Hopen Hwf eq_refl ltac:(cbn [length]; lia))
    as (stego & Hhide & Hextract).
  cbn [Steganography.stego_path length] in Hhide, Hextract.
  do 2 eexists. split.
  { eapply encrypt_success.
    - exact Hh.
    - exact Hs.
    - unfold Steganography.get_image_capacity, Steganography.open_raw,
        Steganography.open_rgb.
      rewrite Hopen. reflexivity.
    - cbn [length]. lia.
    - exact Hhide. }
  cbn [hill_encrypted sdes_encrypted_binary hidden_bits encrypted_image_path
       keys_hill_key keys_sdes_key].
  split; [reflexivity|]. split; [reflexivity|]. split; [reflexivity|].
  apply (decrypt_no_hidden_message _ _ _ _ (Hextract fs)).
Qed.

Section Pipeline.

(** What the proofs use of the run time: [isalpha] and [upper] on the ASCII
    letters, and [int] on the digits 0 and 1. *)
Hypothesis capital_letters :
  forall c, HillCipher.is_upper c = true -> isalpha c = true /\ upper c = [c].
Hypothesis small_letters :
  forall c, HillCipher.is_lower c = true -> upper c = [c - 32].
Hypothesis digit_0 : int_digit 48 = Some 0.
Hypothesis digit_1 : int_digit 49 = Some 1.

Local Notation "'prepare'" := (HillCipher.prepare_text isalpha upper).

(** The two ciphers one after the other, and back. *)
Lemma cipher_stages plaintext hk key :
  HillCipher.key_in_range hk = true ->
  det_round hk = HillCipher.det hk ->
  Z.gcd (HillCipher.det hk mod 26) 26 = 1 ->
  SDES.valid_key key = true ->
  HillCipher.ascii_letters isalpha plaintext = true ->
  exists h b,
    hill_encrypt plaintext hk = inr h /\
    SDES.encrypt_text h (SDES.KeyStr key) = inr b /\
    length h = length (prepare plaintext) /\
    length b = (8 * length (prepare plaintext))%nat /\
    forallb SDES.is_binary_digit b = true /\
    sdes_decrypt_text (SDES.CipherStr b) (SDES.KeyStr key) = inr h /\
    hill_decrypt h hk = inr (prepare plaintext).
Proof.
  intros Hk Hdet Hg Hkey HT.
  destruct (HillCipher.prepare_text_upper isalpha upper capital_letters
              small_letters plaintext HT) as [Hup Heven].
  set (h := HillCipher.apply_pairs hk (prepare plaintext)).
  assert (Hh : hill_encrypt plaintext hk = inr h).
  { apply (HillCipher.encrypt_upper isalpha upper det_round capital_letters
             small_letters); try assumption. rewrite Hdet. exact Hg. }
  assert (Hhup : forallb HillCipher.is_upper h = true)
    by apply HillCipher.apply_pairs_upper.
  assert (Hhlen : length h = length (prepare plaintext))
    by (apply HillCipher.apply_pairs_length, Heven).
  destruct (SDES.encrypt_text_round int_digit repr_char key h digit_0 digit_1 Hkey)
    as (b & Hb & Hblen & Hbdig & Hback).
  assert (Hmod : map (fun c => c mod 256) h = h).
  { rewrite <- (map_id h) at 2. apply map_ext_in. intros c Hc.
    rewrite forallb_forall in Hhup. specialize (Hhup c Hc).
    unfold HillCipher.is_upper in Hhup. apply Z.mod_small. lia. }
  rewrite Hmod in Hback.
  destruct (HillCipher.decrypt_upper isalpha upper det_round capital_letters
              hk h Hk Hdet Hg Hhup ltac:(rewrite Hhlen; exact Heven))
    as (di & Hinv & Hdec).
  exists h, b. split; [exact Hh|]. split; [exact Hb|]. split; [exact Hhlen|].
  split; [rewrite Hblen, Hhlen; reflexivity|]. split; [exact Hbdig|].
  split; [exact Hback|].
  rewrite Hdec. unfold h.
  rewrite (HillCipher.apply_pairs_inverse hk di _ Hinv Hup Heven). reflexivity.
Qed.

Lemma prepare_text_nonempty plaintext :
  HillCipher.cleaned_text isalpha upper plaintext <> [] ->
  (0 < length (prepare plaintext))%nat.
Proof.
  intros H. unfold HillCipher.prepare_text.
  destruct (HillCipher.cleaned_text isalpha upper plaintext) as [|c l];
    [contradiction|].
  destruct (_ =? _)%nat; [rewrite length_app|]; cbn [length]; lia.
Qed.

(** The round trip with a cover image that is given. *)
Lemma round_trip_with_cover plaintext hill_key sdes_key key p output_image_path
      fs img :
  HillCipher.key_in_range (chosen_hill_key hill_key) = true ->
  det_round (chosen_hill_key hill_key) = HillCipher.det (chosen_hill_key hill_key) ->
  Z.gcd (HillCipher.det (chosen_hill_key hill_key) mod 26) 26 = 1 ->
  chosen_sdes_key sdes_key = SDES.KeyStr key ->
  SDES.valid_key key = true ->
  HillCipher.ascii_letters isalpha plaintext = true ->
  HillCipher.cleaned_text isalpha upper plaintext <> [] ->
  fs p = Some img ->
  Steganography.well_formed (Steganography.cover_pixels thumbnail img) = true ->
  (8 * length (prepare plaintext) <= Steganography.size img)%nat ->
  (64 * length (prepare plaintext) + 72
   <= Steganography.size (Steganography.cover_pixels thumbnail img))%nat ->
  exists fs' fields,
    hybrid_encrypt plaintext hill_key sdes_key (Some p) output_image_path fs
    = (fs', Success fields) /\
    encrypted_image_path fields = chosen_output_path p output_image_path /\
    cover_image fields = p /\
    image_capacity fields = Z.of_nat (Steganography.size img) /\
    hidden_bits fields = (64 * length (prepare plaintext) + 72)%nat /\
    length (sdes_encrypted_binary fields) = (8 * length (prepare plaintext))%nat /\
    exists out,
      hybrid_decrypt (encrypted_image_path fields) (keys_hill_key fields)
                     (keys_sdes_key fields) fs'
      = (fs', Success out) /\
      decrypted_text out = prepare plaintext.
Proof.
  intros Hk Hdet Hg Hsk Hkey HT Hletters Hopen Hwf Hraw Hfit.
  destruct (cipher_stages plaintext (chosen_hill_key hill_key) key
              Hk Hdet Hg Hkey HT)
    as (h & b & Hh & Hb & Hhlen & Hblen & Hbdig & Hsdes & Hhill).
  pose proof (prepare_text_nonempty plaintext Hletters) as Hpos.
  destruct (Steganography.extract_saved_payload thumbnail splitext_root
              fs p img b (Some (chosen_output_path p output_image_path))
              Hopen Hwf Hbdig ltac:(rewrite Hblen; lia))
    as (stego & Hhide & Hextract).
  cbn [Steganography.stego_path] in Hhide, Hextract.
  rewrite <- Hsk in Hb.
  do 2 eexists. split.
  { eapply encrypt_success.
    - exact Hh.
    - exact Hb.
    - unfold Steganography.get_image_capacity, Steganography.open_raw,
        Steganography.open_rgb.
      rewrite Hopen. reflexivity.
    - rewrite Hblen. lia.
    - exact Hhide. }
  cbn [encrypted_image_path cover_image image_capacity hidden_bits
       sdes_encrypted_binary keys_hill_key keys_sdes_key].
  split; [reflexivity|]. split; [reflexivity|]. split; [reflexivity|].
  split; [rewrite Hblen; f_equal; lia|]. split; [exact Hblen|].
  eexists. split.
  { apply (decrypt_success _ _ _ _ b h (prepare plaintext)).
    - apply Hextract.
    - intros Hnil. rewrite Hnil in Hblen. cbn [length] in Hblen. lia.
    - rewrite Hsk. exact Hsdes.
    - exact Hhill. }
  reflexivity.
Qed.

(** X25: End to end: with a key matrix of the data model that the test accepts,
    a key of 10 binary digits, a text whose letters are ASCII, at least one
    of them, and a cover image with room for it, [hybrid_encrypt] succeeds,
    hides 64 bits for every letter of the prepared text and 72 for the
    delimiter, and [hybrid_decrypt] of the image it wrote, with the keys it
    reports, gives the prepared text: the letters in capitals, with the pad
    letter when they are odd in number. *)
Theorem hybrid_decrypt_hybrid_encrypt plaintext hill_key sdes_key key p
        output_image_path fs img :
  HillCipher.key_in_range (chosen_hill_key hill_key) = true ->
  det_round (chosen_hill_key hill_key) = HillCipher.det (chosen_hill_key hill_key) ->
  Z.gcd (HillCipher.det (chosen_hill_key hill_key) mod 26) 26 = 1 ->
  chosen_sdes_key sdes_key = SDES.KeyStr key ->
  SDES.valid_key key = true ->
  HillCipher.ascii_letters isalpha plaintext = true ->
  HillCipher.cleaned_text isalpha upper plaintext <> [] ->
  fs p = Some img ->
  Steganography.well_formed (Steganography.cover_pixels thumbnail img) = true ->
  (8 * length (prepare plaintext) <= Steganography.size img)%nat ->
  (64 * length (prepare plaintext) + 72
   <= Steganography.size (Steganography.cover_pixels thumbnail img))%nat ->
  exists fs' fields,
    hybrid_encrypt plaintext hill_key sdes_key (Some p) output_image_path fs
    = (fs', Success fields) /\
    encrypted_image_path fields = chosen_output_path p output_image_path /\
    hidden_bits fields = (64 * length (prepare plaintext) + 72)%nat /\
    length (sdes_encrypted_binary fields) = (8 * length (prepare plaintext))%nat /\
    exists out,
      hybrid_decrypt (encrypted_image_path fields) (keys_hill_key fields)
                     (keys_sdes_key fields) fs'
      = (fs', Success out) /\
      decrypted_text out = prepare plaintext.
Proof.
  intros Hk Hdet Hg Hsk Hkey HT Hletters Hopen Hwf Hraw Hfit.
  destruct (round_trip_with_cover plaintext hill_key sdes_key key p
              output_image_path fs img Hk Hdet Hg Hsk Hkey HT Hletters Hopen Hwf
              Hraw Hfit)
    as (fs' & fields & Henc & Hpath & _ & _ & Hbits & Hlen & Hdec).
  exists fs', fields. auto.
Qed.

(** The round trip with the cover image the call creates. *)
Lemma round_trip_default_cover plaintext hill_key sdes_key key
        output_image_path fs :
  HillCipher.key_in_range (chosen_hill_key hill_key) = true ->
  det_round (chosen_hill_key hill_key) = HillCipher.det (chosen_hill_key hill_key) ->
  Z.gcd (HillCipher.det (chosen_hill_key hill_key) mod 26) 26 = 1 ->
  chosen_sdes_key sdes_key = SDES.KeyStr key ->
  SDES.valid_key key = true ->
  HillCipher.ascii_letters isalpha plaintext = true ->
  HillCipher.cleaned_text isalpha upper plaintext <> [] ->
  Z.of_nat (length (prepare plaintext)) <= 37498 ->
  exists fs' fields,
    hybrid_encrypt plaintext hill_key sdes_key None output_image_path fs
    = (fs', Success fields) /\
    cover_image fields = "temp_cover_image.png"%string /\
    image_capacity fields = 2400000 /\
    encrypted_image_path fields
    = chosen_output_path "temp_cover_image.png" output_image_path /\
    exists out,
      hybrid_decrypt (encrypted_image_path fields) (keys_hill_key fields)
                     (keys_sdes_key fields) fs'
      = (fs', Success out) /\
      decrypted_text out = prepare plaintext.
Proof.
  intros Hk Hdet Hg Hsk Hkey HT Hletters Hroom.
  destruct (cipher_stages plaintext (chosen_hill_key hill_key) key
              Hk Hdet Hg Hkey HT)
    as (h & b & Hh & Hb & _).
  rewrite <- Hsk in Hb.
  rewrite (encrypt_default_cover plaintext hill_key sdes_key output_image_path
             fs h b Hh Hb).
  assert (Hcover : Steganography.cover_pixels thumbnail
                     (Steganography.sample_pixels 1000 800)
                   = Steganography.sample_pixels 1000 800)
    by (apply Steganography.cover_pixels_within; reflexivity).
  assert (Hsize : Z.of_nat (Steganography.size (Steganography.sample_pixels 1000 800))
                  = 2400000).
  { unfold Steganography.size, Steganography.sample_pixels.
    cbn [Steganography.shape]. rewrite !Nat2Z.inj_mul. reflexivity. }
  destruct (round_trip_with_cover plaintext hill_key sdes_key key
              "temp_cover_image.png" output_image_path
              (Steganography.save fs "temp_cover_image.png"
                 (Steganography.sample_pixels 1000 800))
              (Steganography.sample_pixels 1000 800)
              Hk Hdet Hg Hsk Hkey HT Hletters)
    as (fs' & fields & Henc & Hpath & Hcov & Hcap & _ & _ & Hdec).
  - apply Steganography.save_same.
  - rewrite Hcover. apply Steganography.sample_pixels_well_formed.
  - apply Nat2Z.inj_le. rewrite Hsize. lia.
  - rewrite Hcover. apply Nat2Z.inj_le. rewrite Hsize. lia.
  - exists fs', fields. split; [exact Henc|]. split; [exact Hcov|].
    split; [rewrite Hcap; exact Hsize|]. split; [exact Hpath|]. exact Hdec.
Qed.

(** X26: The same with no cover image: the call writes the 1000x800 sample image
    to [temp_cover_image.png], whose 2400000 channel bytes hold the
    ciphertext of a text of up to 37498 letters. *)
Theorem hybrid_encrypt_default_cover plaintext hill_key sdes_key key
        output_image_path fs :
  HillCipher.key_in_range (chosen_hill_key hill_key) = true ->
  det_round (chosen_hill_key hill_key) = HillCipher.det (chosen_hill_key hill_key) ->
  Z.gcd (HillCipher.det (chosen_hill_key hill_key) mod 26) 26 = 1 ->
  chosen_sdes_key sdes_key = SDES.KeyStr key ->
  SDES.valid_key key = true ->
  HillCipher.ascii_letters isalpha plaintext = true ->
  HillCipher.cleaned_text isalpha upper plaintext <> [] ->
  Z.of_nat (length (prepare plaintext)) <= 37498 ->
  exists fs' fields,
    hybrid_encrypt plaintext hill_key sdes_key None output_image_path fs
    = (fs', Success fields) /\
    cover_image fields = "temp_cover_image.png"%string /\
    image_capacity fields = 2400000 /\
    encrypted_image_path fields
    = chosen_output_path "temp_cover_image.png" output_image_path /\
    exists out,
      hybrid_decrypt (encrypted_image_path fields) (keys_hill_key fields)
                     (keys_sdes_key fields) fs'
      = (fs', Success out) /\
      decrypted_text out = prepare plaintext.
Proof.
  intros Hk Hdet Hg Hsk Hkey HT Hletters Hroom.
  exact (round_trip_default_cover plaintext hill_key sdes_key key
           output_image_path fs Hk Hdet Hg Hsk Hkey HT Hletters Hroom).
Qed.

(** *** The self-test *)

(** [s.rstrip(chars)]: the string without its trailing characters that are
    in [chars]. *)
Fixpoint rstrip (chars s : pystr) : pystr :=
  match s with
  | [] => []
  | c :: s' =>
      match rstrip chars s' with
      | [] => if existsb (Z.eqb c) chars then [] else [c]
      | r => c :: r
      end
  end.

(** [s.upper()]: the upper case of every character, put together. *)
Definition str_upper (s : pystr) : pystr := flat_map upper s.

(** [a == b] on strings. *)
Definition str_eqb (a b : pystr) : bool :=
  if list_eq_dec Z.eq_dec a b then true else false.

(** [save_keys(keys)] writes [keys.json], which is not one of the image
    files of the model: it returns the path or raises. *)
Variable save_keys : HillCipher.matrix -> SDES.key_arg -> result string.

Definition test_hybrid_system (test_text : pystr)
  : Steganography.files -> Steganography.files * bool :=
  fun fs =>
    let '(fs, encryption_result) :=
      hybrid_encrypt test_text None None None None fs in
    match encryption_result with
    | Failure _ => (fs, false)
    | Success encryption =>
        match save_keys (keys_hill_key encryption) (keys_sdes_key encryption) with
        | inl _ => (fs, false)
        | inr keys_file =>
            let '(fs, decryption_result) :=
              hybrid_decrypt (encrypted_image_path encryption)
                             (keys_hill_key encryption)
                             (keys_sdes_key encryption) fs in
            match decryption_result with
            | Failure _ => (fs, false)
            | Success decryption =>
                let original := test_text in
                let decrypted := rstrip (lit "X") (decrypted_text decryption) in
                (fs, str_eqb (str_upper original) (str_upper decrypted))
            end
        end
    end.

(** More of the run time: a small letter is alphabetic, and the upper case
    of a character is never the empty string. *)
Hypothesis small_letters_alpha :
  forall c, HillCipher.is_lower c = true -> isalpha c = true.
Hypothesis upper_nonempty : forall c, upper c <> [].

Lemma rstrip_length chars s : (length (rstrip chars s) <= length s)%nat.
Proof.
  induction s as [|c s IH]; [reflexivity|]. cbn [rstrip].
  destruct (rstrip chars s) as [|r0 r].
  - destruct (existsb _ _); cbn [length]; lia.
  - cbn [length] in *. lia.
Qed.

Lemma rstrip_snoc chars s x :
  rstrip chars (s ++ [x])
  = if existsb (Z.eqb x) chars then rstrip chars s else s ++ [x].
Proof.
  induction s as [|c s IH]; [cbn; destruct (existsb _ _); reflexivity|].
  cbn [app rstrip]. rewrite IH.
  destruct (existsb (Z.eqb x) chars); [reflexivity|].
  destruct s; reflexivity.
Qed.

Lemma rstrip_forallb (P : Z -> bool) chars s :
  forallb P s = true -> forallb P (rstrip chars s) = true.
Proof.
  induction s as [|c s IH]; [reflexivity|]. cbn [forallb rstrip].
  intros H. apply andb_true_iff in H. destruct H as [Hc Hs].
  specialize (IH Hs). destruct (rstrip chars s) as [|r0 r].
  - destruct (existsb _ _); [reflexivity|]. cbn [forallb]. rewrite Hc. reflexivity.
  - cbn [forallb] in *. rewrite Hc. exact IH.
Qed.

Lemma str_upper_capitals l :
  forallb HillCipher.is_upper l = true -> str_upper l = l.
Proof.
  unfold str_upper. induction l as [|c l IH]; [reflexivity|].
  cbn [forallb flat_map]. intros H. apply andb_true_iff in H.
  destruct H as [Hc Hl]. rewrite (proj2 (capital_letters c Hc)), (IH Hl).
  reflexivity.
Qed.

(** What [rstrip('X')] leaves of the prepared text is what it leaves of the
    cleaned text: the pad letter goes first. *)
Lemma rstrip_prepare text :
  rstrip (lit "X") (prepare text)
  = rstrip (lit "X") (HillCipher.cleaned_text isalpha upper text).
Proof.
  unfold HillCipher.prepare_text. destruct (_ =? _)%nat; [|reflexivity].
  change (lit "X") with [88]. rewrite rstrip_snoc. reflexivity.
Qed.

Lemma str_upper_length text :
  (length (HillCipher.cleaned_text isalpha upper text)
   <= length (str_upper text))%nat /\
  (existsb (fun c => negb (isalpha c)) text = true ->
   (length (HillCipher.cleaned_text isalpha upper text)
    < length (str_upper text))%nat).
Proof.
  unfold HillCipher.cleaned_text, str_upper.
  induction text as [|c text [IH1 IH2]]; [split; [reflexivity|discriminate]|].
  cbn [flat_map existsb]. rewrite !length_app.
  destruct (isalpha c); cbn [negb orb length].
  - split; [lia|]. intros H. specialize (IH2 H). lia.
  - assert (0 < length (upper c))%nat.
    { pose proof (upper_nonempty c). destruct (upper c); [contradiction|].
      cbn [length]. lia. }
    split; [lia|]. intros _. lia.
Qed.

(** The keys [generate_keys()] draws are a matrix of the data model that the
    test accepts and a string of 10 binary digits. *)
Definition generated_keys_valid : Prop :=
  HillCipher.key_in_range random_hill_key = true /\
  det_round random_hill_key = HillCipher.det random_hill_key /\
  Z.gcd (HillCipher.det random_hill_key mod 26) 26 = 1 /\
  SDES.valid_key random_sdes_key = true.

Lemma default_too_long text fs :
  generated_keys_valid ->
  HillCipher.ascii_letters isalpha text = true ->
  37498 < Z.of_nat (length (prepare text)) ->
  exists fs1 error,
    hybrid_encrypt text None None None None fs = (fs1, Failure error).
Proof.
  intros (Hk & Hdet & Hg & Hkey) HT Hlong.
  destruct (cipher_stages text random_hill_key random_sdes_key
              Hk Hdet Hg Hkey HT)
    as (h & b & Hh & Hb & _ & Hblen & Hbdig & _).
  rewrite (encrypt_default_cover text None None None fs h b Hh Hb).
  pose proof (Steganography.cover_pixels_within thumbnail
                (Steganography.sample_pixels 1000 800) eq_refl) as Hcover.
  assert (Hsize : Z.of_nat (Steganography.size (Steganography.sample_pixels 1000 800))
                  = 2400000).
  { unfold Steganography.size, Steganography.sample_pixels.
    cbn [Steganography.shape]. rewrite !Nat2Z.inj_mul. reflexivity. }
  destruct (Z.lt_ge_cases 2400000 (Z.of_nat (length b))) as [Hreq|Hraw].
  - do 2 eexists. eapply encrypt_required_error.
    + exact Hh.
    + exact Hb.
    + unfold Steganography.get_image_capacity, Steganography.open_raw,
        Steganography.open_rgb.
      rewrite Steganography.save_same. reflexivity.
    + rewrite Hsize. exact Hreq.
  - do 2 eexists.
    apply (capacity_exceeded_outcome text None None "temp_cover_image.png" None _
             h b (Steganography.sample_pixels 1000 800) Hh Hb).
    + apply Steganography.save_same.
    + apply Nat2Z.inj_le. rewrite Hsize. lia.
    + rewrite Hcover.
      rewrite (Steganography.payload_bits b
                 (Steganography.binary_digits_latin1 b Hbdig)).
      apply Nat2Z.inj_lt. rewrite Hsize. lia.
Qed.

Lemma default_no_letters text fs :
  generated_keys_valid ->
  HillCipher.cleaned_text isalpha upper text = [] ->
  exists fs1 encryption,
    hybrid_encrypt text None None None None fs = (fs1, Success encryption) /\
    hybrid_decrypt (encrypted_image_path encryption) (keys_hill_key encryption)
                   (keys_sdes_key encryption) fs1
    = (fs1, Failure "No hidden message found in the image").
Proof.
  intros (Hk & Hdet & Hg & Hkey) Hclean.
  assert (Hv : HillCipher.validate_key_matrix det_round (chosen_hill_key None) = true)
    by (apply HillCipher.validate_key_matrix_spec; cbn; rewrite Hdet; exact Hg).
  destruct (SDES.generate_keys_valid random_sdes_key Hkey)
    as (k1 & k2 & Hks & _).
  assert (Hh : hill_encrypt text (chosen_hill_key None) = inr []).
  { unfold HillCipher.encrypt, HillCipher.prepare_text. rewrite Hv, Hclean.
    reflexivity. }
  pose proof (SDES.encrypt_text_nil (chosen_sdes_key None) _ Hks) as Hs.
  rewrite (encrypt_default_cover text None None None fs [] [] Hh Hs).
  pose proof (Steganography.cover_pixels_within thumbnail
                (Steganography.sample_pixels 1000 800) eq_refl) as Hcover.
  assert (Hsize : Z.of_nat (Steganography.size (Steganography.sample_pixels 1000 800))
                  = 2400000).
  { unfold Steganography.size, Steganography.sample_pixels.
    cbn [Steganography.shape]. rewrite !Nat2Z.inj_mul. reflexivity. }
  destruct (no_letters_with_cover text None None (k1, k2) "temp_cover_image.png"
              None
              (Steganography.save fs "temp_cover_image.png"
                 (Steganography.sample_pixels 1000 800))
              (Steganography.sample_pixels 1000 800) Hv Hks Hclean)
    as (fs1 & encryption & Henc & _ & _ & _ & Hdec).
  - apply Steganography.save_same.
  - rewrite Hcover. apply Steganography.sample_pixels_well_formed.
  - rewrite Hcover. apply Nat2Z.inj_le. rewrite Hsize. lia.
  - exists fs1, encryption. split; assumption.
Qed.

(** X27: The self-test fails on every text with a character that is not a
    letter: decryption gives the letters only, and the comparison is with
    the whole text in upper case.  Its default text, with spaces and
    punctuation, is such a text. *)
Theorem test_hybrid_system_fails_on_non_letter test_text fs :
  generated_keys_valid ->
  HillCipher.ascii_letters isalpha test_text = true ->
  existsb (fun c => negb (isalpha c)) test_text = true ->
  snd (test_hybrid_system test_text fs) = false.
Proof.
  intros Hkeys HT Hother. unfold test_hybrid_system.
  destruct (list_eq_dec Z.eq_dec (HillCipher.cleaned_text isalpha upper test_text) [])
    as [Hclean|Hletters].
  { destruct (default_no_letters test_text fs Hkeys Hclean)
      as (fs1 & encryption & -> & Hdec).
    destruct (save_keys _ _); [reflexivity|]. rewrite Hdec. reflexivity. }
  destruct (Z.le_gt_cases (Z.of_nat (length (prepare test_text))) 37498)
    as [Hroom|Hlong].
  2: { destruct (default_too_long test_text fs Hkeys HT ltac:(lia))
         as (fs1 & error & ->). reflexivity. }
  destruct Hkeys as (Hk & Hdet & Hg & Hkey).
  destruct (round_trip_default_cover test_text None None random_sdes_key None fs
              Hk Hdet Hg eq_refl Hkey HT Hletters Hroom)
    as (fs1 & encryption & -> & _ & _ & _ & decryption & Hdec & Htext).
  destruct (save_keys _ _); [reflexivity|]. rewrite Hdec, Htext. cbn [snd].
  unfold str_eqb.
  destruct (list_eq_dec Z.eq_dec _ _) as [Heq|_]; [exfalso|reflexivity].
  apply (f_equal (@length Z)) in Heq.
  rewrite rstrip_prepare in Heq.
  destruct (HillCipher.prepare_text_upper isalpha upper capital_letters
              small_letters test_text HT) as [_ _].
  pose proof (HillCipher.cleaned_text_upper isalpha upper capital_letters
                small_letters test_text HT) as Hup.
  rewrite (str_upper_capitals _ (rstrip_forallb _ (lit "X") _ Hup)) in Heq.
  pose proof (rstrip_length (lit "X")
                (HillCipher.cleaned_text isalpha upper test_text)).
  pose proof (proj2 (str_upper_length test_text) Hother). lia.
Qed.

Lemma letters_cleaned text :
  forallb (fun c => HillCipher.is_upper c || HillCipher.is_lower c) text = true ->
  HillCipher.ascii_letters isalpha text = true /\
  str_upper text = HillCipher.cleaned_text isalpha upper text /\
  length (HillCipher.cleaned_text isalpha upper text) = length text.
Proof.
  unfold HillCipher.ascii_letters, str_upper, HillCipher.cleaned_text.
  induction text as [|c text IH]; [repeat split|].
  cbn [forallb flat_map]. intros H. apply andb_true_iff in H.
  destruct H as [Hc Ht]. destruct (IH Ht) as (IH1 & IH2 & IH3).
  rewrite Hc, IH1, IH2, length_app, IH3.
  assert (Hcase : isalpha c = true /\ length (upper c) = 1%nat).
  { apply orb_true_iff in Hc. destruct Hc as [Hc|Hc].
    - destruct (capital_letters c Hc) as [-> ->]. split; reflexivity.
    - rewrite (small_letters_alpha c Hc), (small_letters c Hc). split; reflexivity. }
  destruct Hcase as [-> ->].
  split; [destruct (_ || _); reflexivity|]. split; reflexivity.
Qed.

Lemma cleaned_text_snoc text c :
  HillCipher.cleaned_text isalpha upper (text ++ [c])
  = HillCipher.cleaned_text isalpha upper text
    ++ (if isalpha c then upper c else []).
Proof.
  unfold HillCipher.cleaned_text. rewrite flat_map_app. cbn [flat_map].
  rewrite app_nil_r. reflexivity.
Qed.

(** X28: On a text of ASCII letters only that fits the cover image, the
    self-test passes exactly when the text does not end with the letter X
    (capital or small): [rstrip('X')] takes such a letter for padding. *)
Theorem test_hybrid_system_letters test_text fs keys_file :
  generated_keys_valid ->
  forallb (fun c => HillCipher.is_upper c || HillCipher.is_lower c) test_text = true ->
  test_text <> [] ->
  Z.of_nat (length test_text) <= 37497 ->
  save_keys random_hill_key (SDES.KeyStr random_sdes_key) = inr keys_file ->
  snd (test_hybrid_system test_text fs)
  = negb ((last test_text 0 =? 88) || (last test_text 0 =? 120)).
Proof.
  intros (Hk & Hdet & Hg & Hkey) Hall Hne Hlen Hsave.
  destruct (letters_cleaned test_text Hall) as (HT & Hupper & Hclen).
  assert (Hletters : HillCipher.cleaned_text isalpha upper test_text <> []).
  { intros Hnil. rewrite Hnil in Hclen. destruct test_text; [contradiction|].
    discriminate Hclen. }
  assert (Hroom : Z.of_nat (length (prepare test_text)) <= 37498).
  { unfold HillCipher.prepare_text.
    destruct (_ =? _)%nat;
      [rewrite length_app; change (length (lit "X")) with 1%nat|];
      rewrite Hclen; lia. }
  unfold test_hybrid_system.
  destruct (round_trip_default_cover test_text None None random_sdes_key None fs
              Hk Hdet Hg eq_refl Hkey HT Hletters Hroom)
    as (fs1 & encryption & Henc & _ & _ & _ & decryption & Hdec & Htext).
  assert (Hkeys : keys_hill_key encryption = random_hill_key /\
                  keys_sdes_key encryption = SDES.KeyStr random_sdes_key).
  { destruct (cipher_stages test_text random_hill_key random_sdes_key
                Hk Hdet Hg Hkey HT) as (h & b & Hh & Hb & _).
    rewrite (encrypt_default_cover test_text None None None fs h b Hh Hb) in Henc.
    unfold hybrid_encrypt, catching, hybrid_encrypt_body, io_bind, lift, reading,
      io_ret in Henc.
    change (chosen_hill_key None) with random_hill_key in Henc.
    change (chosen_sdes_key None) with (SDES.KeyStr random_sdes_key) in Henc.
    rewrite Hh, Hb in Henc.
    destruct (Steganography.get_image_capacity _ _) as [e|[mc tb]];
      [discriminate Henc|].
    destruct (tb <? _); [discriminate Henc|].
    destruct (Steganography.hide_message _ _ _ _ _ _) as [fs2 [e|[out n]]];
      [discriminate Henc|].
    injection Henc as _ <-. split; reflexivity. }
  rewrite Henc. destruct Hkeys as [Hhk Hsk]. rewrite Hhk, Hsk in *.
  rewrite Hsave, Hdec, Htext. cbn [snd].
  rewrite rstrip_prepare, Hupper.
  pose proof (HillCipher.cleaned_text_upper isalpha upper capital_letters
                small_letters test_text HT) as Hup.
  rewrite (str_upper_capitals _ (rstrip_forallb _ (lit "X") _ Hup)).
  destruct (exists_last Hne) as (front & c & ->).
  rewrite last_last, cleaned_text_snoc.
  rewrite forallb_app in Hall. apply andb_true_iff in Hall.
  destruct Hall as [_ Hc]. cbn [forallb] in Hc. rewrite andb_true_r in Hc.
  set (cleaned := HillCipher.cleaned_text isalpha upper front).
  assert (Hlast : exists u, isalpha c = true /\ upper c = [u] /\
                            (u =? 88) = ((c =? 88) || (c =? 120))).
  { apply orb_true_iff in Hc. destruct Hc as [Hc|Hc].
    - destruct (capital_letters c Hc) as [Ha Hu]. exists c.
      split; [exact Ha|]. split; [exact Hu|].
      unfold HillCipher.is_upper in Hc. lia.
    - exists (c - 32). split; [apply small_letters_alpha, Hc|].
      split; [apply small_letters, Hc|].
      unfold HillCipher.is_lower in Hc. lia. }
  destruct Hlast as (u & Ha & Hu1 & Hu2). rewrite Ha, Hu1, <- Hu2.
  change (lit "X") with [88]. rewrite rstrip_snoc. cbn [existsb]. rewrite orb_false_r.
  unfold str_eqb. destruct (u =? 88) eqn:Hu; cbn [negb].
  - destruct (list_eq_dec Z.eq_dec _ _) as [Heq|_]; [exfalso|reflexivity].
    apply (f_equal (@length Z)) in Heq. rewrite length_app in Heq.
    pose proof (rstrip_length [88] cleaned). cbn [length] in Heq. lia.
  - destruct (list_eq_dec Z.eq_dec _ _) as [_|Hneq]; [reflexivity|].
    contradiction Hneq. reflexivity.
Qed.

End Pipeline.

(** X29: A text without letters: the Hill cipher returns the empty string,
    S-DES the empty string of digits, and [hybrid_encrypt] succeeds, hiding
    the 72 bits of the delimiter alone; [hybrid_decrypt] of that image fails
    with [No hidden message found in the image]. *)
Theorem hybrid_encrypt_no_letters plaintext hill_key sdes_key ks p
        output_image_path fs img :
  HillCipher.validate_key_matrix det_round (chosen_hill_key hill_key) = true ->
  SDES.generate_keys (chosen_sdes_key sdes_key) = inr ks ->
  HillCipher.cleaned_text isalpha upper plaintext = [] ->
  fs p = Some img ->
  Steganography.well_formed (Steganography.cover_pixels thumbnail img) = true ->
  (72 <= Steganography.size (Steganography.cover_pixels thumbnail img))%nat ->
  exists fs' fields,
    hybrid_encrypt plaintext hill_key sdes_key (Some p) output_image_path fs
    = (fs', Success fields) /\
    hill_encrypted fields = [] /\
    sdes_encrypted_binary fields = [] /\
    hidden_bits fields = 72%nat /\
    hybrid_decrypt (encrypted_image_path fields) (keys_hill_key fields)
                   (keys_sdes_key fields) fs'
    = (fs', Failure "No hidden message found in the image").
Proof.
  intros Hv Hks Hclean Hopen Hwf Hfit.
  exact (no_letters_with_cover plaintext hill_key sdes_key ks p output_image_path
           fs img Hv Hks Hclean Hopen Hwf Hfit).
Qed.

(** X30: With a cover image given, [hybrid_encrypt] writes the output path and no
    other file, and nothing at all when it fails; [hybrid_decrypt] writes
    nothing. *)
Theorem hybrid_encrypt_writes_output_only plaintext hill_key sdes_key p
        output_image_path fs :
  (forall q, q <> chosen_output_path p output_image_path ->
     fst (hybrid_encrypt plaintext hill_key sdes_key (Some p) output_image_path fs) q
     = fs q) /\
  (forall error,
     snd (hybrid_encrypt plaintext hill_key sdes_key (Some p) output_image_path fs)
     = Failure error ->
     fst (hybrid_encrypt plaintext hill_key sdes_key (Some p) output_image_path fs)
     = fs) /\
  (forall path hk sk, fst (hybrid_decrypt path hk sk fs) = fs).
Proof.
  split; [|split].
  - intros q Hq.
    unfold hybrid_encrypt, catching, hybrid_encrypt_body, io_bind, lift, reading,
      io_ret.
    destruct (hill_encrypt plaintext (chosen_hill_key hill_key)) as [e|h];
      [reflexivity|].
    destruct (SDES.encrypt_text h (chosen_sdes_key sdes_key)) as [e|b];
      [reflexivity|].
    destruct (Steganography.get_image_capacity fs p) as [e|[max_chars total_bits]];
      [reflexivity|].
    destruct (total_bits <? Z.of_nat (length b)); [reflexivity|].
    destruct (Steganography.hide_message_cases thumbnail splitext_root fs p b
                (Some (chosen_output_path p output_image_path)))
      as [(e & ->) | (stego & n & ->)]; [reflexivity|].
    cbn [fst Steganography.stego_path]. unfold Steganography.save.
    apply String.eqb_neq in Hq. rewrite Hq. reflexivity.
  - intros error.
    unfold hybrid_encrypt, catching, hybrid_encrypt_body, io_bind, lift, reading,
      io_ret.
    destruct (hill_encrypt plaintext (chosen_hill_key hill_key)) as [e|h];
      [reflexivity|].
    destruct (SDES.encrypt_text h (chosen_sdes_key sdes_key)) as [e|b];
      [reflexivity|].
    destruct (Steganography.get_image_capacity fs p) as [e|[max_chars total_bits]];
      [reflexivity|].
    destruct (total_bits <? Z.of_nat (length b)); [reflexivity|].
    destruct (Steganography.hide_message_cases thumbnail splitext_root fs p b
                (Some (chosen_output_path p output_image_path)))
      as [(e & ->) | (stego & n & ->)]; [reflexivity|].
    cbn [snd]. intros H. discriminate H.
  - intros path hk sk.
    unfold hybrid_decrypt, catching, hybrid_decrypt_body, io_bind, lift, reading,
      io_ret.
    destruct (Steganography.extract_message fs path) as [e|[|c b]];
      try reflexivity.
    destruct (sdes_decrypt_text _ sk) as [e|h]; [reflexivity|].
    destruct (hill_decrypt h hk) as [e|t]; reflexivity.
Qed.

End Orchestrator.

(** *** The pipeline on concrete inputs *)

Definition key_1010000010 : SDES.key_arg := SDES.KeyStr (lit "1010000010").

(** [[2, 4], [1, 2]] has determinant 0. *)
Lemma leaf_errors_become_outcomes_witness :
  hybrid_encrypt HillCipher.isalpha_latin1 HillCipher.upper_latin1 HillCipher.det
    Steganography.keep Steganography.cover_root HillCipher.key_3257
    (lit "0000000000") (lit "HELLO") (Some (HillCipher.Mat 2 4 1 2))
    (Some key_1010000010) None None (fun _ => None)
  = (fun _ => None,
     Failure "Key matrix is not valid (determinant not coprime with 26)").
Proof.
  exact (proj1 (leaf_errors_become_outcomes
                  HillCipher.isalpha_latin1 HillCipher.upper_latin1 HillCipher.det
                  SDES.ascii_digit SDES.repr_ascii Steganography.keep
                  Steganography.cover_root
                  HillCipher.key_3257 (lit "0000000000") (lit "HELLO")
                  (Some (HillCipher.Mat 2 4 1 2)) (Some key_1010000010) None None
                  "cover.png" HillCipher.key_3257 key_1010000010 (fun _ => None))
               (Raise ValueError
                  "Key matrix is not valid (determinant not coprime with 26)")
               eq_refl).
Defined.

(** End to end: [HELLO] is padded to [HELLOX], enciphered to 48 binary
    digits, which take 456 bits with the delimiter: a 1x152 image holds
    them, and decryption gives [HELLOX] back. *)
Example pipeline_round_trip :
  exists fs' fields,
    hybrid_encrypt HillCipher.isalpha_latin1 HillCipher.upper_latin1 HillCipher.det
      Steganography.keep Steganography.cover_root HillCipher.key_3257
      (lit "0000000000") (lit "HELLO") (Some HillCipher.key_3257)
      (Some key_1010000010) (Some "cover.png"%string) (Some "stego.png"%string)
      (Steganography.one_file "cover.png" (Steganography.zeros 1 152))
    = (fs', Success fields) /\
    hidden_bits fields = 456%nat /\
    exists out,
      hybrid_decrypt HillCipher.isalpha_latin1 HillCipher.upper_latin1
        HillCipher.det SDES.ascii_digit SDES.repr_ascii "stego.png" HillCipher.key_3257
        key_1010000010 fs'
      = (fs', Success out) /\
      decrypted_text out = lit "HELLOX".
Proof.
  do 2 eexists. split; [vm_compute; reflexivity|]. split; [reflexivity|].
  eexists. split; [vm_compute; reflexivity|]. reflexivity.
Qed.

(** On a cover image nothing was hidden in, [hybrid_decrypt] does not report
    [No hidden message found in the image]: extraction hands it the
    characters the low bits decode to, and the failure is that of reading
    them as digits. *)
Example decrypt_unmodified_image :
  SDES.decrypt_text SDES.ascii_digit SDES.repr_ascii
    (SDES.CipherStr [0; 0; 0; 0; 0; 0]) key_1010000010
  = inl (Raise ValueError "invalid literal for int() with base 10: '\x00'") /\
  hybrid_decrypt HillCipher.isalpha_latin1 HillCipher.upper_latin1 HillCipher.det
    SDES.ascii_digit SDES.repr_ascii "cover.png" HillCipher.key_3257
    key_1010000010
    (Steganography.one_file "cover.png" (Steganography.zeros 4 4))
  = (Steganography.one_file "cover.png" (Steganography.zeros 4 4),
     Failure "invalid literal for int() with base 10: '\x00'").
Proof. split; vm_compute; reflexivity. Qed.

(** [Hello] with the keys of the scenarios, in the 1x152 image. *)
Lemma hybrid_decrypt_hybrid_encrypt_witness :
  exists fs' fields,
    hybrid_encrypt HillCipher.isalpha_latin1 HillCipher.upper_latin1 HillCipher.det
      Steganography.keep Steganography.cover_root HillCipher.key_3257
      (lit "0000000000") (lit "Hello") (Some HillCipher.key_3257)
      (Some key_1010000010) (Some "cover.png"%string) (Some "stego.png"%string)
      (Steganography.one_file "cover.png" (Steganography.zeros 1 152))
    = (fs', Success fields) /\
    encrypted_image_path fields
    = chosen_output_path Steganography.cover_root "cover.png"
        (Some "stego.png"%string) /\
    hidden_bits fields
    = (64 * length (HillCipher.prepare_text HillCipher.isalpha_latin1
                      HillCipher.upper_latin1 (lit "Hello")) + 72)%nat /\
    length (sdes_encrypted_binary fields)
    = (8 * length (HillCipher.prepare_text HillCipher.isalpha_latin1
                     HillCipher.upper_latin1 (lit "Hello")))%nat /\
    exists out,
      hybrid_decrypt HillCipher.isalpha_latin1 HillCipher.upper_latin1
        HillCipher.det SDES.ascii_digit SDES.repr_ascii (encrypted_image_path fields)
        (keys_hill_key fields) (keys_sdes_key fields) fs'
      = (fs', Success out) /\
      decrypted_text out
      = HillCipher.prepare_text HillCipher.isalpha_latin1 HillCipher.upper_latin1
          (lit "Hello").
Proof.
  apply (hybrid_decrypt_hybrid_encrypt
           HillCipher.isalpha_latin1 HillCipher.upper_latin1 HillCipher.det
           SDES.ascii_digit SDES.repr_ascii Steganography.keep Steganography.cover_root
           HillCipher.key_3257 (lit "0000000000")
           HillCipher.isalpha_latin1_capital HillCipher.upper_latin1_small
           eq_refl eq_refl
           (lit "Hello") (Some HillCipher.key_3257) (Some key_1010000010)
           (lit "1010000010") "cover.png" (Some "stego.png"%string)
           (Steganography.one_file "cover.png" (Steganography.zeros 1 152))
           (Steganography.zeros 1 152));
    try reflexivity.
  - vm_compute. discriminate.
  - vm_compute. lia.
Defined.

(** The same text with no cover image and no keys given: the keys are the
    generated ones. *)
Lemma hybrid_encrypt_default_cover_witness :
  exists fs' fields,
    hybrid_encrypt HillCipher.isalpha_latin1 HillCipher.upper_latin1 HillCipher.det
      Steganography.keep Steganography.cover_root HillCipher.key_3257
      (lit "1010000010") (lit "Hello") None None None None (fun _ => None)
    = (fs', Success fields) /\
    cover_image fields = "temp_cover_image.png"%string /\
    image_capacity fields = 2400000 /\
    encrypted_image_path fields
    = chosen_output_path Steganography.cover_root "temp_cover_image.png" None /\
    exists out,
      hybrid_decrypt HillCipher.isalpha_latin1 HillCipher.upper_latin1
        HillCipher.det SDES.ascii_digit SDES.repr_ascii (encrypted_image_path fields)
        (keys_hill_key fields) (keys_sdes_key fields) fs'
      = (fs', Success out) /\
      decrypted_text out
      = HillCipher.prepare_text HillCipher.isalpha_latin1 HillCipher.upper_latin1
          (lit "Hello").
Proof.
  apply (hybrid_encrypt_default_cover
           HillCipher.isalpha_latin1 HillCipher.upper_latin1 HillCipher.det
           SDES.ascii_digit SDES.repr_ascii Steganography.keep Steganography.cover_root
           HillCipher.key_3257 (lit "1010000010")
           HillCipher.isalpha_latin1_capital HillCipher.upper_latin1_small
           eq_refl eq_refl
           (lit "Hello") None None (lit "1010000010") None (fun _ => None));
    try reflexivity.
  - vm_compute. discriminate.
  - apply Z.leb_le. reflexivity.
Defined.

(** [123 !] has no letter. *)
Lemma hybrid_encrypt_no_letters_witness :
  exists fs' fields,
    hybrid_encrypt HillCipher.isalpha_latin1 HillCipher.upper_latin1 HillCipher.det
      Steganography.keep Steganography.cover_root HillCipher.key_3257
      (lit "0000000000") (lit "123 !") (Some HillCipher.key_3257)
      (Some key_1010000010) (Some "cover.png"%string) (Some "stego.png"%string)
      Steganography.cover_1x40
    = (fs', Success fields) /\
    hill_encrypted fields = [] /\
    sdes_encrypted_binary fields = [] /\
    hidden_bits fields = 72%nat /\
    hybrid_decrypt HillCipher.isalpha_latin1 HillCipher.upper_latin1
      HillCipher.det SDES.ascii_digit SDES.repr_ascii (encrypted_image_path fields)
      (keys_hill_key fields) (keys_sdes_key fields) fs'
    = (fs', Failure "No hidden message found in the image").
Proof.
  eapply (hybrid_encrypt_no_letters
            HillCipher.isalpha_latin1 HillCipher.upper_latin1 HillCipher.det
            SDES.ascii_digit SDES.repr_ascii Steganography.keep Steganography.cover_root
            HillCipher.key_3257 (lit "0000000000")
            (lit "123 !") (Some HillCipher.key_3257) (Some key_1010000010)
            _ "cover.png" (Some "stego.png"%string)
            Steganography.cover_1x40 (Steganography.zeros 1 40));
    try reflexivity.
  vm_compute. lia.
Defined.

Lemma upper_latin1_nonempty c : HillCipher.upper_latin1 c <> [].
Proof.
  unfold HillCipher.upper_latin1.
  repeat match goal with |- context [if ?b then _ else _] => destruct b end;
    discriminate.
Qed.

Lemma isalpha_latin1_small c :
  HillCipher.is_lower c = true -> HillCipher.isalpha_latin1 c = true.
Proof. unfold HillCipher.is_lower, HillCipher.isalpha_latin1. lia. Qed.

(** A [save_keys] that succeeds. *)
Definition keys_json (hill_key : HillCipher.matrix) (sdes_key : SDES.key_arg)
  : result string := inr "keys.json"%string.

(** The default text of [test_hybrid_system]. *)
Definition default_test_text : pystr :=
  lit "Hello World! This is a test of the hybrid cryptographic system.".

Lemma test_hybrid_system_fails_on_non_letter_witness :
  snd (test_hybrid_system HillCipher.isalpha_latin1 HillCipher.upper_latin1
         HillCipher.det SDES.ascii_digit SDES.repr_ascii Steganography.keep
         Steganography.cover_root HillCipher.key_3257 (lit "1010000010")
         keys_json default_test_text (fun _ => None))
  = false.
Proof.
  exact (test_hybrid_system_fails_on_non_letter
           HillCipher.isalpha_latin1 HillCipher.upper_latin1 HillCipher.det
           SDES.ascii_digit SDES.repr_ascii Steganography.keep Steganography.cover_root
           HillCipher.key_3257 (lit "1010000010")
           HillCipher.isalpha_latin1_capital HillCipher.upper_latin1_small
           eq_refl eq_refl keys_json upper_latin1_nonempty
           default_test_text (fun _ => None)
           (conj eq_refl (conj eq_refl (conj eq_refl eq_refl)))
           eq_refl eq_refl).
Defined.

Lemma test_hybrid_system_letters_witness :
  snd (test_hybrid_system HillCipher.isalpha_latin1 HillCipher.upper_latin1
         HillCipher.det SDES.ascii_digit SDES.repr_ascii Steganography.keep
         Steganography.cover_root HillCipher.key_3257 (lit "1010000010")
         keys_json (lit "Hex") (fun _ => None))
  = negb ((last (lit "Hex") 0 =? 88) || (last (lit "Hex") 0 =? 120)).
Proof.
  apply (test_hybrid_system_letters
           HillCipher.isalpha_latin1 HillCipher.upper_latin1 HillCipher.det
           SDES.ascii_digit SDES.repr_ascii Steganography.keep Steganography.cover_root
           HillCipher.key_3257 (lit "1010000010")
           HillCipher.isalpha_latin1_capital HillCipher.upper_latin1_small
           eq_refl eq_refl keys_json isalpha_latin1_small
           (lit "Hex") (fun _ => None) "keys.json"%string
           (conj eq_refl (conj eq_refl (conj eq_refl eq_refl))));
    try reflexivity.
  - vm_compute. discriminate.
  - apply Z.leb_le. reflexivity.
Defined.

End HybridCryptoModel.
